(** * ABFT checksum layer of the MAGMA fork: GEMM, SYRK, TRSM and POTRF wrappers

    A shallow embedding of
      - magma-2.0.2/magmablas/abft_dgemm.cpp            ([abft_dgemm])
      - magma-1.6.2-enhanced/magmablas/dsyrkFT.cpp       ([dsyrkFT])
      - old_source_code/.../magmablas/dtrsmFT.cpp        ([dtrsmFT])
      - magma-1.6.2-online/magmablas/dpotrfFT.cpp        ([dpotrfFT])
      - old_source_code/v2/dsyrkFT.h                     ([detectAndCorrectForSyrk],
                                                          [dsyrkFT])

    Data model.  Device and host memory are flat arrays of [double] cells
    addressed by an integer offset; a matrix argument is a base pointer and a
    leading dimension, entry (i,j) living at [p + i + j*ld] (column major).
    A [double] is modelled by its rational value.  The BLAS and LAPACK
    routines, which are external, are given their exact mathematical meaning:
    what is proved about them is the algebra of the checksum scheme and which
    kernels are issued on which buffers.  The detection kernel, which is code
    of the repository, rounds each of its operations to binary64 ([fl64]).
    NaN and infinities are not modelled.  C [int] values are
    unbounded integers (no call in the modelled code relies on wrap-around);
    the conversion of a double to [int] in the kernel saturates.  Inputs
    on which the program faults are outside the model: an integer division
    by zero (nb = 0 in [abft_dgemm], n = 0 in [dtrsmFT]) is [Z.quot] and
    yields 0, and a zero pivot of the triangular solve divides to 0.

    Effects.  Every routine is a state transformer over [state], which holds
    both memories, the process-wide kernel stream of the 1.x interface and a
    log of the library calls and diagnostics issued, in program order.
    Kernels enqueued on different streams are executed in program order. *)

From Stdlib Require Import ZArith QArith Qabs Qround Qpower List Bool Lia Lqa String Ascii.
Import ListNotations.

Open Scope Z_scope.

(* ===================================================================== *)
(** ** Loops and finite sums *)

(** [for (i = 0; i < n; i++) body(i)]. *)
Fixpoint for_upto {S : Type} (n : nat) (body : Z -> S -> S) (s : S) : S :=
  match n with
  | O => s
  | Datatypes.S n' => body (Z.of_nat n') (for_upto n' body s)
  end.

Definition for_loop {S : Type} (n : Z) (body : Z -> S -> S) (s : S) : S :=
  for_upto (Z.to_nat n) body s.

(** The indices [0 .. n-1]. *)
Definition range (n : Z) : list Z := map Z.of_nat (seq 0 (Z.to_nat n)).

Fixpoint sum_upto (n : nat) (f : Z -> Q) : Q :=
  match n with
  | O => 0%Q
  | Datatypes.S n' => (sum_upto n' f + f (Z.of_nat n'))%Q
  end.

(** [sumf n f] is f(0) + ... + f(n-1). *)
Definition sumf (n : Z) (f : Z -> Q) : Q := sum_upto (Z.to_nat n) f.

(* ===================================================================== *)
(** ** Memory *)

Definition mem := Z -> Q.

Definition upd (mm : mem) (a : Z) (v : Q) : mem :=
  fun b => if Z.eqb b a then v else mm b.

(** Address of entry (i,j) of a column-major matrix. *)
Definition addr (p ld i j : Z) : Z := p + i + j * ld.

(** Index pairs of a [rows] x [cols] matrix, column by column. *)
Definition grid (rows cols : Z) : list (Z * Z) :=
  flat_map (fun j => map (fun i => (i, j)) (range rows)) (range cols).

(** The cells occupied by a [rows] x [cols] view. *)
Definition view_addrs (p ld rows cols : Z) : list Z :=
  map (fun ij => addr p ld (fst ij) (snd ij)) (grid rows cols).

(** The cells of a strided vector of [n] elements. *)
Definition vec_addrs (p inc n : Z) : list Z :=
  map (fun t => p + t * inc) (range n).

Fixpoint write_cells (cells : list (Z * Q)) (mm : mem) : mem :=
  match cells with
  | [] => mm
  | c :: cs => write_cells cs (upd mm (fst c) (snd c))
  end.

Definition memb (a : Z) (l : list Z) : bool := existsb (Z.eqb a) l.

(** No cell of [l1] is a cell of [l2]. *)
Definition disjointb (l1 l2 : list Z) : bool :=
  forallb (fun a => negb (memb a l2)) l1.

(* ===================================================================== *)
(** ** The BLAS/LAPACK collaborators

    These routines are external to the repository (cuBLAS behind the
    [magma_*] wrappers of interface_cuda/blas_d_v2.cpp, and the Fortran
    BLAS behind [blasf77_*]).  They are given their documented mathematical
    meaning; operands are read from the memory on entry. *)

Inductive magma_trans_t := MagmaNoTrans | MagmaTrans | MagmaConjTrans.
Inductive magma_uplo_t := MagmaUpper | MagmaLower | MagmaFull.
Inductive magma_side_t := MagmaLeft | MagmaRight.
Inductive magma_diag_t := MagmaNonUnit | MagmaUnit.

Definition is_notrans (t : magma_trans_t) : bool :=
  match t with MagmaNoTrans => true | _ => false end.

Definition is_trans_or_conj (t : magma_trans_t) : bool :=
  match t with MagmaNoTrans => false | _ => true end.

(** Entry (i,j) of op(X). *)
Definition op_get (t : magma_trans_t) (mm : mem) (p ld i j : Z) : Q :=
  if is_notrans t then mm (addr p ld i j) else mm (addr p ld j i).

Definition gemm_entry (tA tB : magma_trans_t) (k : Z) (alpha : Q)
    (A lda B ldb : Z) (beta : Q) (C ldc : Z) (mm : mem) (i j : Z) : Q :=
  (alpha * sumf k (fun l => op_get tA mm A lda i l * op_get tB mm B ldb l j)
   + beta * mm (addr C ldc i j))%Q.

(** C := alpha op(A) op(B) + beta C, with C of size m x n. *)
Definition cublasDgemm (tA tB : magma_trans_t) (m n k : Z) (alpha : Q)
    (A lda B ldb : Z) (beta : Q) (C ldc : Z) (mm : mem) : mem :=
  write_cells
    (map (fun ij => (addr C ldc (fst ij) (snd ij),
                     gemm_entry tA tB k alpha A lda B ldb beta C ldc mm
                                (fst ij) (snd ij)))
         (grid m n))
    mm.

(** Entry j of op(A) x, for x strided by [incx]; A is m x n. *)
Definition gemv_entry (t : magma_trans_t) (m n : Z) (alpha : Q) (A lda x incx : Z)
    (beta : Q) (y incy : Z) (mm : mem) (j : Z) : Q :=
  (alpha * sumf (if is_notrans t then n else m)
                (fun l => op_get t mm A lda j l * mm (x + l * incx)%Z)
   + beta * mm (y + j * incy)%Z)%Q.

(** y := alpha op(A) x + beta y. *)
Definition cublasDgemv (t : magma_trans_t) (m n : Z) (alpha : Q) (A lda x incx : Z)
    (beta : Q) (y incy : Z) (mm : mem) : mem :=
  write_cells
    (map (fun j => (y + j * incy,
                    gemv_entry t m n alpha A lda x incx beta y incy mm j))
         (range (if is_notrans t then m else n)))
    mm.

(** y := alpha x + y on [n] strided elements. *)
Definition blas_daxpy (n : Z) (alpha : Q) (x incx y incy : Z) (mm : mem) : mem :=
  write_cells
    (map (fun t => (y + t * incy,
                    (mm (y + t * incy)%Z + alpha * mm (x + t * incx)%Z)%Q))
         (range n))
    mm.

(** One column step of the solve X * L^T = B for a row vector [x]
    (right side, lower triangular, transposed, non-unit diagonal):
    x[k] is divided by L[k,k] and then eliminated from the later entries. *)
Definition trsm_step (L : Z -> Z -> Q) (n : Z) (k : Z) (x : Z -> Q) : Z -> Q :=
  fun t =>
    if t =? k then (x k / L k k)%Q
    else if (k <? t) && (t <? n) then (x t - (x k / L k k) * L t k)%Q
    else x t.

Definition trsm_row (L : Z -> Z -> Q) (n : Z) (x : Z -> Q) : Z -> Q :=
  for_loop n (trsm_step L n) x.

(** B := alpha * B * inv(A^T), A lower triangular n x n, B of size m x n. *)
Definition dtrsm_RLTN (m n : Z) (alpha : Q) (A lda B ldb : Z) (mm : mem) : mem :=
  write_cells
    (map (fun ij =>
            (addr B ldb (fst ij) (snd ij),
             (alpha * trsm_row (fun r c => mm (addr A lda r c)) n
                               (fun c => mm (addr B ldb (fst ij) c)) (snd ij))%Q))
         (grid m n))
    mm.

(** The solve, for the one combination of flags the ABFT layer uses. *)
Definition blas_dtrsm (side : magma_side_t) (uplo : magma_uplo_t)
    (trans : magma_trans_t) (diag : magma_diag_t)
    (m n : Z) (alpha : Q) (A lda B ldb : Z) (mm : mem) : option mem :=
  match side, uplo, trans, diag with
  | MagmaRight, MagmaLower, MagmaTrans, MagmaNonUnit =>
      Some (dtrsm_RLTN m n alpha A lda B ldb mm)
  | _, _, _, _ => None
  end.

(** x := L^T x for the lower triangle L of A ([dtrmv] with 'L','T','N'),
    on a caller-local vector. *)
Definition dtrmv_LTN (n : Z) (A lda : Z) (mm : mem) (x : Z -> Q) : Z -> Q :=
  fun j =>
    if (0 <=? j) && (j <? n)
    then sumf n (fun i => if j <=? i then (mm (addr A lda i j) * x i)%Q else 0%Q)
    else x j.

(* ===================================================================== *)
(** ** State, log and command notation *)

Definition magma_queue_t := Z.

Inductive space := Device | Host.

Inductive event :=
| EvPrint (msg : string)
| EvPrintMatrix (sp : space) (p ld rows cols : Z)
| EvSetKernelStream (q : magma_queue_t)
| EvStreamSync (q : magma_queue_t)
| EvSetLapackThreads (t : Z)
| EvGemm (sp : space) (q : magma_queue_t) (tA tB : magma_trans_t) (m n k : Z)
         (alpha : Q) (A lda B ldb : Z) (beta : Q) (C ldc : Z)
| EvGemv (q : magma_queue_t) (t : magma_trans_t) (m n : Z) (alpha : Q)
         (A lda x incx : Z) (beta : Q) (y incy : Z)
| EvTrsm (sp : space) (q : magma_queue_t) (side : magma_side_t) (uplo : magma_uplo_t)
         (t : magma_trans_t) (d : magma_diag_t) (m n : Z) (alpha : Q) (A lda B ldb : Z)
| EvSyrk (q : magma_queue_t) (uplo : magma_uplo_t) (t : magma_trans_t) (n k : Z)
         (alpha : Q) (A lda : Z) (beta : Q) (C ldc : Z)
| EvCheckCol (q : magma_queue_t) (A lda m n nb chk ldchk chk_r ldchk_r : Z)
| EvCheckRow (q : magma_queue_t) (A lda m n nb chk ldchk chk_r ldchk_r : Z)
| EvPotrf (uplo : magma_uplo_t) (n A lda : Z)
| EvTrmv (n A lda : Z)
| EvChkScale (k a : Z) (d : Q)
| EvAxpy (n : Z) (alpha : Q) (x incx y incy : Z)
| EvDetectHost (A lda : Z) (chksum chksum_ld : Z)
| EvFDiv (num den : Q)
| EvPatch (a : Z) (delta : Q).

Record state := mkState {
  dev : mem;
  host : mem;
  kernel_stream : magma_queue_t;
  log : list event
}.

Definition cmd := state -> state.

Definition emit (e : event) : cmd :=
  fun s => mkState (dev s) (host s) (kernel_stream s) (log s ++ [e]).

Definition on_dev (f : mem -> mem) : cmd :=
  fun s => mkState (f (dev s)) (host s) (kernel_stream s) (log s).

Definition on_host (f : mem -> mem) : cmd :=
  fun s => mkState (dev s) (f (host s)) (kernel_stream s) (log s).

Definition skip : cmd := fun s => s.

Definition when (b : bool) (c : cmd) : cmd := if b then c else skip.

Declare Scope cmd_scope.
Delimit Scope cmd_scope with cmd.
Notation "c1 ;; c2" := (fun s : state => c2 (c1 s))
  (at level 61, right associativity) : cmd_scope.

Definition newline : string := String (ascii_of_nat 10) EmptyString.

(** [printf] / [cout <<] of a line of text. *)
Definition print_line (msg : string) : cmd := emit (EvPrint (msg ++ newline)).

(** [magma_dgemm] of the 2.x interface: a thin wrapper over [cublasDgemm]
    on the queue's handle (interface_cuda/blas_d_v2.cpp). *)
Definition magma_dgemm (tA tB : magma_trans_t) (m n k : Z) (alpha : Q)
    (dA ldda dB lddb : Z) (beta : Q) (dC lddc : Z) (queue : magma_queue_t) : cmd :=
  (emit (EvGemm Device queue tA tB m n k alpha dA ldda dB lddb beta dC lddc) ;;
   on_dev (cublasDgemm tA tB m n k alpha dA ldda dB lddb beta dC lddc))%cmd.

(** The 1.x interface has no queue argument: kernels go to the stream last
    selected with [magmablasSetKernelStream]. *)
Definition magmablasSetKernelStream (q : magma_queue_t) : cmd :=
  fun s => mkState (dev s) (host s) q (log s ++ [EvSetKernelStream q]).

Definition magma_dgemm_v1 (tA tB : magma_trans_t) (m n k : Z) (alpha : Q)
    (dA ldda dB lddb : Z) (beta : Q) (dC lddc : Z) : cmd :=
  fun s => magma_dgemm tA tB m n k alpha dA ldda dB lddb beta dC lddc
                       (kernel_stream s) s.

Definition magma_dgemv_v1 (t : magma_trans_t) (m n : Z) (alpha : Q)
    (dA ldda dx incx : Z) (beta : Q) (dy incy : Z) : cmd :=
  fun s =>
    on_dev (cublasDgemv t m n alpha dA ldda dx incx beta dy incy)
      (emit (EvGemv (kernel_stream s) t m n alpha dA ldda dx incx beta dy incy) s).

Definition cudaStreamSynchronize (q : magma_queue_t) : cmd := emit (EvStreamSync q).

Definition MAGMA_D_ONE : Q := 1.
Definition MAGMA_D_ZERO : Q := 0.

(* ===================================================================== *)
(** ** magma-2.0.2/magmablas/abft_dgemm.cpp *)

Module AbftDgemm.

Section WithChecker.

(** [abft_checker_colchk] and [abft_checker_rowchk] (abft_checker.h) are not
    part of the sources at hand.  They are taken as parameters: arbitrary
    transformers of device memory, called with the arguments the source
    passes, in the order (A, lda, m, n, nb, chk, ldchk, chk_r, ldchk_r,
    chk_v, ld_chk_v, DEBUG, stream). *)
Definition checker_t :=
  Z -> Z -> Z -> Z -> Z -> Z -> Z -> Z -> Z -> Z -> Z -> bool -> magma_queue_t ->
  mem -> mem.

Variable checker_colchk : checker_t.
Variable checker_rowchk : checker_t.

Definition abft_checker_colchk (dA ldda m n nb dA_colchk ldda_colchk
    dA_colchk_r ldda_colchk_r chk_v ld_chk_v : Z) (DEBUG : bool)
    (stream : magma_queue_t) : cmd :=
  (emit (EvCheckCol stream dA ldda m n nb dA_colchk ldda_colchk
                    dA_colchk_r ldda_colchk_r) ;;
   on_dev (checker_colchk dA ldda m n nb dA_colchk ldda_colchk
                          dA_colchk_r ldda_colchk_r chk_v ld_chk_v DEBUG stream))%cmd.

Definition abft_checker_rowchk (dA ldda m n nb dA_rowchk ldda_rowchk
    dA_rowchk_r ldda_rowchk_r chk_v ld_chk_v : Z) (DEBUG : bool)
    (stream : magma_queue_t) : cmd :=
  (emit (EvCheckRow stream dA ldda m n nb dA_rowchk ldda_rowchk
                    dA_rowchk_r ldda_rowchk_r) ;;
   on_dev (checker_rowchk dA ldda m n nb dA_rowchk ldda_rowchk
                          dA_rowchk_r ldda_rowchk_r chk_v ld_chk_v DEBUG stream))%cmd.

(** Lines 43-112: verification of A, B and C before the product. *)
Definition check_before (transA transB : magma_trans_t) (m n k : Z)
    (dA ldda dB lddb dC lddc nb : Z)
    (dA_colchk ldda_colchk dA_rowchk ldda_rowchk : Z)
    (dA_colchk_r ldda_colchk_r dA_rowchk_r ldda_rowchk_r : Z)
    (dB_colchk lddb_colchk dB_rowchk lddb_rowchk : Z)
    (dB_colchk_r lddb_colchk_r dB_rowchk_r lddb_rowchk_r : Z)
    (dC_colchk lddc_colchk dC_rowchk lddc_rowchk : Z)
    (dC_colchk_r lddc_colchk_r dC_rowchk_r lddc_rowchk_r : Z)
    (chk_v ld_chk_v : Z) (DEBUG : bool) (stream1 : magma_queue_t) : cmd :=
  ((if is_notrans transA then
      let mem_row := m in
      let mem_col := k in
      when DEBUG (print_line "dgemm-before-check-A-col") ;;
      abft_checker_colchk dA ldda mem_row mem_col nb
        dA_colchk ldda_colchk dA_colchk_r ldda_colchk_r chk_v ld_chk_v DEBUG stream1
    else if is_trans_or_conj transA then
      let mem_row := k in
      let mem_col := m in
      when DEBUG (print_line "dgemm-before-check-A-row") ;;
      abft_checker_rowchk dA ldda mem_row mem_col nb
        dA_rowchk ldda_rowchk dA_rowchk_r ldda_rowchk_r chk_v ld_chk_v DEBUG stream1
    else skip) ;;
   (if is_notrans transB then
      let mem_row := k in
      let mem_col := n in
      when DEBUG (print_line "dgemm-before-check-B-row") ;;
      abft_checker_rowchk dB lddb mem_row mem_col nb
        dB_rowchk lddb_rowchk dB_rowchk_r lddb_rowchk_r chk_v ld_chk_v DEBUG stream1
    else if is_trans_or_conj transB then
      let mem_row := n in
      let mem_col := k in
      when DEBUG (print_line "dgemm-before-check-B-col") ;;
      abft_checker_colchk dB lddb mem_row mem_col nb
        dB_colchk lddb_colchk dB_colchk_r lddb_colchk_r chk_v ld_chk_v DEBUG stream1
    else skip) ;;
   (let mem_row := m in
    let mem_col := n in
    when DEBUG (print_line "dgemm-before-check-C-col") ;;
    abft_checker_colchk dC lddc mem_row mem_col nb
      dC_colchk lddc_colchk dC_colchk_r lddc_colchk_r chk_v ld_chk_v DEBUG stream1 ;;
    when DEBUG (print_line "dgemm-before-check-C-row") ;;
    abft_checker_rowchk dC lddc mem_row mem_col nb
      dC_rowchk lddc_rowchk dC_rowchk_r lddc_rowchk_r chk_v ld_chk_v DEBUG stream1))%cmd.

(** Lines 185-226: the two checksum products, on the second stream.
    [(m / nb) * 2] is C integer arithmetic. *)
Definition update_checksums (transA transB : magma_trans_t) (m n k : Z) (alpha : Q)
    (dA ldda dB lddb : Z) (beta : Q) (nb : Z)
    (dA_colchk ldda_colchk dA_rowchk ldda_rowchk : Z)
    (dB_colchk lddb_colchk dB_rowchk lddb_rowchk : Z)
    (dC_colchk lddc_colchk dC_rowchk lddc_rowchk : Z)
    (stream2 : magma_queue_t) : cmd :=
  ((if is_notrans transA then
      magma_dgemm transA transB (Z.quot m nb * 2) n k alpha
        dA_colchk ldda_colchk dB lddb beta dC_colchk lddc_colchk stream2
    else
      magma_dgemm transA transB (Z.quot m nb * 2) n k alpha
        dA_rowchk ldda_rowchk dB lddb beta dC_colchk lddc_colchk stream2) ;;
   (if is_notrans transB then
      magma_dgemm transA transB m (Z.quot n nb * 2) k alpha
        dA ldda dB_rowchk lddb_rowchk beta dC_rowchk lddc_rowchk stream2
    else
      magma_dgemm transA transB m (Z.quot n nb * 2) k alpha
        dA ldda dB_colchk lddb_colchk beta dC_rowchk lddc_rowchk stream2))%cmd.

(** Lines 229-264: verification of C after the product. *)
Definition check_after (m n : Z) (dC lddc nb : Z)
    (dC_colchk lddc_colchk dC_rowchk lddc_rowchk : Z)
    (dC_colchk_r lddc_colchk_r dC_rowchk_r lddc_rowchk_r : Z)
    (chk_v ld_chk_v : Z) (DEBUG : bool) (stream1 : magma_queue_t) : cmd :=
  (let mem_row := m in
   let mem_col := n in
   when DEBUG (print_line "dgemm-after-check-C-col") ;;
   abft_checker_colchk dC lddc mem_row mem_col nb
     dC_colchk lddc_colchk dC_colchk_r lddc_colchk_r chk_v ld_chk_v DEBUG stream1 ;;
   when DEBUG (print_line "dgemm-after-check-C-row") ;;
   abft_checker_rowchk dC lddc mem_row mem_col nb
     dC_rowchk lddc_rowchk dC_rowchk_r lddc_rowchk_r chk_v ld_chk_v DEBUG stream1)%cmd.

(** The routine, built without RECORD_TIME_AND_ENERGY, GENERATE_GROUNDTRUTH,
    FAULT_ANALYSIS and VOID_PROPAGATION. *)
Definition abft_dgemm (transA transB : magma_trans_t) (m n k : Z) (alpha : Q)
    (dA ldda dB lddb : Z) (beta : Q) (dC lddc : Z) (nb : Z)
    (dA_colchk ldda_colchk dA_rowchk ldda_rowchk : Z)
    (dA_colchk_r ldda_colchk_r dA_rowchk_r ldda_rowchk_r : Z)
    (dB_colchk lddb_colchk dB_rowchk lddb_rowchk : Z)
    (dB_colchk_r lddb_colchk_r dB_rowchk_r lddb_rowchk_r : Z)
    (dC_colchk lddc_colchk dC_rowchk lddc_rowchk : Z)
    (dC_colchk_r lddc_colchk_r dC_rowchk_r lddc_rowchk_r : Z)
    (chk_v ld_chk_v : Z)
    (FT DEBUG CHECK_BEFORE CHECK_AFTER : bool)
    (stream1 stream2 : magma_queue_t) : cmd :=
  (when (FT && CHECK_BEFORE)
     (check_before transA transB m n k dA ldda dB lddb dC lddc nb
        dA_colchk ldda_colchk dA_rowchk ldda_rowchk
        dA_colchk_r ldda_colchk_r dA_rowchk_r ldda_rowchk_r
        dB_colchk lddb_colchk dB_rowchk lddb_rowchk
        dB_colchk_r lddb_colchk_r dB_rowchk_r lddb_rowchk_r
        dC_colchk lddc_colchk dC_rowchk lddc_rowchk
        dC_colchk_r lddc_colchk_r dC_rowchk_r lddc_rowchk_r
        chk_v ld_chk_v DEBUG stream1) ;;
   magma_dgemm transA transB m n k alpha dA ldda dB lddb beta dC lddc stream1 ;;
   when FT
     (update_checksums transA transB m n k alpha dA ldda dB lddb beta nb
        dA_colchk ldda_colchk dA_rowchk ldda_rowchk
        dB_colchk lddb_colchk dB_rowchk lddb_rowchk
        dC_colchk lddc_colchk dC_rowchk lddc_rowchk stream2) ;;
   when (FT && CHECK_AFTER)
     (check_after m n dC lddc nb
        dC_colchk lddc_colchk dC_rowchk lddc_rowchk
        dC_colchk_r lddc_colchk_r dC_rowchk_r lddc_rowchk_r
        chk_v ld_chk_v DEBUG stream1))%cmd.

End WithChecker.

End AbftDgemm.

(* ===================================================================== *)
(** ** magma-1.6.2-enhanced/magmablas/dsyrkFT.cpp *)

Module DsyrkFT.

(** [printMatrix_gpu] / [printMatrix_host] (FT.h): diagnostics only. *)
Definition printMatrix_gpu (p ld rows cols : Z) : cmd :=
  emit (EvPrintMatrix Device p ld rows cols).
Definition printMatrix_host (p ld rows cols : Z) : cmd :=
  emit (EvPrintMatrix Host p ld rows cols).

(** [streams] is the caller's array of CUDA streams. *)
Definition dsyrkFT (uplo : magma_uplo_t) (trans : magma_trans_t)
    (n m : Z) (alpha : Q) (A lda : Z) (beta : Q) (C ldc : Z)
    (checksumA checksumA_ld checksumC checksumC_ld : Z)
    (vd vd_ld chk1 chk1_ld chk2 chk2_ld : Z)
    (FT DEBUG VERIFY : bool) (streams : Z -> magma_queue_t) : cmd :=
  (cudaStreamSynchronize (streams 1) ;;
   cudaStreamSynchronize (streams 4) ;;
   when (FT && VERIFY)
     (magmablasSetKernelStream (streams 2) ;;
      magma_dgemv_v1 MagmaTrans n m MAGMA_D_ONE A lda vd vd_ld
                     MAGMA_D_ZERO chk1 chk1_ld ;;
      magmablasSetKernelStream (streams 3) ;;
      magma_dgemv_v1 MagmaTrans n m MAGMA_D_ONE A lda (vd + 1) vd_ld
                     MAGMA_D_ZERO chk2 chk2_ld ;;
      cudaStreamSynchronize (streams 2) ;;
      cudaStreamSynchronize (streams 3) ;;
      when DEBUG
        (cudaStreamSynchronize (streams 1) ;;
         print_line "recalculated checksum of A before dsyrk:" ;;
         printMatrix_gpu chk1 chk1_ld 1 m ;;
         printMatrix_gpu chk2 chk2_ld 1 m ;;
         print_line "updated checksum of A before dsyrk:" ;;
         printMatrix_host checksumA checksumA_ld 2 m)) ;;
   magmablasSetKernelStream (streams 1) ;;
   magma_dgemm_v1 MagmaNoTrans MagmaTrans n n m (MAGMA_D_ONE * (-1))%Q
                  A lda A lda MAGMA_D_ONE C ldc ;;
   when FT
     (magmablasSetKernelStream (streams 4) ;;
      magma_dgemm_v1 MagmaNoTrans MagmaTrans 2 n m (MAGMA_D_ONE * (-1))%Q
                     checksumA checksumA_ld A lda MAGMA_D_ONE
                     checksumC checksumC_ld))%cmd.





End DsyrkFT.

(* ===================================================================== *)
(** ** old_source_code/magma-1.6.2-enhanced-fermi/magmablas/dtrsmFT.cpp *)

Module DtrsmFT.

(** [for (int i = 0; i < m; i += n) body(i)].  The loop does not terminate
    when n <= 0 < m; the result is then [None]. *)
Fixpoint for_step (fuel : nat) (i m n : Z) (body : Z -> cmd) (s : state)
  : option state :=
  if i <? m then
    match fuel with
    | O => None
    | Datatypes.S fuel' => for_step fuel' (i + n) m n body (body i s)
    end
  else Some s.

Definition magma_dtrsm_v1 (side : magma_side_t) (uplo : magma_uplo_t)
    (trans : magma_trans_t) (diag : magma_diag_t) (m n : Z) (alpha : Q)
    (dA ldda dB lddb : Z) (s : state) : option state :=
  match blas_dtrsm side uplo trans diag m n alpha dA ldda dB lddb (dev s) with
  | Some d =>
      Some (mkState d (host s) (kernel_stream s)
              (log s ++ [EvTrsm Device (kernel_stream s) side uplo trans diag
                                m n alpha dA ldda dB lddb]))
  | None => None
  end.

(** The Fortran BLAS solve on host memory; it runs on no stream (queue 0 in
    the log). *)
Definition blasf77_dtrsm (side : magma_side_t) (uplo : magma_uplo_t)
    (trans : magma_trans_t) (diag : magma_diag_t) (m n : Z) (alpha : Q)
    (A lda B ldb : Z) (s : state) : option state :=
  match blas_dtrsm side uplo trans diag m n alpha A lda B ldb (host s) with
  | Some h =>
      Some (mkState (dev s) h (kernel_stream s)
              (log s ++ [EvTrsm Host 0 side uplo trans diag m n alpha A lda B ldb]))
  | None => None
  end.

Definition obind (x : option state) (f : state -> option state) : option state :=
  match x with Some s => f s | None => None end.

(** Lines 43-70: recomputation of the checksums of B before the solve. *)
Definition verify_before (m n B ldb checksumB checksumB_ld vd vd_ld
    chk1 chk1_ld chk2 chk2_ld : Z) (stream1 : magma_queue_t) (DEBUG : bool)
    (s : state) : option state :=
  obind
    (for_step (Z.to_nat m) 0 m n
       (fun i =>
          (magma_dgemv_v1 MagmaTrans n n MAGMA_D_ONE (B + i) ldb vd vd_ld
                          MAGMA_D_ZERO (chk1 + Z.quot i n) chk1_ld ;;
           magma_dgemv_v1 MagmaTrans n n MAGMA_D_ONE (B + i) ldb (vd + 1) vd_ld
                          MAGMA_D_ZERO (chk2 + Z.quot i n) chk2_ld)%cmd)
       (magmablasSetKernelStream stream1 s))
    (fun s1 =>
       Some ((magmablasSetKernelStream stream1 ;;
              when DEBUG
                (print_line "recalculated checksum of B before dtrsm:" ;;
                 DsyrkFT.printMatrix_gpu chk1 chk1_ld (Z.quot m n) n ;;
                 DsyrkFT.printMatrix_gpu chk2 chk2_ld (Z.quot m n) n ;;
                 print_line "updated checksum of B before dtrsm:" ;;
                 DsyrkFT.printMatrix_host checksumB checksumB_ld
                                          (Z.quot m n * 2) n))%cmd s1)).

Definition dtrsmFT (m n A lda B ldb checksumB checksumB_ld vd vd_ld
    chk1 chk1_ld chk2 chk2_ld work work_ld : Z)
    (stream1 stream2 stream3 : magma_queue_t) (FT DEBUG VERIFY : bool)
    (s : state) : option state :=
  let one := 1%Q in
  obind
    (if FT && VERIFY
     then verify_before m n B ldb checksumB checksumB_ld vd vd_ld
                        chk1 chk1_ld chk2 chk2_ld stream1 DEBUG s
     else Some s)
    (fun s1 =>
       obind
         (magma_dtrsm_v1 MagmaRight MagmaLower MagmaTrans MagmaNonUnit
                         m n MAGMA_D_ONE A lda B ldb s1)
         (fun s2 =>
            if FT then
              let m2 := Z.quot m n * 2 in
              let n2 := n in
              blasf77_dtrsm MagmaRight MagmaLower MagmaTrans MagmaNonUnit
                            m2 n2 one work work_ld checksumB checksumB_ld s2
            else Some s2)).

End DtrsmFT.

(* ===================================================================== *)
(** ** magma-1.6.2-online/magmablas/dpotrfFT.cpp *)

Module DpotrfFT.

(** [get]: reads entry (i,j); the bounds test only prints. *)
Definition get (matrix ld n i j : Z) (s : state) : Q * state :=
  (host s (matrix + j * ld + i)%Z,
   when ((ld <? i) || (n <? j)) (print_line "matrix_get_error") s).

Definition magma_set_lapack_numthreads (t : Z) : cmd := emit (EvSetLapackThreads t).

Definition blasf77_daxpy (n : Z) (alpha : Q) (x incx y incy : Z) : cmd :=
  (emit (EvAxpy n alpha x incx y incy) ;;
   on_host (blas_daxpy n alpha x incx y incy))%cmd.

Section WithOracles.

(** [lapackf77_dpotrf] (LAPACK) factorizes in place and yields [info];
    [ErrorDetectAndCorrectHost] (FT.h) is not part of the sources at hand.
    Both are parameters acting on host memory. *)
Variable lapack_dpotrf : magma_uplo_t -> Z -> Z -> Z -> mem -> mem * Z.
Variable detect_host :
  Z -> Z -> Z -> Z -> Z -> Z -> Z -> (Z -> Q) -> Z -> (Z -> Q) -> Z -> mem -> mem.

Definition lapackf77_dpotrf (uplo : magma_uplo_t) (n A lda : Z) (s : state)
  : state * Z :=
  let r := lapack_dpotrf uplo n A lda (host s) in
  (mkState (dev s) (fst r) (kernel_stream s) (log s ++ [EvPotrf uplo n A lda]),
   snd r).

Definition ErrorDetectAndCorrectHost (A lda B m n chksum chksum_ld : Z)
    (chk1 : Z -> Q) (chk1_inc : Z) (chk2 : Z -> Q) (chk2_inc : Z) : cmd :=
  (emit (EvDetectHost A lda chksum chksum_ld) ;;
   on_host (detect_host A lda B m n chksum chksum_ld chk1 chk1_inc chk2 chk2_inc))%cmd.

(** Lines 53-60: checksums of the factor recomputed into the fresh arrays
    [chk1] and [chk2]. *)
Definition blasf77_dtrmv (n A lda : Z) (x : Z -> Q) (s : state)
  : (Z -> Q) * state :=
  (dtrmv_LTN n A lda (host s) x, emit (EvTrmv n A lda) s).

(** Body of the loop of lines 64-72 (first checksum row). *)
Definition update_chksum1 (A lda n chksum chksum_ld : Z) (i : Z) : cmd :=
  fun s =>
    let negone := (-1)%Q in
    let g := get A n n i i s in
    let s := snd g in
    let q := (host s (chksum + i * chksum_ld)%Z / fst g)%Q in
    let s := on_host (fun h => upd h (chksum + i * chksum_ld) q)
               (emit (EvChkScale i (chksum + i * chksum_ld) (fst g)) s) in
    let m := n - i - 1 in
    let alpha := (negone * host s (chksum + i * chksum_ld)%Z)%Q in
    let incx := 1 in
    blasf77_daxpy m alpha (A + i * lda + i + 1) incx
                  (chksum + (i + 1) * chksum_ld) chksum_ld s.

(** Body of the loop of lines 74-82 (second checksum row). *)
Definition update_chksum2 (A lda n chksum chksum_ld : Z) (i : Z) : cmd :=
  fun s =>
    let negone := (-1)%Q in
    let g := get A n n i i s in
    let s := snd g in
    let q := (host s (chksum + i * chksum_ld + 1)%Z / fst g)%Q in
    let s := on_host (fun h => upd h (chksum + i * chksum_ld + 1) q)
               (emit (EvChkScale i (chksum + i * chksum_ld + 1) (fst g)) s) in
    let m := n - i - 1 in
    let alpha := (negone * host s (chksum + i * chksum_ld + 1)%Z)%Q in
    let incx := 1 in
    blasf77_daxpy m alpha (A + i * lda + i + 1) incx
                  (chksum + 1 + (i + 1) * chksum_ld) chksum_ld s.

(** The two loop bodies are one body at the row offsets 0 and 1. *)
Definition update_chksum_at (off : Z) (A lda n chksum chksum_ld : Z) (i : Z) : cmd :=
  fun s =>
    let g := get A n n i i s in
    let s := snd g in
    let q := (host s (chksum + i * chksum_ld + off)%Z / fst g)%Q in
    let s := on_host (fun h => upd h (chksum + i * chksum_ld + off) q)
               (emit (EvChkScale i (chksum + i * chksum_ld + off) (fst g)) s) in
    blasf77_daxpy (n - i - 1) ((-1) * host s (chksum + i * chksum_ld + off)%Z)%Q
                  (A + i * lda + i + 1) 1
                  (chksum + off + (i + 1) * chksum_ld) chksum_ld s.

(** Lines 62-82. *)
Definition update_checksums (A lda n chksum chksum_ld : Z) : cmd :=
  (magma_set_lapack_numthreads 64 ;;
   for_loop n (update_chksum1 A lda n chksum chksum_ld) ;;
   for_loop n (update_chksum2 A lda n chksum chksum_ld))%cmd.

(** Lines 35-90: the work done under [if (FT)] before the final call. *)
Definition checksum_stage (A lda n chksum chksum_ld : Z) (DEBUG : bool)
    (s : state) : (Z -> Q) * (Z -> Q) * state :=
  let s := magma_set_lapack_numthreads 8 s in
  let chk1 : Z -> Q := fun i => 1%Q in
  let chk2 : Z -> Q := fun i => inject_Z (i + 1) in
  let t1 := blasf77_dtrmv n A lda chk1 s in
  let t2 := blasf77_dtrmv n A lda chk2 (snd t1) in
  let s := update_checksums A lda n chksum chksum_ld (snd t2) in
  let s :=
    when DEBUG
      (print_line "recalcuated checksum on CPU after factorization:" ;;
       emit (EvPrintMatrix Host 0 1 1 n) ;;
       emit (EvPrintMatrix Host 0 1 1 n) ;;
       print_line "updated checksum on CPU after factorization:" ;;
       DsyrkFT.printMatrix_host chksum chksum_ld 2 n)%cmd s in
  (fst t1, fst t2, s).

(** The state in which the factorization returns. *)
Definition factor_stage (A n : Z) (s : state) : state * Z :=
  let uplo := MagmaLower in
  lapackf77_dpotrf uplo n A n (magma_set_lapack_numthreads 1 s).

(** The routine; the result carries the value stored through [info].
    The factorization is called with [n] as leading dimension. *)
Definition dpotrfFT (A lda n : Z) (chksum chksum_ld v v_ld : Z)
    (FT DEBUG : bool) (s : state) : state * Z :=
  let r := factor_stage A n s in
  let info := snd r in
  if FT then
    let c := checksum_stage A lda n chksum chksum_ld DEBUG (fst r) in
    let chk1_inc := 1 in
    let chk2_inc := 1 in
    (ErrorDetectAndCorrectHost A lda n n n chksum chksum_ld
       (fst (fst c)) chk1_inc (snd (fst c)) chk2_inc (snd c), info)
  else (fst r, info).

End WithOracles.

End DpotrfFT.




Definition is_potrf (e : event) : bool :=
  match e with EvPotrf _ _ _ _ => true | _ => false end.

Definition is_chk_scale (e : event) : bool :=
  match e with EvChkScale _ _ _ => true | _ => false end.


(** An instance of the factorization for the examples: the unblocked lower
    Cholesky algorithm on rationals, exact whenever every pivot is the square
    of a rational; [info] is the 1-based index of the first non-positive
    pivot, or 0. *)
Definition qsqrt (q : Q) : Q :=
  Qmake (Z.sqrt (Qnum q * Zpos (Qden q))) (Qden q).

Definition potrf_column (n A lda : Z) (j : Z) (st : mem * Z) : mem * Z :=
  let mm := fst st in
  if negb (snd st =? 0) then st
  else
    let d := (mm (addr A lda j j)
              - sumf j (fun l => mm (addr A lda j l) * mm (addr A lda j l)))%Q in
    if Qle_bool d 0 then (mm, j + 1)
    else
      let piv := qsqrt d in
      (write_cells
         ((addr A lda j j, piv)
          :: map (fun t =>
                    (addr A lda (j + 1 + t) j,
                     ((mm (addr A lda (j + 1 + t) j)
                       - sumf j (fun l => mm (addr A lda (j + 1 + t) l)
                                          * mm (addr A lda j l))) / piv)%Q))
                 (range (n - j - 1)))
         mm, 0).

Definition potrf_exact (uplo : magma_uplo_t) (n A lda : Z) (mm : mem) : mem * Z :=
  for_loop n (potrf_column n A lda) (mm, 0).

(** A final detection pass that finds nothing to correct. *)
Definition detect_nothing :
  Z -> Z -> Z -> Z -> Z -> Z -> Z -> (Z -> Q) -> Z -> (Z -> Q) -> Z -> mem -> mem :=
  fun _ _ _ _ _ _ _ _ _ _ _ h => h.

(* ===================================================================== *)
(** ** old_source_code/v2/dsyrkFT.h: the detection and correction kernel *)

(** The kernel computes in binary64.  A cell holds the rational value of
    the double stored in it; every arithmetic operation of the kernel is
    rounded to the nearest binary64 value, ties to even.  Magnitudes beyond
    the binary64 range, infinities and NaN are outside the model. *)

(** floor(log2 a) for a > 0. *)
Definition ilog2 (a : Q) : Z :=
  if Qle_bool 1 a then Z.log2 (Qfloor a) else - Z.log2_up (Qceiling (/ a)).

(** The nearest integer, ties to the even one. *)
Definition round_half_even (y : Q) : Z :=
  let f := Qfloor y in
  let r := (y - inject_Z f)%Q in
  if Qle_bool r (1 # 2)
  then if Qeq_bool r (1 # 2) then (if Z.even f then f else f + 1) else f
  else f + 1.

(** The binary64 value nearest to [x]: 53 significant bits, the unit in the
    last place never below 2^-1074.  The result is a fraction in lowest
    terms. *)
Definition fl64 (x : Q) : Q :=
  if Qeq_bool x 0 then 0%Q
  else
    let a := Qabs x in
    let q := Z.max (ilog2 a - 52) (-1074) in
    let v := (inject_Z (round_half_even (a / Qpower 2 q)) * Qpower 2 q)%Q in
    Qred (if Qle_bool 0 x then v else (- v)%Q).

(** The largest finite binary64 value, (2^53 - 1) * 2^971. *)
Definition DBL_MAX : Q := inject_Z ((2 ^ 53 - 1) * 2 ^ 971).

(** [x] is a finite binary64 value. *)
Definition is_binary64 (x : Q) : bool :=
  Qeq_bool (fl64 x) x && Qle_bool (Qabs x) DBL_MAX.

Module Detect.

(** The literal [0.1] of the kernel: the binary64 value nearest to 1/10. *)
Definition tol : Q := 3602879701896397 # 36028797018963968.

(** C [round]: to the nearest integer, halves away from zero. *)
Definition c_round (x : Q) : Z :=
  if Qle_bool 0 x then Qfloor (x + (1 # 2)) else Qceiling (x - (1 # 2)).

(** The conversion [(int)] of a double on the device saturates at the
    bounds of a 32-bit [int]. *)
Definition c_int (z : Z) : Z := Z.max (-2147483648) (Z.min 2147483647 z).

(** [a > b] on doubles. *)
Definition Qgt_bool (a b : Q) : bool := negb (Qle_bool a b).

(** One thread of [detectAndCorrectForSyrk]; [threadIdx_x] selects the
    column.  The log records the division and the store it performs. *)
Definition detectAndCorrectForSyrk (C ldc chksumC1 incC1 chksumC2 incC2
    chkC1 incC1_2 chkC2 incC2_2 : Z) (threadIdx_x : Z) : cmd :=
  fun s =>
    let col := threadIdx_x in
    let diff := Qabs (fl64 (dev s (chkC1 + col * incC1_2)%Z
                            - dev s (chksumC1 + col * incC1)%Z)) in
    if Qgt_bool diff tol then
      let diff2 := Qabs (fl64 (dev s (chkC2 + col * incC2_2)%Z
                               - dev s (chksumC2 + col * incC2)%Z)) in
      let row := c_int (c_round (fl64 (diff2 / diff))) - 1 in
      let delta := fl64 (dev s (chksumC1 + col * incC1)%Z
                         - dev s (chkC1 + col * incC1_2)%Z) in
      (emit (EvFDiv diff2 diff) ;;
       emit (EvPatch (C + row + col * ldc) delta) ;;
       on_dev (fun mm => upd mm (C + row + col * ldc)
                             (fl64 (mm (C + row + col * ldc)%Z + delta))))%cmd s
    else s.

(** The kernel of dtrsmFT.cpp (lines 6-23, kept there as a comment):
    the same test per block of [n] rows, [blockIdx_x] selecting the block. *)
Definition detectAndCorrectForTrsm (B ldb n chksumB1 incB1 chksumB2 incB2
    chkB1 incB1_2 chkB2 incB2_2 : Z) (blockIdx_x threadIdx_x : Z) : cmd :=
  fun s =>
    let block := blockIdx_x in
    let col := threadIdx_x in
    let diff := Qabs (fl64 (dev s (chkB1 + block + col * incB1_2)%Z
                            - dev s (chksumB1 + block + col * incB1)%Z)) in
    if Qgt_bool diff tol then
      let diff2 := Qabs (fl64 (dev s (chkB2 + block + col * incB2_2)%Z
                               - dev s (chksumB2 + block + col * incB2)%Z)) in
      let row := c_int (c_round (fl64 (diff2 / diff))) - 1 in
      let delta := fl64 (dev s (chksumB1 + block + col * incB1)%Z
                         - dev s (chkB1 + block + col * incB1_2)%Z) in
      (emit (EvFDiv diff2 diff) ;;
       emit (EvPatch (B + n * block + row + col * ldb) delta) ;;
       on_dev (fun mm => upd mm (B + n * block + row + col * ldb)
                             (fl64 (mm (B + n * block + row + col * ldb)%Z
                                    + delta))))%cmd s
    else s.

(** A launch [<<<dim3(1), dim3(n)>>>]: one block of [n] threads, run here in
    the order of their index. *)
Definition launch_1d (n : Z) (kernel : Z -> cmd) : cmd := for_loop n kernel.

(** The corrections a run has applied, read off the log. *)
Definition patches (l : list event) : list (Z * Q) :=
  flat_map (fun e => match e with EvPatch a d => [(a, d)] | _ => [] end) l.

Definition divisions (l : list event) : list (Q * Q) :=
  flat_map (fun e => match e with EvFDiv a b => [(a, b)] | _ => [] end) l.

(** The quantities the kernel derives for column [col], as functions of the
    memory it reads: the discrepancies d1 and d2 (recomputed minus stored
    checksum, as the kernel computes them), the test [diff > 0.1], the
    located row and the store. *)
Section ColumnQuantities.

Variables C ldc chksumC1 incC1 chksumC2 incC2 chkC1 incC1_2 chkC2 incC2_2 : Z.

Definition d1 (mm : mem) (col : Z) : Q :=
  fl64 (mm (chkC1 + col * incC1_2)%Z - mm (chksumC1 + col * incC1)%Z).

Definition d2 (mm : mem) (col : Z) : Q :=
  fl64 (mm (chkC2 + col * incC2_2)%Z - mm (chksumC2 + col * incC2)%Z).

Definition flagged (mm : mem) (col : Z) : bool := Qgt_bool (Qabs (d1 mm col)) tol.

Definition located_row (mm : mem) (col : Z) : Z :=
  c_int (c_round (fl64 (Qabs (d2 mm col) / Qabs (d1 mm col)))) - 1.

Definition column_patch (mm : mem) (col : Z) : Z * Q :=
  (C + located_row mm col + col * ldc,
   fl64 (mm (chksumC1 + col * incC1)%Z - mm (chkC1 + col * incC1_2)%Z)).

(** The cells holding the stored and the recomputed checksums of the first
    [n] columns. *)
Definition checksum_cells (n : Z) : list Z :=
  vec_addrs chksumC1 incC1 n ++ vec_addrs chksumC2 incC2 n
  ++ vec_addrs chkC1 incC1_2 n ++ vec_addrs chkC2 incC2_2 n.

End ColumnQuantities.

(** [*(C + ...) += delta]. *)
Definition apply_patch (mm : mem) (p : Z * Q) : mem :=
  upd mm (fst p) (fl64 (mm (fst p) + snd p)).

Definition apply_patches (l : list (Z * Q)) (mm : mem) : mem :=
  fold_left apply_patch l mm.

End Detect.

(* ===================================================================== *)
(** ** old_source_code/v2/dsyrkFT.h: the protected rank-k update *)

Module DsyrkFTv2.

(** A direct [cublasDgemm] call on [handle]. *)
Definition cublasDgemm_on (handle : magma_queue_t) (tA tB : magma_trans_t)
    (m n k : Z) (alpha : Q) (A lda B ldb : Z) (beta : Q) (C ldc : Z) : cmd :=
  (emit (EvGemm Device handle tA tB m n k alpha A lda B ldb beta C ldc) ;;
   on_dev (cublasDgemm tA tB m n k alpha A lda B ldb beta C ldc))%cmd.

(** [printMatrix_gpu] of this version takes the pitch in bytes. *)
Definition dsyrkFT (handle : magma_queue_t) (n m A lda C ldc : Z)
    (checksumA checksumA_ld checksumC checksumC_ld : Z)
    (vd vd_ld chk chk_ld : Z) (FT DEBUG : bool) : cmd :=
  let negone := (-1)%Q in
  let one := 1%Q in
  let zero := 0%Q in
  (cublasDgemm_on handle MagmaNoTrans MagmaTrans n n m negone A lda A lda one C ldc ;;
   when FT
     (cublasDgemm_on handle MagmaTrans MagmaNoTrans 2 n n one vd vd_ld C ldc
                     zero chk chk_ld ;;
      cublasDgemm_on handle MagmaNoTrans MagmaTrans 2 n m negone
                     checksumA checksumA_ld A lda one checksumC checksumC_ld ;;
      when DEBUG
        (print_line "recalculated checksum of C after dsyrk:" ;;
         DsyrkFT.printMatrix_gpu chk (chk_ld * 8) n n ;;
         print_line "updated checksum of C after dsyrk:" ;;
         DsyrkFT.printMatrix_gpu checksumC (checksumC_ld * 8) 2 n)))%cmd.

End DsyrkFTv2.

(* ===================================================================== *)
(** ** Checksum encoding *)

(** Modelled from the spec: the checksum encoder is performed by the callers
    and is not part of the sources at hand.  Section 4.1 defines it as the
    weighted sums checksum[c,j] = sum_i v_c[i] * data[i,j].  The weights are a
    matrix [W] with one row per checksum row, so that one definition covers
    any blocking of the rows; [spec_weights] is the pair (all ones, 1..nb)
    repeated for each block of [nb] rows. *)
Definition Encode_col (W : Z -> Z -> Q) (rows : Z) (mm : mem) (p ld : Z) (r j : Z) : Q :=
  sumf rows (fun i => W r i * mm (addr p ld i j))%Q.


(** Modelled from the spec: v1 = (1,...,1) and v2 = (1,2,...,nb) on the block
    of [nb] rows that checksum row [r] belongs to, two checksum rows per block. *)
Definition spec_weights (nb : Z) (r i : Z) : Q :=
  if Z.quot i nb =? Z.quot r 2 then
    if Z.rem r 2 =? 0 then 1%Q else inject_Z (Z.rem i nb + 1)
  else 0%Q.

(* ===================================================================== *)
(** ** Shapes *)

(** The cells read through [op_get t] for an op(X) of size r x c. *)
Definition op_view (t : magma_trans_t) (p ld r c : Z) : list Z :=
  if is_notrans t then view_addrs p ld r c else view_addrs p ld c r.



(** Two memories hold the same values on the cells of [l]. *)
Definition agree_on (l : list Z) (m1 m2 : mem) : Prop :=
  forall a, In a l -> m1 a = m2 a.

(** [Encode_col] and [Encode_row] for an operand that enters the product
    through op(): the checksum of op(X), stored with the same op(). *)
Definition Encode_col_op (W : Z -> Z -> Q) (t : magma_trans_t) (rows : Z)
    (mm : mem) (p ld : Z) (r j : Z) : Q :=
  sumf rows (fun i => W r i * op_get t mm p ld i j)%Q.


(** The [R] x [cols] shadow at [chk] holds the column checksums of the
    [rows] x [cols] operand op(X) at [p]. *)
Definition col_encoded (W : Z -> Z -> Q) (t : magma_trans_t) (mm : mem)
    (chk ldchk p ld R rows cols : Z) : bool :=
  forallb (fun rj => Qeq_bool (op_get t mm chk ldchk (fst rj) (snd rj))
                              (Encode_col_op W t rows mm p ld (fst rj) (snd rj)))
          (grid R cols).


(* ===================================================================== *)
(** ** Concrete memories and instances for the examples *)

(** The memory holding the listed cells and zero elsewhere. *)
Definition mem_of (cells : list (Z * Q)) : mem := write_cells cells (fun _ => 0%Q).

(** A memory holding [l] contiguously from address [p]. *)
Definition cells_at (p : Z) (l : list Q) : list (Z * Q) :=
  combine (map (fun t => p + Z.of_nat t) (seq 0 (List.length l))) l.

Definition initial (d h : mem) : state := mkState d h 0 [].

(** A verification pass that finds nothing to correct: it recomputes the
    checksums of one block into the scratch buffer [chk_r] with the weights
    at [chk_v] and stores nothing else. *)
Definition recompute_colchk : AbftDgemm.checker_t :=
  fun A lda m n nb chk ldchk chk_r ldchk_r chk_v ld_chk_v DEBUG q mm =>
    cublasDgemm MagmaTrans MagmaNoTrans 2 n m 1 chk_v ld_chk_v A lda 0
                chk_r ldchk_r mm.

Definition recompute_rowchk : AbftDgemm.checker_t :=
  fun A lda m n nb chk ldchk chk_r ldchk_r chk_v ld_chk_v DEBUG q mm =>
    cublasDgemm MagmaNoTrans MagmaNoTrans m 2 n 1 A lda chk_v ld_chk_v 0
                chk_r ldchk_r mm.

(** *** A 2 x 1 by 1 x 2 product with one block of two rows *)

Definition gemm_example_dev : mem :=
  mem_of (cells_at 0 [1; 2]                 (* A, 2 x 1 *)
          ++ cells_at 10 [3; 4]             (* B, 1 x 2 *)
          ++ cells_at 20 [1; 3; 2; 4]       (* C, 2 x 2 *)
          ++ cells_at 30 [3; 5]             (* column checksums of A *)
          ++ cells_at 50 [7; 11]            (* row checksums of B *)
          ++ cells_at 70 [4; 7; 6; 10]      (* column checksums of C *)
          ++ cells_at 80 [3; 7; 5; 11]      (* row checksums of C *)
          ++ cells_at 200 [1; 1; 1; 2])%Q.  (* weights, 2 x 2 *)


Definition gemm_example_run (FT CHECK_BEFORE CHECK_AFTER : bool) : state :=
  AbftDgemm.abft_dgemm recompute_colchk recompute_rowchk
    MagmaNoTrans MagmaNoTrans 2 2 1 2%Q 0 2 10 1 1%Q 20 2 2
    30 2 40 2 130 2 140 2
    60 2 50 1 160 2 150 2
    70 2 80 2 170 2 180 2
    200 2 FT false CHECK_BEFORE CHECK_AFTER 1 2
    (initial gemm_example_dev (fun _ => 0%Q)).

(** *** The 4 x 4 scenario of the specification

    The identity matrix at address 0 (leading dimension 4), its checksums for
    the weights (1,1,1,1) and (1,2,3,4) stored at 100 and 110, and the
    checksums recomputed at 120 and 130 after [e1] was added to entry (2,1)
    and [e2] to entry (0,3). *)
Definition identity4 (i j : Z) : Q := if i =? j then 1%Q else 0%Q.

Definition scenario_dev (e1 e2 : Q) : mem :=
  mem_of (cells_at 0 [1; 0; 0; 0;  0; 1; 0 + e1; 0;  0; 0; 1; 0;  0 + e2; 0; 0; 1]
          ++ cells_at 100 [1; 1; 1; 1]
          ++ cells_at 110 [1; 2; 3; 4]
          ++ cells_at 120 [1; 1 + e1; 1; 1 + e2]
          ++ cells_at 130 [1; 2 + 3 * e1; 3; 4 + 1 * e2])%Q.

Definition scenario_launch (e1 e2 : Q) : state :=
  Detect.launch_1d 4 (Detect.detectAndCorrectForSyrk 0 4 100 1 110 1 120 1 130 1)
                   (initial (scenario_dev e1 e2) (fun _ => 0%Q)).

(** *** An entry 0.1 overwritten by 1.1

    The doubles nearest to 1/10 and to 11/10. *)
Definition double_0_1 : Q := 3602879701896397 # 36028797018963968.
Definition double_1_1 : Q := 2476979795053773 # 2251799813685248.

(** The 4 x 4 matrix whose only nonzero entry is 0.1, at (1,1). *)
Definition tenth4 (i j : Z) : Q :=
  if (i =? 1) && (j =? 1) then double_0_1 else 0%Q.

(** That matrix at address 0 with entry (1,1) overwritten by 1.1; the
    checksums of [tenth4] stored at 100 and 110 and the checksums of the data
    recomputed at 120 and 130.  With the weight 2 of row 1 every checksum is
    a binary64 value. *)
Definition overwritten_dev : mem :=
  mem_of (cells_at 0 [0; 0; 0; 0;  0; double_1_1; 0; 0;  0; 0; 0; 0;  0; 0; 0; 0]
          ++ cells_at 100 [0; double_0_1; 0; 0]
          ++ cells_at 110 [0; 2 * double_0_1; 0; 0]
          ++ cells_at 120 [0; double_1_1; 0; 0]
          ++ cells_at 130 [0; 2 * double_1_1; 0; 0])%Q.

Definition overwritten_launch : state :=
  Detect.launch_1d 4 (Detect.detectAndCorrectForSyrk 0 4 100 1 110 1 120 1 130 1)
                   (initial overwritten_dev (fun _ => 0%Q)).

(** *** A 2 x 2 solve

    Device: the factor A = [2 0; 1 1] at 0 and B = [2 3; 4 5] at 10, scratch
    at 20 and 30, the weights at 40.  Host: a factor [wk] at 0 and the
    checksums of B for the weights (1,1) and (1,2) at 10. *)
Definition trsm_example (wk : list Q) : state :=
  initial (mem_of (cells_at 0 [2; 1; 0; 1] ++ cells_at 10 [2; 4; 3; 5]
                   ++ cells_at 40 [1; 1; 1; 2])%Q)
          (mem_of (cells_at 0 wk ++ cells_at 10 [6; 10; 8; 13])%Q).

Definition trsm_example_run (wk : list Q) (VERIFY : bool) : option state :=
  DtrsmFT.dtrsmFT 2 2 0 2 10 2 10 2 40 2 20 1 30 1 0 2 1 2 3 true false VERIFY
                  (trsm_example wk).

(** *** A 2 x 2 factorization

    Host: A = [4 2; 2 5] at 0 with leading dimension [lda], and its two
    checksum rows (6, 7) and (8, 12) interleaved at 10. *)
Definition potrf_example : state :=
  initial (fun _ => 0%Q)
          (mem_of (cells_at 0 [4; 2; 2; 5] ++ cells_at 10 [6; 8; 7; 12])%Q).

Definition potrf_example_run : state * Z :=
  DpotrfFT.dpotrfFT potrf_exact detect_nothing 0 2 2 10 2 20 2 true false
                    potrf_example.

(** *** A rank-1 update of a 2 x 2 matrix

    Device: A = (1, 2)^T at 0, C = [5 7; 6 8] at 10, the checksums (3, 5) of A
    at 20, those of C at 30, the weights at 40, scratch at 50 and 60. *)
Definition syrk_example : state :=
  initial (mem_of (cells_at 0 [1; 2] ++ cells_at 10 [5; 6; 7; 8]
                   ++ cells_at 20 [3; 5] ++ cells_at 30 [11; 17; 15; 23]
                   ++ cells_at 40 [1; 1; 1; 2])%Q)
          (fun _ => 0%Q).

Definition syrk_example_run (uplo : magma_uplo_t) (trans : magma_trans_t)
    (alpha beta : Q) (FT VERIFY : bool) : state :=
  DsyrkFT.dsyrkFT uplo trans 2 1 alpha 0 2 beta 10 2 20 2 30 2 40 2 50 1 60 1
                  FT false VERIFY (fun i => i) syrk_example.


(** The rank-k update of old_source_code/v2/dsyrkFT.h on the operands of
    [syrk_example], with the recomputed checksums at 50 (leading dimension 2).
    In that version the weights are the columns of an n x 2 matrix. *)
Definition syrk_v2_example_run : state :=
  DsyrkFTv2.dsyrkFT 0 2 1 0 2 10 2 20 2 30 2 40 2 50 2 true false syrk_example.

(** Entry [t] of the row vector y * L^T, for the lower triangle of [L]. *)
Definition lower_mult (L : Z -> Z -> Q) (n : Z) (y : Z -> Q) (t : Z) : Q :=
  sumf n (fun c => if c <=? t then y c * L t c else 0)%Q.

(** The 4 x 4 identity with consistent checksums, except that the first
    recomputed checksum of column 1 (cell 121) reads 2 instead of 1 while the
    second one agrees with the stored value. *)
Definition first_checksum_fault_dev : mem :=
  mem_of (cells_at 0 [1; 0; 0; 0;  0; 1; 0; 0;  0; 0; 1; 0;  0; 0; 0; 1]
          ++ cells_at 100 [1; 1; 1; 1]
          ++ cells_at 110 [1; 2; 3; 4]
          ++ cells_at 120 [1; 2; 1; 1]
          ++ cells_at 130 [1; 2; 3; 4])%Q.

(** A second launch of the kernel on the state the first one leaves. *)
Definition scenario_relaunch (e1 e2 : Q) : state :=
  Detect.launch_1d 4 (Detect.detectAndCorrectForSyrk 0 4 100 1 110 1 120 1 130 1)
                   (scenario_launch e1 e2).

(** The same operands with one row only (m = 1 < nb = 2), all stages on. *)
Definition gemm_short_run : state :=
  AbftDgemm.abft_dgemm recompute_colchk recompute_rowchk
    MagmaNoTrans MagmaNoTrans 1 2 1 2%Q 0 2 10 1 1%Q 20 2 2
    30 2 40 2 130 2 140 2
    60 2 50 1 160 2 150 2
    70 2 80 2 170 2 180 2
    200 2 true false true true 1 2
    (initial gemm_example_dev (fun _ => 0%Q)).

(** [syrk_example] with entry (1,0) of C corrupted from 6 to 6 + 3, the
    checksums being those of the uncorrupted C. *)
Definition syrk_corrupted_example : state :=
  initial (mem_of (cells_at 0 [1; 2] ++ cells_at 10 [5; 6 + 3; 7; 8]
                   ++ cells_at 20 [3; 5] ++ cells_at 30 [11; 17; 15; 23]
                   ++ cells_at 40 [1; 1; 1; 2])%Q)
          (fun _ => 0%Q).

Definition syrk_v2_corrupted_run : state :=
  DsyrkFTv2.dsyrkFT 0 2 1 0 2 10 2 20 2 30 2 40 2 50 2 true false
                    syrk_corrupted_example.

(* ===================================================================== *)
(** * Properties *)

(** ** Indices, sums and loops *)

Lemma in_range (n i : Z) : In i (range n) <-> 0 <= i < n.
Proof.
  unfold range. rewrite in_map_iff. split.
  - intros [x [<- Hx]]. apply in_seq in Hx. lia.
  - intros H. exists (Z.to_nat i). split; [lia|]. apply in_seq. lia.
Qed.

Lemma in_grid (rows cols i j : Z) :
  In (i, j) (grid rows cols) <-> 0 <= i < rows /\ 0 <= j < cols.
Proof.
  unfold grid. rewrite in_flat_map. split.
  - intros [c [Hc Hi]]. apply in_map_iff in Hi. destruct Hi as [r [E Hr]].
    inversion E; subst. apply in_range in Hc. apply in_range in Hr. lia.
  - intros [Hi Hj]. exists j. split; [apply in_range; lia|].
    apply in_map_iff. exists i. split; [reflexivity|apply in_range; lia].
Qed.

Lemma in_view_addrs (p ld rows cols a : Z) :
  In a (view_addrs p ld rows cols) <->
  exists i j, 0 <= i < rows /\ 0 <= j < cols /\ a = addr p ld i j.
Proof.
  unfold view_addrs. rewrite in_map_iff. split.
  - intros [[i j] [E H]]. apply in_grid in H. exists i, j. simpl in E. intuition.
  - intros [i [j [Hi [Hj E]]]]. exists (i, j). split; [symmetry; exact E|].
    apply in_grid. lia.
Qed.

Lemma in_vec_addrs (p inc n a : Z) :
  In a (vec_addrs p inc n) <-> exists t, 0 <= t < n /\ a = p + t * inc.
Proof.
  unfold vec_addrs. rewrite in_map_iff. split.
  - intros [t [E H]]. apply in_range in H. exists t. intuition.
  - intros [t [H E]]. exists t. split; [symmetry; exact E|apply in_range; lia].
Qed.

Lemma memb_In (a : Z) (l : list Z) : memb a l = true <-> In a l.
Proof.
  unfold memb. rewrite existsb_exists. split.
  - intros [x [Hx E]]. apply Z.eqb_eq in E. subst. exact Hx.
  - intros H. exists a. split; [exact H|apply Z.eqb_refl].
Qed.

Lemma disjointb_spec (l1 l2 : list Z) :
  disjointb l1 l2 = true -> forall a, In a l1 -> ~ In a l2.
Proof.
  unfold disjointb. rewrite forallb_forall. intros H a Ha Hb.
  specialize (H a Ha). apply memb_In in Hb. rewrite Hb in H. discriminate.
Qed.

Lemma disjointb_spec_r (l1 l2 : list Z) :
  disjointb l1 l2 = true -> forall a, In a l2 -> ~ In a l1.
Proof. intros H a Hb Ha. exact (disjointb_spec _ _ H a Ha Hb). Qed.

Lemma disjointb_app_r (l l1 l2 : list Z) :
  disjointb l (l1 ++ l2) = true <-> disjointb l l1 = true /\ disjointb l l2 = true.
Proof.
  unfold disjointb. rewrite !forallb_forall. split.
  - intros H. split; intros a Ha; specialize (H a Ha);
      unfold memb in *; rewrite existsb_app in H;
      apply negb_true_iff in H; apply orb_false_iff in H;
      apply negb_true_iff; tauto.
  - intros [H1 H2] a Ha. unfold memb in *. rewrite existsb_app.
    specialize (H1 a Ha). specialize (H2 a Ha).
    apply negb_true_iff in H1, H2. rewrite H1, H2. reflexivity.
Qed.

Lemma sum_upto_ext_eq (n : nat) (f g : Z -> Q) :
  (forall i, 0 <= i < Z.of_nat n -> f i = g i) -> sum_upto n f = sum_upto n g.
Proof.
  induction n as [|n IH]; intros H; simpl; [reflexivity|].
  rewrite IH by (intros; apply H; lia). rewrite H by lia. reflexivity.
Qed.

Lemma sum_upto_ext (n : nat) (f g : Z -> Q) :
  (forall i, 0 <= i < Z.of_nat n -> (f i == g i)%Q) -> (sum_upto n f == sum_upto n g)%Q.
Proof.
  induction n as [|n IH]; intros H; simpl; [reflexivity|].
  rewrite IH by (intros; apply H; lia). rewrite H by lia. reflexivity.
Qed.

Lemma sum_upto_plus (n : nat) (f g : Z -> Q) :
  (sum_upto n (fun i => f i + g i) == sum_upto n f + sum_upto n g)%Q.
Proof. induction n as [|n IH]; simpl; [reflexivity|rewrite IH; ring]. Qed.

Lemma sum_upto_scal (n : nat) (c : Q) (f : Z -> Q) :
  (sum_upto n (fun i => c * f i) == c * sum_upto n f)%Q.
Proof. induction n as [|n IH]; simpl; [ring|rewrite IH; ring]. Qed.

Lemma sum_upto_zero (n : nat) (f : Z -> Q) :
  (forall i, 0 <= i < Z.of_nat n -> (f i == 0)%Q) -> (sum_upto n f == 0)%Q.
Proof.
  induction n as [|n IH]; intros H; simpl; [reflexivity|].
  rewrite IH by (intros; apply H; lia). rewrite H by lia. ring.
Qed.

(** Exchange of two finite sums. *)
Lemma sum_upto_swap (n m : nat) (f : Z -> Z -> Q) :
  (sum_upto n (fun i => sum_upto m (fun j => f i j)) ==
   sum_upto m (fun j => sum_upto n (fun i => f i j)))%Q.
Proof.
  induction n as [|n IH]; simpl.
  - symmetry. apply sum_upto_zero. intros; reflexivity.
  - rewrite IH. rewrite sum_upto_plus. reflexivity.
Qed.

(** A sum whose terms vanish except at index [r]. *)
Lemma sum_upto_single (n : nat) (r : Z) (f : Z -> Q) :
  0 <= r < Z.of_nat n ->
  (forall i, 0 <= i < Z.of_nat n -> i <> r -> (f i == 0)%Q) ->
  (sum_upto n f == f r)%Q.
Proof.
  induction n as [|n IH]; intros Hr H; [lia|]. simpl.
  destruct (Z.eq_dec r (Z.of_nat n)) as [->|Hne].
  - rewrite sum_upto_zero by (intros; apply H; lia). ring.
  - rewrite IH by (try lia; intros; apply H; lia). rewrite (H (Z.of_nat n)) by lia. ring.
Qed.

Lemma sumf_ext_eq (n : Z) (f g : Z -> Q) :
  (forall i, 0 <= i < n -> f i = g i) -> sumf n f = sumf n g.
Proof. intros H. apply sum_upto_ext_eq. intros; apply H; lia. Qed.

Lemma sumf_ext (n : Z) (f g : Z -> Q) :
  (forall i, 0 <= i < n -> (f i == g i)%Q) -> (sumf n f == sumf n g)%Q.
Proof. intros H. apply sum_upto_ext. intros; apply H; lia. Qed.

Lemma sumf_plus (n : Z) (f g : Z -> Q) :
  (sumf n (fun i => f i + g i) == sumf n f + sumf n g)%Q.
Proof. apply sum_upto_plus. Qed.

Lemma sumf_scal (n : Z) (c : Q) (f : Z -> Q) :
  (sumf n (fun i => c * f i) == c * sumf n f)%Q.
Proof. apply sum_upto_scal. Qed.

Lemma sumf_swap (n m : Z) (f : Z -> Z -> Q) :
  (sumf n (fun i => sumf m (fun j => f i j)) ==
   sumf m (fun j => sumf n (fun i => f i j)))%Q.
Proof. apply sum_upto_swap. Qed.

Lemma sumf_single (n r : Z) (f : Z -> Q) :
  0 <= r < n -> (forall i, 0 <= i < n -> i <> r -> (f i == 0)%Q) -> (sumf n f == f r)%Q.
Proof. intros Hr H. apply sum_upto_single; [lia|]. intros; apply H; lia. Qed.

Lemma for_loop_succ {S : Type} (n : Z) (body : Z -> S -> S) (s : S) :
  0 <= n -> for_loop (n + 1) body s = body n (for_loop n body s).
Proof.
  intros H. unfold for_loop.
  replace (Z.to_nat (n + 1)) with (Datatypes.S (Z.to_nat n)) by lia.
  simpl. rewrite Z2Nat.id by lia. reflexivity.
Qed.

Lemma for_loop_zero {S : Type} (n : Z) (body : Z -> S -> S) (s : S) :
  n <= 0 -> for_loop n body s = s.
Proof.
  intros H. unfold for_loop. replace (Z.to_nat n) with O by lia. reflexivity.
Qed.

(** Induction principle for counted loops. *)
Lemma for_loop_ind {S : Type} (P : Z -> S -> Prop) (n : Z)
    (body : Z -> S -> S) (s : S) :
  P 0 s ->
  (forall i x, 0 <= i < n -> P i x -> P (i + 1) (body i x)) ->
  P (Z.max 0 n) (for_loop n body s).
Proof.
  intros H0 Hstep. unfold for_loop.
  assert (G : forall k, (k <= Z.to_nat n)%nat -> P (Z.of_nat k) (for_upto k body s)).
  { induction k as [|k IH]; intros Hk; [exact H0|].
    replace (Z.of_nat (Datatypes.S k)) with (Z.of_nat k + 1) by lia.
    cbn [for_upto]. apply Hstep; [lia|apply IH; lia]. }
  replace (Z.max 0 n) with (Z.of_nat (Z.to_nat n)) by lia.
  apply G. lia.
Qed.

(** ** Memory updates *)

Lemma upd_same (mm : mem) (a : Z) (v : Q) : upd mm a v a = v.
Proof. unfold upd. rewrite Z.eqb_refl. reflexivity. Qed.

Lemma upd_other (mm : mem) (a b : Z) (v : Q) : b <> a -> upd mm a v b = mm b.
Proof. intros H. unfold upd. apply Z.eqb_neq in H. rewrite H. reflexivity. Qed.

Lemma write_cells_frame (cells : list (Z * Q)) (mm : mem) (a : Z) :
  ~ In a (map fst cells) -> write_cells cells mm a = mm a.
Proof.
  revert mm. induction cells as [|c cs IH]; intros mm H; simpl; [reflexivity|].
  simpl in H. rewrite IH by tauto. apply upd_other. intros E. apply H. left. congruence.
Qed.

Lemma write_cells_get (cells : list (Z * Q)) (mm : mem) (a : Z) (v : Q) :
  In (a, v) cells ->
  (forall c, In c cells -> fst c = a -> snd c = v) ->
  write_cells cells mm a = v.
Proof.
  revert mm. induction cells as [|c cs IH]; intros mm Hin Huniq; [contradiction|].
  simpl. destruct (in_dec Z.eq_dec a (map fst cs)) as [Hk|Hk].
  - apply IH.
    + apply in_map_iff in Hk. destruct Hk as [[a' v'] [E Hc]]. simpl in E. subst a'.
      assert (v' = v) by (apply (Huniq (a, v')); [right; exact Hc|reflexivity]).
      subst. exact Hc.
    + intros c' Hc'. apply Huniq. right. exact Hc'.
  - rewrite write_cells_frame by exact Hk.
    destruct Hin as [->|Hin].
    + simpl. apply upd_same.
    + exfalso. apply Hk. apply in_map_iff. exists (a, v). split; [reflexivity|exact Hin].
Qed.

(** Column-major addressing is injective on a view whose leading dimension
    covers its rows. *)
Lemma addr_inj (p ld rows i j i' j' : Z) :
  rows <= ld -> 0 <= i < rows -> 0 <= i' < rows ->
  addr p ld i j = addr p ld i' j' -> i = i' /\ j = j'.
Proof.
  unfold addr. intros Hld Hi Hi' E.
  assert (Hj : j = j') by nia. subst. split; [lia|reflexivity].
Qed.

Lemma write_view_get (p ld rows cols : Z) (val : Z -> Z -> Q) (mm : mem) (i j : Z) :
  rows <= ld -> 0 <= i < rows -> 0 <= j < cols ->
  write_cells (map (fun ij => (addr p ld (fst ij) (snd ij), val (fst ij) (snd ij)))
                   (grid rows cols)) mm (addr p ld i j) = val i j.
Proof.
  intros Hld Hi Hj. apply write_cells_get.
  - apply in_map_iff. exists (i, j). split; [reflexivity|apply in_grid; lia].
  - intros c Hc E. apply in_map_iff in Hc. destruct Hc as [[i' j'] [<- Hg]].
    apply in_grid in Hg. simpl in *.
    destruct (addr_inj p ld rows i' j' i j Hld) as [-> ->]; try lia; try exact E.
    reflexivity.
Qed.

Lemma write_view_frame (p ld rows cols : Z) (val : Z -> Z -> Q) (mm : mem) (a : Z) :
  ~ In a (view_addrs p ld rows cols) ->
  write_cells (map (fun ij => (addr p ld (fst ij) (snd ij), val (fst ij) (snd ij)))
                   (grid rows cols)) mm a = mm a.
Proof.
  intros H. apply write_cells_frame. rewrite map_map. exact H.
Qed.

(** ** The matrix product *)

Lemma cublasDgemm_frame tA tB m n k alpha A lda B ldb beta C ldc (mm : mem) a :
  ~ In a (view_addrs C ldc m n) ->
  cublasDgemm tA tB m n k alpha A lda B ldb beta C ldc mm a = mm a.
Proof.
  intros H. unfold cublasDgemm.
  apply (write_view_frame C ldc m n
           (gemm_entry tA tB k alpha A lda B ldb beta C ldc mm)). exact H.
Qed.

Lemma cublasDgemm_get tA tB m n k alpha A lda B ldb beta C ldc (mm : mem) i j :
  m <= ldc -> 0 <= i < m -> 0 <= j < n ->
  cublasDgemm tA tB m n k alpha A lda B ldb beta C ldc mm (addr C ldc i j)
  = gemm_entry tA tB k alpha A lda B ldb beta C ldc mm i j.
Proof.
  intros. unfold cublasDgemm.
  apply (write_view_get C ldc m n
           (gemm_entry tA tB k alpha A lda B ldb beta C ldc mm)); assumption.
Qed.

Lemma addr_in_view p ld rows cols i j :
  0 <= i < rows -> 0 <= j < cols -> In (addr p ld i j) (view_addrs p ld rows cols).
Proof. intros. apply in_view_addrs. exists i, j. auto. Qed.

Lemma op_get_ext t (m1 m2 : mem) p ld r c i j :
  (forall a, In a (op_view t p ld r c) -> m1 a = m2 a) ->
  0 <= i < r -> 0 <= j < c ->
  op_get t m1 p ld i j = op_get t m2 p ld i j.
Proof.
  intros H Hi Hj. unfold op_get, op_view in *.
  destruct (is_notrans t); apply H; apply addr_in_view; assumption.
Qed.

Lemma gemm_entry_ext tA tB m n k alpha A lda B ldb beta C ldc (m1 m2 : mem) i j :
  (forall a, In a (op_view tA A lda m k) -> m1 a = m2 a) ->
  (forall a, In a (op_view tB B ldb k n) -> m1 a = m2 a) ->
  (forall a, In a (view_addrs C ldc m n) -> m1 a = m2 a) ->
  0 <= i < m -> 0 <= j < n ->
  gemm_entry tA tB k alpha A lda B ldb beta C ldc m1 i j
  = gemm_entry tA tB k alpha A lda B ldb beta C ldc m2 i j.
Proof.
  intros HA HB HC Hi Hj. unfold gemm_entry.
  rewrite (HC (addr C ldc i j)) by (apply addr_in_view; assumption).
  f_equal. f_equal. apply sumf_ext_eq. intros l Hl.
  rewrite (op_get_ext tA m1 m2 A lda m k i l HA Hi Hl).
  rewrite (op_get_ext tB m1 m2 B ldb k n l j HB Hl Hj).
  reflexivity.
Qed.

(** ** Linearity of the checksums under the matrix product *)

Lemma sumf_scal_r (n : Z) (c : Q) (f : Z -> Q) :
  (sumf n (fun i => f i * c) == sumf n f * c)%Q.
Proof.
  rewrite (sumf_ext n (fun i => f i * c)%Q (fun i => c * f i)%Q)
    by (intros; ring).
  rewrite sumf_scal. ring.
Qed.

(** w^T (alpha A b + beta c) = alpha (w^T A) b + beta (w^T c). *)
Lemma col_checksum_linear (m k : Z) (w : Z -> Q) (a : Z -> Z -> Q)
    (b c : Z -> Q) (alpha beta : Q) :
  (alpha * sumf k (fun l => sumf m (fun i => w i * a i l) * b l)
   + beta * sumf m (fun i => w i * c i)
   == sumf m (fun i => w i * (alpha * sumf k (fun l => a i l * b l) + beta * c i)))%Q.
Proof.
  rewrite (sumf_ext m
             (fun i => w i * (alpha * sumf k (fun l => a i l * b l) + beta * c i))%Q
             (fun i => alpha * sumf k (fun l => w i * a i l * b l)
                       + beta * (w i * c i))%Q).
  2:{ intros i _. rewrite (sumf_ext k (fun l => w i * a i l * b l)%Q
                             (fun l => w i * (a i l * b l))%Q) by (intros; ring).
      rewrite sumf_scal. ring. }
  rewrite sumf_plus, !sumf_scal.
  rewrite (sumf_swap m k (fun i l => w i * a i l * b l)%Q).
  rewrite (sumf_ext k (fun l => sumf m (fun i => w i * a i l * b l))%Q
             (fun l => sumf m (fun i => w i * a i l) * b l)%Q).
  2:{ intros l _. apply sumf_scal_r. }
  reflexivity.
Qed.


Lemma col_encoded_spec W t mm chk ldchk p ld R rows cols :
  col_encoded W t mm chk ldchk p ld R rows cols = true ->
  forall r j, 0 <= r < R -> 0 <= j < cols ->
    (op_get t mm chk ldchk r j == Encode_col_op W t rows mm p ld r j)%Q.
Proof.
  unfold col_encoded. rewrite forallb_forall. intros H r j Hr Hj.
  apply Qeq_bool_iff. apply (H (r, j)). apply in_grid. lia.
Qed.


Lemma agree_on_app l1 l2 m1 m2 :
  agree_on (l1 ++ l2) m1 m2 <-> agree_on l1 m1 m2 /\ agree_on l2 m1 m2.
Proof.
  unfold agree_on. split.
  - intros H. split; intros a Ha; apply H; apply in_or_app; tauto.
  - intros [H1 H2] a Ha. apply in_app_or in Ha. destruct Ha; auto.
Qed.

Lemma agree_on_trans l m1 m2 m3 :
  agree_on l m1 m2 -> agree_on l m2 m3 -> agree_on l m1 m3.
Proof. intros H1 H2 a Ha. rewrite (H1 a Ha). apply H2. exact Ha. Qed.

Lemma agree_on_sym l m1 m2 : agree_on l m1 m2 -> agree_on l m2 m1.
Proof. intros H a Ha. symmetry. apply H. exact Ha. Qed.

(** A product leaves alone every region disjoint from its output view. *)
Lemma cublasDgemm_agree tA tB m n k alpha A lda B ldb beta C ldc mm l :
  disjointb (view_addrs C ldc m n) l = true ->
  agree_on l (cublasDgemm tA tB m n k alpha A lda B ldb beta C ldc mm) mm.
Proof.
  intros H a Ha. apply cublasDgemm_frame.
  exact (disjointb_spec_r _ _ H a Ha).
Qed.

Lemma disjointb_intro (l1 l2 : list Z) :
  (forall a, In a l1 -> ~ In a l2) -> disjointb l1 l2 = true.
Proof.
  intros H. unfold disjointb. apply forallb_forall. intros a Ha.
  apply negb_true_iff. destruct (memb a l2) eqn:E; [|reflexivity].
  apply memb_In in E. exfalso. exact (H a Ha E).
Qed.

Lemma disjointb_sym (l1 l2 : list Z) :
  disjointb l1 l2 = true -> disjointb l2 l1 = true.
Proof.
  intros H. apply disjointb_intro. intros a Ha Hb.
  exact (disjointb_spec _ _ H a Hb Ha).
Qed.

(** ** abft_dgemm *)

Section AbftDgemmProps.

Import AbftDgemm.

Variables checker_colchk checker_rowchk : checker_t.

Variables transA transB : magma_trans_t.
Variables m n k : Z.
Variables alpha beta : Q.
Variables dA ldda dB lddb dC lddc nb : Z.
Variables dA_colchk ldda_colchk dA_rowchk ldda_rowchk : Z.
Variables dA_colchk_r ldda_colchk_r dA_rowchk_r ldda_rowchk_r : Z.
Variables dB_colchk lddb_colchk dB_rowchk lddb_rowchk : Z.
Variables dB_colchk_r lddb_colchk_r dB_rowchk_r lddb_rowchk_r : Z.
Variables dC_colchk lddc_colchk dC_rowchk lddc_rowchk : Z.
Variables dC_colchk_r lddc_colchk_r dC_rowchk_r lddc_rowchk_r : Z.
Variables chk_v ld_chk_v : Z.
Variables stream1 stream2 : magma_queue_t.

(** The call under study, with the flags left open. *)
Local Abbreviation run FT DEBUG CHECK_BEFORE CHECK_AFTER :=
  (abft_dgemm checker_colchk checker_rowchk transA transB m n k alpha
    dA ldda dB lddb beta dC lddc nb
    dA_colchk ldda_colchk dA_rowchk ldda_rowchk
    dA_colchk_r ldda_colchk_r dA_rowchk_r ldda_rowchk_r
    dB_colchk lddb_colchk dB_rowchk lddb_rowchk
    dB_colchk_r lddb_colchk_r dB_rowchk_r lddb_rowchk_r
    dC_colchk lddc_colchk dC_rowchk lddc_rowchk
    dC_colchk_r lddc_colchk_r dC_rowchk_r lddc_rowchk_r
    chk_v ld_chk_v FT DEBUG CHECK_BEFORE CHECK_AFTER stream1 stream2).

(** Its three stages. *)
Local Abbreviation before DEBUG CHECK_BEFORE :=
  (when CHECK_BEFORE
     (check_before checker_colchk checker_rowchk transA transB m n k
        dA ldda dB lddb dC lddc nb
        dA_colchk ldda_colchk dA_rowchk ldda_rowchk
        dA_colchk_r ldda_colchk_r dA_rowchk_r ldda_rowchk_r
        dB_colchk lddb_colchk dB_rowchk lddb_rowchk
        dB_colchk_r lddb_colchk_r dB_rowchk_r lddb_rowchk_r
        dC_colchk lddc_colchk dC_rowchk lddc_rowchk
        dC_colchk_r lddc_colchk_r dC_rowchk_r lddc_rowchk_r
        chk_v ld_chk_v DEBUG stream1)).

Local Abbreviation protected_product :=
  (magma_dgemm transA transB m n k alpha dA ldda dB lddb beta dC lddc stream1 ;;
   update_checksums transA transB m n k alpha dA ldda dB lddb beta nb
     dA_colchk ldda_colchk dA_rowchk ldda_rowchk
     dB_colchk lddb_colchk dB_rowchk lddb_rowchk
     dC_colchk lddc_colchk dC_rowchk lddc_rowchk stream2)%cmd.

(** The product on the data, as the unprotected [magma_dgemm] issues it. *)
Local Abbreviation main_gemm :=
  (EvGemm Device stream1 transA transB m n k alpha dA ldda dB lddb beta dC lddc).

(** Checksum operands selected by the transposition flags. *)
Local Abbreviation chkA := (if is_notrans transA then dA_colchk else dA_rowchk).
Local Abbreviation ldchkA := (if is_notrans transA then ldda_colchk else ldda_rowchk).
Local Abbreviation chkB := (if is_notrans transB then dB_rowchk else dB_colchk).
Local Abbreviation ldchkB := (if is_notrans transB then lddb_rowchk else lddb_colchk).
Local Abbreviation R := (Z.quot m nb * 2).
Local Abbreviation R' := (Z.quot n nb * 2).

Local Abbreviation col_gemm :=
  (EvGemm Device stream2 transA transB R n k alpha chkA ldchkA dB lddb
          beta dC_colchk lddc_colchk).
Local Abbreviation row_gemm :=
  (EvGemm Device stream2 transA transB m R' k alpha dA ldda chkB ldchkB
          beta dC_rowchk lddc_rowchk).

(** Regions touched by the three products. *)
Local Abbreviation rA := (op_view transA dA ldda m k).
Local Abbreviation rB := (op_view transB dB lddb k n).
Local Abbreviation rC := (view_addrs dC lddc m n).
Local Abbreviation rAc := (op_view transA chkA ldchkA R k).
Local Abbreviation rBc := (op_view transB chkB ldchkB k R').
Local Abbreviation rCc := (view_addrs dC_colchk lddc_colchk R n).
Local Abbreviation rCr := (view_addrs dC_rowchk lddc_rowchk m R').

(** C10: with FT disabled the call logs exactly the one product on the data
    buffer, device memory is the result of that product alone, and every cell
    outside the m x n view of C (in particular every cell of the twelve
    checksum buffers) keeps its value, whatever CHECK_BEFORE, CHECK_AFTER and
    DEBUG are; host memory is untouched. *)
Theorem abft_dgemm_ft_disabled (DEBUG CHECK_BEFORE CHECK_AFTER : bool)
    (s : state) (a : Z) :
  ~ In a rC ->
  let s' := run false DEBUG CHECK_BEFORE CHECK_AFTER s in
  log s' = log s ++ [main_gemm]
  /\ dev s' = cublasDgemm transA transB m n k alpha dA ldda dB lddb beta dC lddc (dev s)
  /\ dev s' a = dev s a
  /\ host s' = host s.
Proof.
  intros Ha s'. subst s'. unfold abft_dgemm. simpl.
  repeat split. apply cublasDgemm_frame. exact Ha.
Qed.

Lemma update_checksums_unfold (s : state) :
  update_checksums transA transB m n k alpha dA ldda dB lddb beta nb
     dA_colchk ldda_colchk dA_rowchk ldda_rowchk
     dB_colchk lddb_colchk dB_rowchk lddb_rowchk
     dC_colchk lddc_colchk dC_rowchk lddc_rowchk stream2 s
  = magma_dgemm transA transB m R' k alpha dA ldda chkB ldchkB beta
      dC_rowchk lddc_rowchk stream2
      (magma_dgemm transA transB R n k alpha chkA ldchkA dB lddb beta
         dC_colchk lddc_colchk stream2 s).
Proof.
  unfold update_checksums. destruct (is_notrans transA), (is_notrans transB); reflexivity.
Qed.

Lemma run_ft_stages (DEBUG CB CA : bool) (s : state) :
  run true DEBUG CB CA s
  = when CA (check_after checker_colchk checker_rowchk m n dC lddc nb
               dC_colchk lddc_colchk dC_rowchk lddc_rowchk
               dC_colchk_r lddc_colchk_r dC_rowchk_r lddc_rowchk_r
               chk_v ld_chk_v DEBUG stream1)
         (protected_product (before DEBUG CB s)).
Proof. reflexivity. Qed.

Lemma protected_product_dev (s : state) :
  dev (protected_product s)
  = cublasDgemm transA transB m R' k alpha dA ldda chkB ldchkB beta
      dC_rowchk lddc_rowchk
      (cublasDgemm transA transB R n k alpha chkA ldchkA dB lddb beta
         dC_colchk lddc_colchk
         (cublasDgemm transA transB m n k alpha dA ldda dB lddb beta dC lddc
            (dev s))).
Proof. cbv beta. rewrite update_checksums_unfold. reflexivity. Qed.

Lemma protected_product_log (s : state) :
  log (protected_product s) = log s ++ [main_gemm; col_gemm; row_gemm].
Proof.
  cbv beta. rewrite update_checksums_unfold. simpl. rewrite <- !app_assoc. reflexivity.
Qed.





(** The verification passes only append to the log. *)
Lemma log_extends_refl (s : state) : exists l, log s = log s ++ l.
Proof. exists []. rewrite app_nil_r. reflexivity. Qed.

Lemma log_extends_emit (s x : state) (e : event) :
  (exists l, log x = log s ++ l) -> exists l, log (emit e x) = log s ++ l.
Proof.
  intros [l E]. exists (l ++ [e]). unfold emit. cbn [log].
  rewrite E, app_assoc. reflexivity.
Qed.

Lemma log_extends_on_dev (s x : state) (f : mem -> mem) :
  (exists l, log x = log s ++ l) -> exists l, log (on_dev f x) = log s ++ l.
Proof. intros H. exact H. Qed.

Ltac log_steps :=
  repeat match goal with
         | |- exists l, log (emit _ _) = _ => apply log_extends_emit
         | |- exists l, log (on_dev _ _) = _ => apply log_extends_on_dev
         end;
  apply log_extends_refl.


Lemma check_after_log (DEBUG : bool) (s : state) :
  exists l,
    log (check_after checker_colchk checker_rowchk m n dC lddc nb
           dC_colchk lddc_colchk dC_rowchk lddc_rowchk
           dC_colchk_r lddc_colchk_r dC_rowchk_r lddc_rowchk_r
           chk_v ld_chk_v DEBUG stream1 s) = log s ++ l.
Proof.
  unfold check_after, abft_checker_colchk, abft_checker_rowchk,
    print_line, when, skip.
  destruct DEBUG; cbv beta zeta; log_steps.
Qed.



Lemma run_ft_log (DEBUG CHECK_BEFORE CHECK_AFTER : bool) (s : state) :
  exists post,
    log (run true DEBUG CHECK_BEFORE CHECK_AFTER s)
    = log (before DEBUG CHECK_BEFORE s)
      ++ main_gemm :: col_gemm :: row_gemm :: post.
Proof.
  rewrite run_ft_stages.
  pose proof (protected_product_log (before DEBUG CHECK_BEFORE s)) as Hp.
  destruct CHECK_AFTER.
  - destruct (check_after_log DEBUG
                (protected_product (before DEBUG CHECK_BEFORE s))) as [post Hpost].
    exists post. unfold when at 1. rewrite Hpost, Hp.
    rewrite <- !app_assoc. reflexivity.
  - exists []. unfold when at 1, skip. rewrite Hp. reflexivity.
Qed.

End AbftDgemmProps.



Lemma abft_dgemm_ft_disabled_witness :
  let s' := gemm_example_run false true true in
  log s' = [EvGemm Device 1 MagmaNoTrans MagmaNoTrans 2 2 1 2%Q 0 2 10 1 1%Q 20 2]
  /\ dev s' 70 = gemm_example_dev 70
  /\ host s' = (fun _ => 0%Q).
Proof.
  destruct (abft_dgemm_ft_disabled recompute_colchk recompute_rowchk
    MagmaNoTrans MagmaNoTrans 2 2 1 2%Q 1%Q 0 2 10 1 20 2 2
    30 2 40 2 130 2 140 2
    60 2 50 1 160 2 150 2
    70 2 80 2 170 2 180 2
    200 2 1 2 false true true (initial gemm_example_dev (fun _ => 0%Q)) 70)
    as [Hl [_ [Hd Hh]]].
  - cbv. intuition discriminate.
  - split; [exact Hl|]. split; [exact Hd|exact Hh].
Defined.

(** ** dsyrkFT *)

Lemma cublasDgemv_frame t m n alpha A lda x incx beta y incy (mm : mem) a :
  ~ In a (vec_addrs y incy (if is_notrans t then m else n)) ->
  cublasDgemv t m n alpha A lda x incx beta y incy mm a = mm a.
Proof.
  intros H. unfold cublasDgemv. apply write_cells_frame.
  rewrite map_map. exact H.
Qed.

Ltac in_log :=
  repeat (apply in_or_app; first [right; simpl; left; reflexivity | left]).

Section DsyrkProps.

Import DsyrkFT.

Variables n m : Z.
Variables A lda C ldc : Z.
Variables checksumA checksumA_ld checksumC checksumC_ld : Z.
Variables vd vd_ld chk1 chk1_ld chk2 chk2_ld : Z.
Variable streams : Z -> magma_queue_t.

(** The product every call issues on the data. *)
Local Abbreviation syrk_as_gemm :=
  (EvGemm Device (streams 1) MagmaNoTrans MagmaTrans n n m (-1)%Q
          A lda A lda 1%Q C ldc).

Local Abbreviation scratch := (vec_addrs chk1 chk1_ld m ++ vec_addrs chk2 chk2_ld m).
Local Abbreviation rA := (view_addrs A lda n m).
Local Abbreviation rC := (view_addrs C ldc n n).
Local Abbreviation rCc := (view_addrs checksumC checksumC_ld 2 n).

Lemma dsyrkFT_dev uplo trans alpha beta (FT DEBUG VERIFY : bool) (s : state) :
  dev (dsyrkFT uplo trans n m alpha A lda beta C ldc
         checksumA checksumA_ld checksumC checksumC_ld
         vd vd_ld chk1 chk1_ld chk2 chk2_ld FT DEBUG VERIFY streams s)
  = let d1 :=
      if FT && VERIFY then
        cublasDgemv MagmaTrans n m 1 A lda (vd + 1) vd_ld 0 chk2 chk2_ld
          (cublasDgemv MagmaTrans n m 1 A lda vd vd_ld 0 chk1 chk1_ld (dev s))
      else dev s in
    let d2 := cublasDgemm MagmaNoTrans MagmaTrans n n m (1 * (-1))%Q
                          A lda A lda 1 C ldc d1 in
    if FT then
      cublasDgemm MagmaNoTrans MagmaTrans 2 n m (1 * (-1))%Q
                  checksumA checksumA_ld A lda 1 checksumC checksumC_ld d2
    else d2.
Proof. destruct FT, VERIFY, DEBUG; reflexivity. Qed.

Lemma dsyrkFT_log uplo trans alpha beta (FT DEBUG VERIFY : bool) (s : state) :
  In syrk_as_gemm
     (log (dsyrkFT uplo trans n m alpha A lda beta C ldc
             checksumA checksumA_ld checksumC checksumC_ld
             vd vd_ld chk1 chk1_ld chk2 chk2_ld FT DEBUG VERIFY streams s)).
Proof. destruct FT, VERIFY, DEBUG; simpl; in_log. Qed.

(** Whatever the flags, the data view of C receives the entries of the
    product with scalars -1 and 1. *)
Lemma dsyrkFT_data uplo trans alpha beta (FT DEBUG VERIFY : bool) (s : state) i j :
  n <= ldc -> 0 <= i < n -> 0 <= j < n ->
  disjointb scratch (rA ++ rC) = true ->
  disjointb rCc rC = true ->
  dev (dsyrkFT uplo trans n m alpha A lda beta C ldc
         checksumA checksumA_ld checksumC checksumC_ld
         vd vd_ld chk1 chk1_ld chk2 chk2_ld FT DEBUG VERIFY streams s)
      (addr C ldc i j)
  = gemm_entry MagmaNoTrans MagmaTrans m (1 * (-1))%Q A lda A lda 1 C ldc (dev s) i j.
Proof.
  intros Hld Hi Hj Hs Hc. rewrite dsyrkFT_dev. cbv zeta.
  assert (Hin : In (addr C ldc i j) rC) by (apply addr_in_view; assumption).
  assert (E : (if FT then
                 cublasDgemm MagmaNoTrans MagmaTrans 2 n m (1 * (-1))%Q
                   checksumA checksumA_ld A lda 1 checksumC checksumC_ld
                   (cublasDgemm MagmaNoTrans MagmaTrans n n m (1 * (-1))%Q
                      A lda A lda 1 C ldc
                      (if FT && VERIFY then
                         cublasDgemv MagmaTrans n m 1 A lda (vd + 1) vd_ld 0 chk2 chk2_ld
                           (cublasDgemv MagmaTrans n m 1 A lda vd vd_ld 0 chk1 chk1_ld
                              (dev s))
                       else dev s))
               else
                 cublasDgemm MagmaNoTrans MagmaTrans n n m (1 * (-1))%Q
                   A lda A lda 1 C ldc
                   (if FT && VERIFY then
                      cublasDgemv MagmaTrans n m 1 A lda (vd + 1) vd_ld 0 chk2 chk2_ld
                        (cublasDgemv MagmaTrans n m 1 A lda vd vd_ld 0 chk1 chk1_ld
                           (dev s))
                    else dev s)) (addr C ldc i j)
              = cublasDgemm MagmaNoTrans MagmaTrans n n m (1 * (-1))%Q
                   A lda A lda 1 C ldc
                   (if FT && VERIFY then
                      cublasDgemv MagmaTrans n m 1 A lda (vd + 1) vd_ld 0 chk2 chk2_ld
                        (cublasDgemv MagmaTrans n m 1 A lda vd vd_ld 0 chk1 chk1_ld
                           (dev s))
                    else dev s) (addr C ldc i j)).
  { destruct FT; [|reflexivity].
    apply cublasDgemm_frame. exact (disjointb_spec_r _ _ Hc _ Hin). }
  rewrite E. clear E. rewrite cublasDgemm_get by assumption.
  assert (Hagree : agree_on (rA ++ rC)
            (if FT && VERIFY then
               cublasDgemv MagmaTrans n m 1 A lda (vd + 1) vd_ld 0 chk2 chk2_ld
                 (cublasDgemv MagmaTrans n m 1 A lda vd vd_ld 0 chk1 chk1_ld (dev s))
             else dev s) (dev s)).
  { destruct (FT && VERIFY); [|intros a _; reflexivity].
    intros a Ha. pose proof (disjointb_spec_r _ _ Hs a Ha) as Hn.
    rewrite !cublasDgemv_frame; [reflexivity| |]; simpl;
      intros X; apply Hn; apply in_or_app; tauto. }
  apply agree_on_app in Hagree. destruct Hagree as [HA HC].
  apply gemm_entry_ext with (m := n) (n := n); assumption.
Qed.

(** C9: the routine never reads [uplo], [trans], [alpha] or [beta]: two calls
    that differ only in them yield the same state.  Every call issues the
    general product with NoTrans/Trans and the scalars -1 and 1 on C, and
    leaves C - A A^T in the whole n x n view of C. *)
Theorem dsyrkFT_ignores_blas_parameters
    (uplo uplo' : magma_uplo_t) (trans trans' : magma_trans_t)
    (alpha alpha' beta beta' : Q) (FT DEBUG VERIFY : bool) (s : state) (i j : Z) :
  n <= ldc -> 0 <= i < n -> 0 <= j < n ->
  disjointb scratch (rA ++ rC) = true ->
  disjointb rCc rC = true ->
  let call u t a b :=
    dsyrkFT u t n m a A lda b C ldc checksumA checksumA_ld checksumC checksumC_ld
            vd vd_ld chk1 chk1_ld chk2 chk2_ld FT DEBUG VERIFY streams s in
  call uplo trans alpha beta = call uplo' trans' alpha' beta'
  /\ In syrk_as_gemm (log (call uplo trans alpha beta))
  /\ (dev (call uplo trans alpha beta) (addr C ldc i j)
      == dev s (addr C ldc i j)
         - sumf m (fun l => dev s (addr A lda i l) * dev s (addr A lda j l)))%Q.
Proof.
  intros Hld Hi Hj Hs Hc call. split; [reflexivity|]. split.
  - apply dsyrkFT_log.
  - unfold call. rewrite dsyrkFT_data by assumption.
    unfold gemm_entry, op_get. simpl. ring.
Qed.


End DsyrkProps.

(** ** Transparency of the protection on the data *)

Section Transparency.

Variables checker_colchk checker_rowchk : AbftDgemm.checker_t.
Variables transA transB : magma_trans_t.
Variables m n k : Z.
Variables alpha beta : Q.
Variables dA ldda dB lddb dC lddc nb : Z.
Variables dA_colchk ldda_colchk dA_rowchk ldda_rowchk : Z.
Variables dA_colchk_r ldda_colchk_r dA_rowchk_r ldda_rowchk_r : Z.
Variables dB_colchk lddb_colchk dB_rowchk lddb_rowchk : Z.
Variables dB_colchk_r lddb_colchk_r dB_rowchk_r lddb_rowchk_r : Z.
Variables dC_colchk lddc_colchk dC_rowchk lddc_rowchk : Z.
Variables dC_colchk_r lddc_colchk_r dC_rowchk_r lddc_rowchk_r : Z.
Variables chk_v ld_chk_v : Z.
Variables stream1 stream2 : magma_queue_t.

Variable uplo : magma_uplo_t.
Variable trans : magma_trans_t.
Variables sn sm : Z.
Variables salpha sbeta : Q.
Variables A lda C ldc : Z.
Variables checksumA checksumA_ld checksumC checksumC_ld : Z.
Variables vd vd_ld chk1 chk1_ld chk2 chk2_ld : Z.
Variable streams : Z -> magma_queue_t.

Local Abbreviation gemm_call FT DEBUG CHECK_BEFORE CHECK_AFTER :=
  (AbftDgemm.abft_dgemm checker_colchk checker_rowchk transA transB m n k alpha
    dA ldda dB lddb beta dC lddc nb
    dA_colchk ldda_colchk dA_rowchk ldda_rowchk
    dA_colchk_r ldda_colchk_r dA_rowchk_r ldda_rowchk_r
    dB_colchk lddb_colchk dB_rowchk lddb_rowchk
    dB_colchk_r lddb_colchk_r dB_rowchk_r lddb_rowchk_r
    dC_colchk lddc_colchk dC_rowchk lddc_rowchk
    dC_colchk_r lddc_colchk_r dC_rowchk_r lddc_rowchk_r
    chk_v ld_chk_v FT DEBUG CHECK_BEFORE CHECK_AFTER stream1 stream2).

Local Abbreviation gemm_before DEBUG CHECK_BEFORE :=
  (when CHECK_BEFORE
     (AbftDgemm.check_before checker_colchk checker_rowchk transA transB m n k
        dA ldda dB lddb dC lddc nb
        dA_colchk ldda_colchk dA_rowchk ldda_rowchk
        dA_colchk_r ldda_colchk_r dA_rowchk_r ldda_rowchk_r
        dB_colchk lddb_colchk dB_rowchk lddb_rowchk
        dB_colchk_r lddb_colchk_r dB_rowchk_r lddb_rowchk_r
        dC_colchk lddc_colchk dC_rowchk lddc_rowchk
        dC_colchk_r lddc_colchk_r dC_rowchk_r lddc_rowchk_r
        chk_v ld_chk_v DEBUG stream1)).

Local Abbreviation gemm_products :=
  (magma_dgemm transA transB m n k alpha dA ldda dB lddb beta dC lddc stream1 ;;
   AbftDgemm.update_checksums transA transB m n k alpha dA ldda dB lddb beta nb
     dA_colchk ldda_colchk dA_rowchk ldda_rowchk
     dB_colchk lddb_colchk dB_rowchk lddb_rowchk
     dC_colchk lddc_colchk dC_rowchk lddc_rowchk stream2)%cmd.

Local Abbreviation syrk_call FT DEBUG VERIFY :=
  (DsyrkFT.dsyrkFT uplo trans sn sm salpha A lda sbeta C ldc
     checksumA checksumA_ld checksumC checksumC_ld
     vd vd_ld chk1 chk1_ld chk2 chk2_ld FT DEBUG VERIFY streams).


End Transparency.

(** ** The detection and correction kernel *)

Lemma range_succ (i : Z) : 0 <= i -> range (i + 1) = range i ++ [i].
Proof.
  intros H. unfold range.
  replace (Z.to_nat (i + 1)) with (Z.to_nat i + 1)%nat by lia.
  rewrite seq_app, map_app. simpl. rewrite Z2Nat.id by lia. reflexivity.
Qed.

Lemma range_max (n : Z) : range (Z.max 0 n) = range n.
Proof. unfold range. f_equal. f_equal. lia. Qed.

Lemma Qgt_bool_true (a b : Q) : Detect.Qgt_bool a b = true <-> (b < a)%Q.
Proof.
  unfold Detect.Qgt_bool. rewrite negb_true_iff. split.
  - intros H. apply Qnot_le_lt. intros L. apply Qle_bool_iff in L. congruence.
  - intros H. destruct (Qle_bool a b) eqn:E; [|reflexivity].
    apply Qle_bool_iff in E. exfalso. exact (Qlt_not_le _ _ H E).
Qed.

Lemma Qgt_bool_false (a b : Q) : Detect.Qgt_bool a b = false <-> (a <= b)%Q.
Proof.
  unfold Detect.Qgt_bool. rewrite negb_false_iff. apply Qle_bool_iff.
Qed.

Lemma c_round_inject (z : Z) : Detect.c_round (inject_Z z) = z.
Proof.
  unfold Detect.c_round. destruct (Qle_bool 0 (inject_Z z)) eqn:E.
  - unfold Qfloor, Qplus, inject_Z. simpl.
    symmetry. apply Z.div_unique with (r := 1); lia.
  - unfold Qceiling, Qfloor, Qminus, Qplus, Qopp, inject_Z. simpl.
    match goal with |- - (?a / 2) = _ => assert (H : a / 2 = - z) end.
    { symmetry. apply Z.div_unique with (r := 1); lia. }
    rewrite H. lia.
Qed.

Lemma c_round_compat (x y : Q) : (x == y)%Q -> Detect.c_round x = Detect.c_round y.
Proof.
  intros H. unfold Detect.c_round.
  assert (E1 : Qle_bool 0 x = Qle_bool 0 y) by (rewrite H; reflexivity).
  assert (E2 : Qfloor (x + (1 # 2)) = Qfloor (y + (1 # 2))) by (rewrite H; reflexivity).
  assert (E3 : Qceiling (x - (1 # 2)) = Qceiling (y - (1 # 2)))
    by (rewrite H; reflexivity).
  rewrite E1, E2, E3. reflexivity.
Qed.

Lemma Qgt_bool_compat (a a' b : Q) :
  (a == a')%Q -> Detect.Qgt_bool a b = Detect.Qgt_bool a' b.
Proof. intros H. unfold Detect.Qgt_bool. rewrite H. reflexivity. Qed.

(** A filter over [0 .. n-1] that only [j] passes. *)
Lemma filter_range_single (f : Z -> bool) (n j : Z) :
  0 <= j < n ->
  (forall i, 0 <= i < n -> f i = (i =? j)) ->
  filter f (range n) = [j].
Proof.
  intros Hj Hf.
  assert (G : forall k, (k <= Z.to_nat n)%nat ->
            filter f (range (Z.of_nat k))
            = if Z.of_nat k <=? j then [] else [j]).
  { induction k as [|k IH]; intros Hk.
    - simpl. destruct (0 <=? j) eqn:E; [reflexivity|lia].
    - replace (Z.of_nat (S k)) with (Z.of_nat k + 1) by lia.
      rewrite range_succ, filter_app by lia. rewrite IH by lia. simpl.
      rewrite Hf by lia.
      destruct (Z.of_nat k =? j) eqn:E1, (Z.of_nat k <=? j) eqn:E2,
               (Z.of_nat k + 1 <=? j) eqn:E3; try lia; try reflexivity.
      apply Z.eqb_eq in E1. subst. reflexivity. }
  specialize (G (Z.to_nat n) (le_n _)). rewrite Z2Nat.id in G by lia.
  rewrite G. destruct (n <=? j) eqn:E; [lia|reflexivity].
Qed.

(** Column sums of a matrix with one perturbed entry. *)
Lemma sumf_perturbed (n r : Z) (w f : Z -> Q) (hit : bool) (e : Q) :
  0 <= r < n ->
  (sumf n (fun i => w i * (f i + (if (i =? r) && hit then e else 0)))
   == sumf n (fun i => w i * f i) + (if hit then w r * e else 0))%Q.
Proof.
  intros Hr.
  rewrite (sumf_ext n
             (fun i => w i * (f i + (if (i =? r) && hit then e else 0)))%Q
             (fun i => w i * f i + w i * (if (i =? r) && hit then e else 0))%Q)
    by (intros; ring).
  rewrite sumf_plus. apply Qplus_inj_l.
  rewrite (sumf_single n r) by
    (try assumption; intros i _ Hne; apply Z.eqb_neq in Hne; rewrite Hne; simpl; ring).
  rewrite Z.eqb_refl. simpl. destruct hit; ring.
Qed.

(** ** Rounding to binary64 *)

Lemma ilog2_compat (a b : Q) : (a == b)%Q -> ilog2 a = ilog2 b.
Proof.
  intros H. unfold ilog2.
  assert (E1 : Qle_bool 1 a = Qle_bool 1 b) by (rewrite H; reflexivity).
  assert (E2 : Qfloor a = Qfloor b) by (rewrite H; reflexivity).
  assert (E3 : Qceiling (/ a) = Qceiling (/ b)) by (rewrite H; reflexivity).
  rewrite E1, E2, E3. reflexivity.
Qed.

Lemma round_half_even_compat (x y : Q) :
  (x == y)%Q -> round_half_even x = round_half_even y.
Proof.
  intros H. unfold round_half_even.
  assert (Ef : Qfloor x = Qfloor y) by (rewrite H; reflexivity).
  rewrite Ef.
  assert (Er : (x - inject_Z (Qfloor y) == y - inject_Z (Qfloor y))%Q)
    by (rewrite H; reflexivity).
  assert (E1 : Qle_bool (x - inject_Z (Qfloor y)) (1 # 2)
               = Qle_bool (y - inject_Z (Qfloor y)) (1 # 2))
    by (rewrite Er; reflexivity).
  assert (E2 : Qeq_bool (x - inject_Z (Qfloor y)) (1 # 2)
               = Qeq_bool (y - inject_Z (Qfloor y)) (1 # 2))
    by (rewrite Er; reflexivity).
  rewrite E1, E2. reflexivity.
Qed.

Lemma fl64_compat (x y : Q) : (x == y)%Q -> fl64 x = fl64 y.
Proof.
  intros H. unfold fl64.
  assert (E0 : Qeq_bool x 0 = Qeq_bool y 0) by (rewrite H; reflexivity).
  assert (Ea : (Qabs x == Qabs y)%Q) by (rewrite H; reflexivity).
  assert (Eq : ilog2 (Qabs x) = ilog2 (Qabs y)) by (apply ilog2_compat; exact Ea).
  assert (Es : Qle_bool 0 x = Qle_bool 0 y) by (rewrite H; reflexivity).
  rewrite E0, Eq, Es.
  rewrite (round_half_even_compat
             (Qabs x / Qpower 2 (Z.max (ilog2 (Qabs y) - 52) (-1074)))
             (Qabs y / Qpower 2 (Z.max (ilog2 (Qabs y) - 52) (-1074))))
    by (rewrite Ea; reflexivity).
  reflexivity.
Qed.

Lemma fl64_zero : fl64 0 = 0%Q.
Proof. reflexivity. Qed.

Lemma fl64_opp (x : Q) : (fl64 (- x) == - fl64 x)%Q.
Proof.
  unfold fl64.
  destruct (Qeq_bool x 0) eqn:E0.
  - apply Qeq_bool_iff in E0.
    assert (E : Qeq_bool (- x) 0 = true) by (apply Qeq_bool_iff; rewrite E0; reflexivity).
    rewrite E. reflexivity.
  - assert (N : ~ (x == 0)%Q) by (intros X; apply Qeq_bool_iff in X; congruence).
    assert (E : Qeq_bool (- x) 0 = false).
    { destruct (Qeq_bool (- x) 0) eqn:X; [|reflexivity].
      apply Qeq_bool_iff in X. exfalso. apply N. lra. }
    rewrite E.
    assert (Ea : (Qabs (- x) == Qabs x)%Q) by apply Qabs_opp.
    rewrite (ilog2_compat _ _ Ea).
    rewrite (round_half_even_compat
               (Qabs (- x) / Qpower 2 (Z.max (ilog2 (Qabs x) - 52) (-1074)))
               (Qabs x / Qpower 2 (Z.max (ilog2 (Qabs x) - 52) (-1074))))
      by (rewrite Ea; reflexivity).
    destruct (Qle_bool 0 x) eqn:S1, (Qle_bool 0 (- x)) eqn:S2.
    + apply Qle_bool_iff in S1, S2. exfalso. apply N. lra.
    + rewrite !Qred_correct. reflexivity.
    + rewrite !Qred_correct. ring.
    + exfalso.
      assert (~ (0 <= x)%Q) by (intros X; apply Qle_bool_iff in X; congruence).
      assert (~ (0 <= - x)%Q) by (intros X; apply Qle_bool_iff in X; congruence).
      lra.
Qed.

Lemma round_half_even_Z (w : Z) : round_half_even (inject_Z w) = w.
Proof.
  unfold round_half_even. rewrite Qfloor_Z.
  assert (E : (inject_Z w - inject_Z w == 0)%Q) by ring.
  assert (E1 : Qle_bool (inject_Z w - inject_Z w) (1 # 2) = true)
    by (rewrite E; reflexivity).
  assert (E2 : Qeq_bool (inject_Z w - inject_Z w) (1 # 2) = false)
    by (rewrite E; reflexivity).
  rewrite E1, E2. reflexivity.
Qed.

Lemma Qpower2_neg (k : Z) :
  0 <= k -> (Qpower 2 (- k) == / inject_Z (2 ^ k))%Q.
Proof.
  intros Hk. rewrite Qpower_opp. rewrite Zpower_Qpower by exact Hk. reflexivity.
Qed.

(** Integers below 2^53 are binary64 values. *)
Lemma fl64_Z (z : Z) : 0 < z < 2 ^ 53 -> (fl64 (inject_Z z) == inject_Z z)%Q.
Proof.
  intros Hz. unfold fl64.
  assert (E0 : Qeq_bool (inject_Z z) 0 = false).
  { destruct (Qeq_bool (inject_Z z) 0) eqn:X; [|reflexivity].
    apply Qeq_bool_iff in X. unfold Qeq in X. simpl in X. lia. }
  rewrite E0.
  assert (Epos : (0 <= inject_Z z)%Q) by (unfold Qle; simpl; lia).
  assert (Es : Qle_bool 0 (inject_Z z) = true) by (apply Qle_bool_iff; exact Epos).
  rewrite Es, Qred_correct.
  assert (Ea : (Qabs (inject_Z z) == inject_Z z)%Q) by (apply Qabs_pos; exact Epos).
  rewrite (ilog2_compat _ _ Ea).
  assert (El : ilog2 (inject_Z z) = Z.log2 z).
  { unfold ilog2.
    assert (X : Qle_bool 1 (inject_Z z) = true)
      by (apply Qle_bool_iff; unfold Qle; simpl; lia).
    rewrite X, Qfloor_Z. reflexivity. }
  rewrite El.
  assert (Hlog : 0 <= Z.log2 z < 53).
  { split; [apply Z.log2_nonneg|]. apply Z.log2_lt_pow2; lia. }
  set (k := 52 - Z.log2 z).
  assert (Hk : 0 <= k) by (unfold k; lia).
  replace (Z.max (Z.log2 z - 52) (-1074)) with (- k) by (unfold k; lia).
  assert (Hp : (0 < inject_Z (2 ^ k))%Q).
  { unfold Qlt. simpl. assert (0 < 2 ^ k) by (apply Z.pow_pos_nonneg; lia). lia. }
  rewrite (round_half_even_compat (Qabs (inject_Z z) / Qpower 2 (- k))
             (inject_Z (z * 2 ^ k))).
  - rewrite round_half_even_Z. rewrite (Qpower2_neg k Hk).
    rewrite inject_Z_mult. field. lra.
  - rewrite Ea. rewrite (Qpower2_neg k Hk). rewrite inject_Z_mult. field. lra.
Qed.

Lemma is_binary64_exact (x : Q) : is_binary64 x = true -> (fl64 x == x)%Q.
Proof.
  unfold is_binary64. intros H. apply andb_true_iff in H.
  apply Qeq_bool_iff. exact (proj1 H).
Qed.

Section DetectProps.

Import Detect.

Variables C ldc chksumC1 incC1 chksumC2 incC2 chkC1 incC1_2 chkC2 incC2_2 : Z.

Local Abbreviation thread :=
  (detectAndCorrectForSyrk C ldc chksumC1 incC1 chksumC2 incC2
                           chkC1 incC1_2 chkC2 incC2_2).
Local Abbreviation D1 := (d1 chksumC1 incC1 chkC1 incC1_2).
Local Abbreviation D2 := (d2 chksumC2 incC2 chkC2 incC2_2).
Local Abbreviation is_flagged := (flagged chksumC1 incC1 chkC1 incC1_2).
Local Abbreviation row_of :=
  (located_row chksumC1 incC1 chksumC2 incC2 chkC1 incC1_2 chkC2 incC2_2).
Local Abbreviation patch_of :=
  (column_patch C ldc chksumC1 incC1 chksumC2 incC2 chkC1 incC1_2 chkC2 incC2_2).
Local Abbreviation cells :=
  (checksum_cells chksumC1 incC1 chksumC2 incC2 chkC1 incC1_2 chkC2 incC2_2).

(** What one thread does, in terms of the column quantities. *)
Lemma thread_spec (col : Z) (s : state) :
  thread col s
  = if is_flagged (dev s) col
    then mkState (apply_patch (dev s) (patch_of (dev s) col)) (host s)
                 (kernel_stream s)
                 (log s ++ [EvFDiv (Qabs (D2 (dev s) col)) (Qabs (D1 (dev s) col));
                            EvPatch (fst (patch_of (dev s) col))
                                    (snd (patch_of (dev s) col))])
    else s.
Proof.
  unfold detectAndCorrectForSyrk, flagged, d1.
  destruct (Qgt_bool _ tol); [|reflexivity].
  unfold emit, on_dev, apply_patch, column_patch, located_row, d1, d2.
  cbn [dev host kernel_stream log fst snd].
  rewrite <- app_assoc. reflexivity.
Qed.

(** The kernel of dtrsmFT.cpp is the same thread on the pointers of its
    block. *)
Lemma detectAndCorrectForTrsm_as_Syrk (n block col : Z) (s : state) :
  detectAndCorrectForTrsm C ldc n chksumC1 incC1 chksumC2 incC2
                          chkC1 incC1_2 chkC2 incC2_2 block col s
  = detectAndCorrectForSyrk (C + n * block) ldc (chksumC1 + block) incC1
      (chksumC2 + block) incC2 (chkC1 + block) incC1_2 (chkC2 + block) incC2_2
      col s.
Proof. reflexivity. Qed.

(** C8: a thread whose first discrepancy does not exceed the tolerance 0.1
    returns the state it was given: nothing is divided, nothing is stored,
    nothing is logged.  And in any launch on any state, every division
    d2/d1 the kernel performs has a divisor above the tolerance, hence
    non-zero. *)
Theorem detect_small_d1_is_silent (col : Z) (s : state) :
  (Qabs (D1 (dev s) col) <= tol)%Q ->
  thread col s = s
  /\ forall (n : Z) (s0 : state) (num den : Q),
       In (EvFDiv num den) (log (launch_1d n thread s0)) ->
       In (EvFDiv num den) (log s0) \/ (tol < den)%Q.
Proof.
  intros Hsmall. split.
  - rewrite thread_spec. unfold flagged.
    apply Qgt_bool_false in Hsmall. rewrite Hsmall. reflexivity.
  - intros n s0 num den. unfold launch_1d.
    apply (for_loop_ind
             (fun _ st => In (EvFDiv num den) (log st) ->
                          In (EvFDiv num den) (log s0) \/ (tol < den)%Q)).
    + tauto.
    + intros i x _ IH. rewrite thread_spec.
      destruct (is_flagged (dev x) i) eqn:F; [|exact IH].
      simpl. intros Hin. apply in_app_or in Hin. destruct Hin as [Hin|Hin].
      * apply IH. exact Hin.
      * simpl in Hin. destruct Hin as [E|[E|[]]]; [|discriminate].
        inversion E; subst. right. apply Qgt_bool_true. exact F.
Qed.

Lemma in_cells (n col : Z) :
  0 <= col < n ->
  In (chksumC1 + col * incC1) (cells n) /\ In (chksumC2 + col * incC2) (cells n)
  /\ In (chkC1 + col * incC1_2) (cells n) /\ In (chkC2 + col * incC2_2) (cells n).
Proof.
  intros H. unfold checksum_cells. rewrite !in_app_iff, !in_vec_addrs.
  repeat split; eauto 8.
Qed.

(** The column quantities only depend on the checksum cells. *)
Lemma quantities_agree (n col : Z) (m1 m2 : mem) :
  0 <= col < n -> agree_on (cells n) m1 m2 ->
  is_flagged m1 col = is_flagged m2 col /\ patch_of m1 col = patch_of m2 col
  /\ D1 m1 col = D1 m2 col /\ D2 m1 col = D2 m2 col.
Proof.
  intros Hc Hag. destruct (in_cells n col Hc) as [H1 [H2 [H3 H4]]].
  unfold flagged, column_patch, located_row, d1, d2.
  rewrite (Hag _ H1), (Hag _ H2), (Hag _ H3), (Hag _ H4). auto.
Qed.

Lemma patches_app (l1 l2 : list event) :
  patches (l1 ++ l2) = patches l1 ++ patches l2.
Proof. unfold patches. apply flat_map_app. Qed.

(** A launch on [n] columns whose stores fall outside the checksum vectors:
    every flagged column is patched, in index order, each from the
    discrepancies of its own column in the memory at launch. *)
Lemma launch_patches_flagged (n : Z) (s : state) :
  (forall col, 0 <= col < n -> is_flagged (dev s) col = true ->
               ~ In (fst (patch_of (dev s) col)) (cells n)) ->
  let s' := launch_1d n thread s in
  let fired := map (patch_of (dev s)) (filter (is_flagged (dev s)) (range n)) in
  patches (log s') = patches (log s) ++ fired
  /\ dev s' = apply_patches fired (dev s)
  /\ host s' = host s.
Proof.
  intros Hout. cbv zeta. unfold launch_1d.
  assert (Hind :
    (fun i st =>
       agree_on (cells n) (dev st) (dev s)
       /\ patches (log st)
          = patches (log s)
            ++ map (patch_of (dev s)) (filter (is_flagged (dev s)) (range i))
       /\ dev st = apply_patches
                     (map (patch_of (dev s))
                          (filter (is_flagged (dev s)) (range i))) (dev s)
       /\ host st = host s) (Z.max 0 n) (for_loop n thread s)).
  { apply for_loop_ind.
    - split; [intros a _; reflexivity|].
      split; [simpl; symmetry; apply app_nil_r|].
      split; reflexivity.
    - intros i x Hi [Hag [Hp [Hd Hh]]].
      destruct (quantities_agree n i (dev x) (dev s) Hi Hag) as [Ef [Ep _]].
      rewrite range_succ, filter_app, map_app by lia. simpl.
      rewrite thread_spec, Ef. destruct (is_flagged (dev s) i) eqn:F.
      + rewrite Ep. cbn [dev log host map app].
        split; [|split; [|split]].
        * intros a Ha. unfold apply_patch. rewrite upd_other; [apply Hag; exact Ha|].
          intros E. subst a. exact (Hout i Hi F Ha).
        * rewrite patches_app, Hp, <- app_assoc.
          destruct (patch_of (dev s) i) as [pa pd]. reflexivity.
        * unfold apply_patches. rewrite fold_left_app. cbn [fold_left].
          fold (apply_patches (map (patch_of (dev s))
                                   (filter (is_flagged (dev s)) (range i))) (dev s)).
          rewrite <- Hd. reflexivity.
        * exact Hh.
      + simpl. rewrite !app_nil_r. auto. }
  cbv beta in Hind. rewrite range_max in Hind. tauto.
Qed.

(** C4 (as the code has it): the kernel has no notion of multiple
    corruption.  It returns no status, and each thread decides from the
    discrepancy of its own column alone: in a launch on [n] columns, every
    column whose first discrepancy exceeds 0.1 receives its single-entry
    correction, however many columns are flagged. *)
Theorem detect_patches_every_flagged_column (n : Z) (s : state) :
  (forall col, 0 <= col < n -> is_flagged (dev s) col = true ->
               ~ In (fst (patch_of (dev s) col)) (cells n)) ->
  patches (log (launch_1d n thread s))
  = patches (log s)
    ++ map (patch_of (dev s)) (filter (is_flagged (dev s)) (range n))
  /\ (forall col (x : state),
        thread col x = x \/ patches (log (thread col x))
                            = patches (log x) ++ [patch_of (dev x) col]).
Proof.
  intros Hout. split.
  - apply (launch_patches_flagged n s Hout).
  - intros col x. rewrite thread_spec.
    destruct (is_flagged (dev x) col); [right|left; reflexivity].
    cbn [log]. rewrite patches_app.
    destruct (patch_of (dev x) col) as [pa pd]. reflexivity.
Qed.

(** C2 (as the code has it): let the stored checksums be those of a matrix
    [orig] (weights all ones and 1..n) and let the data differ from [orig]
    by [e] in the single entry (r, j), the recomputed checksums being the
    sums of the data.  Assume that |e| exceeds the tolerance of the kernel
    and that no rounding occurs: n fits an [int] and e, (r+1) e and
    orig[r, j] are finite binary64 values.  Then the discrepancies of column j are d1 = e and
    d2 = (r+1) e, the kernel locates row round(d2/d1) - 1 = r, its only store
    subtracts d1 from data[r, j], and after the launch the data view holds
    [orig] again while every other cell is unchanged. *)
Theorem detect_restores_single_corruption
    (n : Z) (orig : Z -> Z -> Q) (r j : Z) (e : Q) (s : state) :
  n <= ldc -> n <= 2147483647 -> 0 <= r < n -> 0 <= j < n ->
  (tol < Qabs e)%Q ->
  is_binary64 e = true ->
  is_binary64 (inject_Z (r + 1) * e) = true ->
  is_binary64 (orig r j) = true ->
  (forall i j', 0 <= i < n -> 0 <= j' < n ->
     (dev s (addr C ldc i j')
      == orig i j' + (if (i =? r) && (j' =? j) then e else 0))%Q) ->
  (forall j', 0 <= j' < n ->
     (dev s (chksumC1 + j' * incC1)%Z == sumf n (fun i => 1 * orig i j'))%Q) ->
  (forall j', 0 <= j' < n ->
     (dev s (chksumC2 + j' * incC2)%Z
      == sumf n (fun i => inject_Z (i + 1) * orig i j'))%Q) ->
  (forall j', 0 <= j' < n ->
     (dev s (chkC1 + j' * incC1_2)%Z
      == sumf n (fun i => 1 * dev s (addr C ldc i j')))%Q) ->
  (forall j', 0 <= j' < n ->
     (dev s (chkC2 + j' * incC2_2)%Z
      == sumf n (fun i => inject_Z (i + 1) * dev s (addr C ldc i j')))%Q) ->
  disjointb (view_addrs C ldc n n) (cells n) = true ->
  let s' := launch_1d n thread s in
  (D1 (dev s) j == e)%Q
  /\ (D2 (dev s) j == inject_Z (r + 1) * e)%Q
  /\ c_round (D2 (dev s) j / D1 (dev s) j) - 1 = r
  /\ row_of (dev s) j = r
  /\ (exists delta,
        patches (log s') = patches (log s) ++ [(addr C ldc r j, delta)]
        /\ (delta == - D1 (dev s) j)%Q)
  /\ (forall i j', 0 <= i < n -> 0 <= j' < n ->
        (dev s' (addr C ldc i j') == orig i j')%Q)
  /\ (forall a, a <> addr C ldc r j -> dev s' a = dev s a).
Proof.
  intros Hld Hint Hr Hj He Hfe Hfe2 Hfo Hcur Hs1 Hs2 Hr1 Hr2 Hsep s'.
  apply is_binary64_exact in Hfe, Hfe2, Hfo.
  assert (Htol : (0 < tol)%Q) by reflexivity.
  assert (He0 : ~ (e == 0)%Q).
  { intros E. rewrite E in He. simpl in He. lra. }
  (* discrepancies of every column, before rounding *)
  assert (Hraw1 : forall j', 0 <= j' < n ->
            (dev s (chkC1 + j' * incC1_2)%Z - dev s (chksumC1 + j' * incC1)%Z
             == if j' =? j then e else 0)%Q).
  { intros j' Hj'. rewrite Hr1, Hs1 by assumption.
    rewrite (sumf_ext n (fun i => 1 * dev s (addr C ldc i j'))%Q
               (fun i => 1 * (orig i j' + (if (i =? r) && (j' =? j) then e else 0)))%Q)
      by (intros i Hi; rewrite Hcur by assumption; reflexivity).
    rewrite (sumf_perturbed n r (fun _ => 1%Q) (fun i => orig i j') (j' =? j) e Hr).
    destruct (j' =? j); ring. }
  assert (Hraw2 : forall j', 0 <= j' < n ->
            (dev s (chkC2 + j' * incC2_2)%Z - dev s (chksumC2 + j' * incC2)%Z
             == if j' =? j then inject_Z (r + 1) * e else 0)%Q).
  { intros j' Hj'. rewrite Hr2, Hs2 by assumption.
    rewrite (sumf_ext n (fun i => inject_Z (i + 1) * dev s (addr C ldc i j'))%Q
               (fun i => inject_Z (i + 1)
                         * (orig i j' + (if (i =? r) && (j' =? j) then e else 0)))%Q)
      by (intros i Hi; rewrite Hcur by assumption; reflexivity).
    rewrite (sumf_perturbed n r (fun i => inject_Z (i + 1)) (fun i => orig i j')
               (j' =? j) e Hr).
    destruct (j' =? j); ring. }
  (* the discrepancies as the kernel computes them *)
  assert (HD1 : forall j', 0 <= j' < n ->
            (D1 (dev s) j' == if j' =? j then e else 0)%Q).
  { intros j' Hj'. unfold d1. rewrite (fl64_compat _ _ (Hraw1 j' Hj')).
    destruct (j' =? j); [exact Hfe|reflexivity]. }
  assert (HD2 : forall j', 0 <= j' < n ->
            (D2 (dev s) j' == if j' =? j then inject_Z (r + 1) * e else 0)%Q).
  { intros j' Hj'. unfold d2. rewrite (fl64_compat _ _ (Hraw2 j' Hj')).
    destruct (j' =? j); [exact Hfe2|reflexivity]. }
  pose proof (HD1 j Hj) as E1. rewrite Z.eqb_refl in E1.
  pose proof (HD2 j Hj) as E2. rewrite Z.eqb_refl in E2.
  (* which columns are flagged *)
  assert (Hflag : forall j', 0 <= j' < n -> is_flagged (dev s) j' = (j' =? j)).
  { intros j' Hj'. unfold flagged.
    rewrite (Qgt_bool_compat _ _ tol (Qabs_wd _ _ (HD1 j' Hj'))).
    destruct (j' =? j).
    - apply Qgt_bool_true. exact He.
    - apply Qgt_bool_false. simpl. lra. }
  (* the located row *)
  assert (Hpos : (0 <= inject_Z (r + 1))%Q).
  { change 0%Q with (inject_Z 0). rewrite <- Zle_Qle. lia. }
  assert (Hratio : (D2 (dev s) j / D1 (dev s) j == inject_Z (r + 1))%Q).
  { rewrite E1, E2. field. exact He0. }
  assert (Hratio' : (Qabs (D2 (dev s) j) / Qabs (D1 (dev s) j) == inject_Z (r + 1))%Q).
  { rewrite (Qabs_wd _ _ E1), (Qabs_wd _ _ E2), Qabs_Qmult, (Qabs_pos _ Hpos).
    field. intros E. rewrite E in He. lra. }
  assert (Hrow : row_of (dev s) j = r).
  { unfold located_row. rewrite (fl64_compat _ _ Hratio').
    rewrite (c_round_compat _ _ (fl64_Z (r + 1) ltac:(lia))), c_round_inject.
    unfold c_int. lia. }
  assert (Hpatch : fst (patch_of (dev s) j) = addr C ldc r j).
  { unfold column_patch. simpl. rewrite Hrow. reflexivity. }
  (* the launch *)
  assert (Hout : forall col, 0 <= col < n -> is_flagged (dev s) col = true ->
                   ~ In (fst (patch_of (dev s) col)) (cells n)).
  { intros col Hcol F. rewrite Hflag in F by assumption.
    apply Z.eqb_eq in F. subst col. rewrite Hpatch.
    apply (disjointb_spec _ _ Hsep). apply addr_in_view; assumption. }
  destruct (launch_patches_flagged n s Hout) as [Hlog [Hdev _]].
  fold s' in Hlog, Hdev.
  rewrite (filter_range_single (is_flagged (dev s)) n j Hj Hflag) in Hlog, Hdev.
  simpl in Hlog, Hdev.
  assert (Hdelta : (snd (patch_of (dev s) j) == - D1 (dev s) j)%Q).
  { unfold column_patch, d1. cbn [snd].
    rewrite (fl64_compat
               (dev s (chksumC1 + j * incC1)%Z - dev s (chkC1 + j * incC1_2)%Z)
               (- (dev s (chkC1 + j * incC1_2)%Z - dev s (chksumC1 + j * incC1)%Z)))
      by ring.
    apply fl64_opp. }
  split; [exact E1|]. split; [exact E2|].
  split; [rewrite (c_round_compat _ _ Hratio), c_round_inject; lia|].
  split; [exact Hrow|].
  split; [|split].
  - exists (snd (patch_of (dev s) j)). split; [|exact Hdelta].
    rewrite Hlog, <- Hpatch. destruct (patch_of (dev s) j). reflexivity.
  - intros i j' Hi Hj'. rewrite Hdev. unfold apply_patch. rewrite Hpatch.
    destruct (Z.eq_dec (addr C ldc i j') (addr C ldc r j)) as [Ea|Ea].
    + destruct (addr_inj C ldc n i j' r j Hld Hi Hr Ea) as [-> ->].
      rewrite upd_same.
      rewrite (fl64_compat _ (orig r j)); [exact Hfo|].
      rewrite Hdelta, E1, Hcur by assumption.
      rewrite !Z.eqb_refl. simpl. ring.
    + rewrite upd_other by exact Ea. rewrite Hcur by assumption.
      destruct ((i =? r) && (j' =? j)) eqn:B; [|ring].
      apply andb_true_iff in B. destruct B as [B1 B2].
      apply Z.eqb_eq in B1, B2. subst. contradiction.
  - intros a Ha. rewrite Hdev. unfold apply_patch. rewrite Hpatch.
    apply upd_other. exact Ha.
Qed.

End DetectProps.

(** ** Examples on the 4 x 4 scenario *)

Lemma range_forall (n : Z) (f g : Z -> Q) :
  forallb (fun i => Qeq_bool (f i) (g i)) (range n) = true ->
  forall i, 0 <= i < n -> (f i == g i)%Q.
Proof.
  rewrite forallb_forall. intros H i Hi. apply Qeq_bool_iff. apply H.
  apply in_range. exact Hi.
Qed.

Lemma grid_forall (rows cols : Z) (f g : Z -> Z -> Q) :
  forallb (fun ij => Qeq_bool (f (fst ij) (snd ij)) (g (fst ij) (snd ij)))
          (grid rows cols) = true ->
  forall i j, 0 <= i < rows -> 0 <= j < cols -> (f i j == g i j)%Q.
Proof.
  rewrite forallb_forall. intros H i j Hi Hj. apply Qeq_bool_iff.
  apply (H (i, j)). apply in_grid. lia.
Qed.

Lemma detect_restores_single_corruption_witness :
  let s := initial (scenario_dev 5 0) (fun _ => 0%Q) in
  let s' := scenario_launch 5 0 in
  (Detect.d1 100 1 120 1 (dev s) 1 == 5)%Q
  /\ (Detect.d2 110 1 130 1 (dev s) 1 == 15)%Q
  /\ Detect.located_row 100 1 110 1 120 1 130 1 (dev s) 1 = 2
  /\ (exists delta, Detect.patches (log s') = [(6, delta)] /\ (delta == - (5))%Q)
  /\ (forall i j, 0 <= i < 4 -> 0 <= j < 4 ->
        (dev s' (addr 0 4 i j) == identity4 i j)%Q).
Proof.
  intros s s'.
  destruct (detect_restores_single_corruption 0 4 100 1 110 1 120 1 130 1
              4 identity4 2 1 5 s) as [H1 [H2 [_ [H3 [[delta [H4 H4']] [H5 _]]]]]].
  - lia.
  - lia.
  - lia.
  - lia.
  - reflexivity.
  - vm_compute. reflexivity.
  - vm_compute. reflexivity.
  - vm_compute. reflexivity.
  - apply (grid_forall 4 4 (fun i j' => dev s (addr 0 4 i j'))
             (fun i j' => identity4 i j' + (if (i =? 2) && (j' =? 1) then 5 else 0))%Q).
    vm_compute. reflexivity.
  - apply (range_forall 4 (fun j' => dev s (100 + j' * 1))
             (fun j' => sumf 4 (fun i => 1 * identity4 i j'))%Q).
    vm_compute. reflexivity.
  - apply (range_forall 4 (fun j' => dev s (110 + j' * 1))
             (fun j' => sumf 4 (fun i => inject_Z (i + 1) * identity4 i j'))%Q).
    vm_compute. reflexivity.
  - apply (range_forall 4 (fun j' => dev s (120 + j' * 1))
             (fun j' => sumf 4 (fun i => 1 * dev s (addr 0 4 i j')))%Q).
    vm_compute. reflexivity.
  - apply (range_forall 4 (fun j' => dev s (130 + j' * 1))
             (fun j' => sumf 4 (fun i => inject_Z (i + 1) * dev s (addr 0 4 i j')))%Q).
    vm_compute. reflexivity.
  - vm_compute. reflexivity.
  - split; [exact H1|]. split; [rewrite H2; reflexivity|]. split; [exact H3|].
    split; [|exact H5].
    exists delta. split; [exact H4|]. rewrite H4', H1. reflexivity.
Defined.

(** C2, counterexample: the 4 x 4 matrix whose only nonzero entry is the
    double 0.1 at (1,1), that entry overwritten by the double 1.1.  The
    stored checksums are the exact sums of the original, the recomputed ones
    the exact sums of the data, and all of them are binary64 values.  Column 1
    is flagged and row 1 located, but the subtraction 1.1 - 0.1 rounds to
    1, which is not the error: the store leaves 1.1 - 1 in entry (1,1),
    which is not the double 0.1. *)
Lemma detect_rounded_discrepancy_not_restored :
  let s := initial overwritten_dev (fun _ => 0%Q) in
  let s' := overwritten_launch in
  let e := (double_1_1 - double_0_1)%Q in
  (forall i j, 0 <= i < 4 -> 0 <= j < 4 ->
     (dev s (addr 0 4 i j)
      == tenth4 i j + (if (i =? 1) && (j =? 1) then e else 0))%Q)
  /\ (forall j, 0 <= j < 4 ->
        (dev s (100 + j * 1)%Z == sumf 4 (fun i => 1 * tenth4 i j))%Q
        /\ (dev s (110 + j * 1)%Z == sumf 4 (fun i => inject_Z (i + 1) * tenth4 i j))%Q
        /\ (dev s (120 + j * 1)%Z == sumf 4 (fun i => 1 * dev s (addr 0 4 i j)))%Q
        /\ (dev s (130 + j * 1)%Z
             == sumf 4 (fun i => inject_Z (i + 1) * dev s (addr 0 4 i j)))%Q)
  /\ is_binary64 double_0_1 = true /\ is_binary64 double_1_1 = true
  /\ Detect.flagged 100 1 120 1 (dev s) 1 = true
  /\ (Detect.d1 100 1 120 1 (dev s) 1 == 1)%Q
  /\ ~ (Detect.d1 100 1 120 1 (dev s) 1 == e)%Q
  /\ Detect.located_row 100 1 110 1 120 1 130 1 (dev s) 1 = 1
  /\ (exists delta, Detect.patches (log s') = [(addr 0 4 1 1, delta)]
                    /\ (delta == - (1))%Q)
  /\ (dev s' (addr 0 4 1 1) == double_1_1 - 1)%Q
  /\ ~ (dev s' (addr 0 4 1 1) == tenth4 1 1)%Q.
Proof.
  intros s s' e.
  split.
  { apply (grid_forall 4 4 (fun i j => dev s (addr 0 4 i j))
             (fun i j => tenth4 i j + (if (i =? 1) && (j =? 1) then e else 0))%Q).
    vm_compute. reflexivity. }
  split.
  { intros j Hj. repeat split.
    - apply (range_forall 4 (fun j => dev s (100 + j * 1))
               (fun j => sumf 4 (fun i => 1 * tenth4 i j))%Q);
        [vm_compute; reflexivity|exact Hj].
    - apply (range_forall 4 (fun j => dev s (110 + j * 1))
               (fun j => sumf 4 (fun i => inject_Z (i + 1) * tenth4 i j))%Q);
        [vm_compute; reflexivity|exact Hj].
    - apply (range_forall 4 (fun j => dev s (120 + j * 1))
               (fun j => sumf 4 (fun i => 1 * dev s (addr 0 4 i j)))%Q);
        [vm_compute; reflexivity|exact Hj].
    - apply (range_forall 4 (fun j => dev s (130 + j * 1))
               (fun j => sumf 4 (fun i => inject_Z (i + 1) * dev s (addr 0 4 i j)))%Q);
        [vm_compute; reflexivity|exact Hj]. }
  split; [vm_compute; reflexivity|]. split; [vm_compute; reflexivity|].
  split; [vm_compute; reflexivity|]. split; [vm_compute; reflexivity|].
  split; [vm_compute; discriminate|]. split; [vm_compute; reflexivity|].
  split; [eexists; split; [vm_compute; reflexivity|reflexivity]|].
  split; [vm_compute; reflexivity|vm_compute; discriminate].
Qed.

(** C4, counterexample: entry (2,1) corrupted by 5 and entry (0,3) by 2.
    Columns 1 and 3 both disagree with their stored checksums by more than
    0.1; the launch reports nothing and applies a correction to each. *)
Lemma detect_two_columns_both_patched :
  let s := initial (scenario_dev 5 2) (fun _ => 0%Q) in
  let s' := scenario_launch 5 2 in
  filter (Detect.flagged 100 1 120 1 (dev s)) (range 4) = [1; 3]
  /\ Detect.patches (log s') = [(6, (-5)%Q); (12, (-2)%Q)]
  /\ ~ (dev s' 6%Z == dev s 6%Z)%Q /\ ~ (dev s' 12%Z == dev s 12%Z)%Q.
Proof.
  vm_compute. repeat split; try reflexivity; discriminate.
Qed.

Lemma detect_patches_every_flagged_column_witness :
  Detect.patches (log (scenario_launch 5 2)) = [(6, (-5)%Q); (12, (-2)%Q)].
Proof.
  destruct (detect_patches_every_flagged_column 0 4 100 1 110 1 120 1 130 1 4
              (initial (scenario_dev 5 2) (fun _ => 0%Q))) as [H _].
  - intros col Hcol _.
    assert (Hc : col = 0 \/ col = 1 \/ col = 2 \/ col = 3) by lia.
    destruct Hc as [->|[->|[->| ->]]]; vm_compute; intuition discriminate.
  - unfold scenario_launch. rewrite H. vm_compute. reflexivity.
Defined.

Lemma detect_small_d1_is_silent_witness :
  let s := initial (scenario_dev (1 # 16) 0) (fun _ => 0%Q) in
  Detect.detectAndCorrectForSyrk 0 4 100 1 110 1 120 1 130 1 1 s = s.
Proof.
  intros s.
  apply (detect_small_d1_is_silent 0 4 100 1 110 1 120 1 130 1 1 s).
  vm_compute. discriminate.
Defined.

(** ** The triangular solve is linear in its right-hand side *)

Lemma trsm_step_compat (L L' : Z -> Z -> Q) (n k : Z) (x x' : Z -> Q) :
  (forall t c, 0 <= c <= t -> t < n -> (L t c == L' t c)%Q) ->
  (forall t, 0 <= t < n -> (x t == x' t)%Q) ->
  0 <= k < n ->
  forall t, 0 <= t < n -> (trsm_step L n k x t == trsm_step L' n k x' t)%Q.
Proof.
  intros HL Hx Hk t Ht. unfold trsm_step.
  destruct (t =? k) eqn:E.
  - rewrite (Hx k Hk), (HL k k) by lia. reflexivity.
  - destruct ((k <? t) && (t <? n)) eqn:B.
    + apply andb_true_iff in B. destruct B as [B1 B2].
      apply Z.ltb_lt in B1, B2.
      rewrite (Hx k Hk), (Hx t Ht), (HL k k), (HL t k) by lia. reflexivity.
    + apply Hx. exact Ht.
Qed.

Lemma trsm_upto_compat (L L' : Z -> Z -> Q) (n : Z) (x x' : Z -> Q) (k : nat) :
  (forall t c, 0 <= c <= t -> t < n -> (L t c == L' t c)%Q) ->
  (forall t, 0 <= t < n -> (x t == x' t)%Q) ->
  Z.of_nat k <= n ->
  forall t, 0 <= t < n ->
    (for_upto k (trsm_step L n) x t == for_upto k (trsm_step L' n) x' t)%Q.
Proof.
  intros HL Hx. induction k as [|k IH]; intros Hk t Ht.
  - simpl. apply Hx. exact Ht.
  - cbn [for_upto]. apply trsm_step_compat; try assumption; try lia.
    intros t' Ht'. apply IH; lia.
Qed.

Lemma trsm_row_compat (L L' : Z -> Z -> Q) (n : Z) (x x' : Z -> Q) :
  (forall t c, 0 <= c <= t -> t < n -> (L t c == L' t c)%Q) ->
  (forall t, 0 <= t < n -> (x t == x' t)%Q) ->
  forall t, 0 <= t < n -> (trsm_row L n x t == trsm_row L' n x' t)%Q.
Proof.
  intros HL Hx t Ht. unfold trsm_row, for_loop.
  apply trsm_upto_compat; try assumption. lia.
Qed.

Lemma trsm_step_linear (L : Z -> Z -> Q) (n k m : Z) (w : Z -> Q)
    (X : Z -> Z -> Q) (y : Z -> Q) :
  (forall t, (y t == sumf m (fun i => w i * X i t))%Q) ->
  forall t, (trsm_step L n k y t
             == sumf m (fun i => w i * trsm_step L n k (X i) t))%Q.
Proof.
  intros Hy t. unfold trsm_step. destruct (t =? k).
  - rewrite Hy.
    rewrite (sumf_ext m (fun i => w i * (X i k / L k k))%Q
               (fun i => w i * X i k * / L k k)%Q)
      by (intros; unfold Qdiv; ring).
    rewrite sumf_scal_r. unfold Qdiv. reflexivity.
  - destruct ((k <? t) && (t <? n)).
    + rewrite (Hy t), (Hy k).
      rewrite (sumf_ext m (fun i => w i * (X i t - X i k / L k k * L t k))%Q
                 (fun i => w i * X i t + w i * X i k * (- (/ L k k * L t k)))%Q)
        by (intros; unfold Qdiv; ring).
      rewrite sumf_plus, sumf_scal_r. unfold Qdiv. ring.
    + apply Hy.
Qed.

Lemma trsm_upto_linear (L : Z -> Z -> Q) (n m : Z) (w : Z -> Q)
    (X : Z -> Z -> Q) (k : nat) :
  forall t,
    (for_upto k (trsm_step L n) (fun c => sumf m (fun i => w i * X i c)) t
     == sumf m (fun i => w i * for_upto k (trsm_step L n) (X i) t))%Q.
Proof.
  induction k as [|k IH]; intros t.
  - reflexivity.
  - cbn [for_upto].
    apply (trsm_step_linear L n (Z.of_nat k) m w
             (fun i => for_upto k (trsm_step L n) (X i))). exact IH.
Qed.

(** Solving a weighted sum of rows gives the weighted sum of the solved
    rows. *)
Lemma trsm_row_linear (L : Z -> Z -> Q) (n m : Z) (w : Z -> Q) (X : Z -> Z -> Q) :
  forall t,
    (trsm_row L n (fun c => sumf m (fun i => w i * X i c)) t
     == sumf m (fun i => w i * trsm_row L n (X i) t))%Q.
Proof. intros t. unfold trsm_row, for_loop. apply trsm_upto_linear. Qed.

(** ** dtrsmFT *)

Lemma dtrsm_RLTN_get m n alpha A lda B ldb (mm : mem) i j :
  m <= ldb -> 0 <= i < m -> 0 <= j < n ->
  dtrsm_RLTN m n alpha A lda B ldb mm (addr B ldb i j)
  = (alpha * trsm_row (fun r c => mm (addr A lda r c)) n
                      (fun c => mm (addr B ldb i c)) j)%Q.
Proof.
  intros. unfold dtrsm_RLTN.
  apply (write_view_get B ldb m n
           (fun i j => (alpha * trsm_row (fun r c => mm (addr A lda r c)) n
                                         (fun c => mm (addr B ldb i c)) j)%Q));
    assumption.
Qed.

Lemma dtrsm_RLTN_frame m n alpha A lda B ldb (mm : mem) a :
  ~ In a (view_addrs B ldb m n) ->
  dtrsm_RLTN m n alpha A lda B ldb mm a = mm a.
Proof.
  intros H. unfold dtrsm_RLTN.
  apply (write_view_frame B ldb m n
           (fun i j => (alpha * trsm_row (fun r c => mm (addr A lda r c)) n
                                         (fun c => mm (addr B ldb i c)) j)%Q)).
  exact H.
Qed.

(** The stepped loop terminates for a positive step and maintains any
    invariant of its body. *)
Lemma for_step_inv (P : state -> Prop) (m n : Z) (body : Z -> cmd) :
  1 <= n ->
  (forall i s, 0 <= i < m -> P s -> P (body i s)) ->
  forall fuel i s, 0 <= i -> P s -> (Z.to_nat (m - i) <= fuel)%nat ->
    exists s', DtrsmFT.for_step fuel i m n body s = Some s' /\ P s'.
Proof.
  intros Hn Hbody. induction fuel as [|fuel IH]; intros i s Hi HP Hf.
  - simpl. destruct (i <? m) eqn:E; [apply Z.ltb_lt in E; lia|].
    exists s. auto.
  - simpl. destruct (i <? m) eqn:E.
    + apply Z.ltb_lt in E. apply IH; [lia| |lia]. apply Hbody; [lia|exact HP].
    + exists s. auto.
Qed.

Section DtrsmProps.

Import DtrsmFT.

Variables m n A lda B ldb checksumB checksumB_ld : Z.
Variables vd vd_ld chk1 chk1_ld chk2 chk2_ld work work_ld : Z.
Variables stream1 stream2 stream3 : magma_queue_t.

Local Abbreviation blocks := (Z.quot (m - 1) n + 1).
Local Abbreviation scratch :=
  (view_addrs chk1 chk1_ld blocks n ++ view_addrs chk2 chk2_ld blocks n).
Local Abbreviation rA := (view_addrs A lda n n).
Local Abbreviation rB := (view_addrs B ldb m n).
Local Abbreviation R := (Z.quot m n * 2).

Lemma block_row_in_scratch (i j : Z) :
  1 <= n -> 0 <= i < m -> 0 <= j < n ->
  In (chk1 + Z.quot i n + j * chk1_ld) scratch
  /\ In (chk2 + Z.quot i n + j * chk2_ld) scratch.
Proof.
  intros Hn Hi Hj.
  assert (Hq : 0 <= Z.quot i n < blocks).
  { split; [apply Z.quot_pos; lia|].
    assert (Z.quot i n <= Z.quot (m - 1) n) by (apply Z.quot_le_mono; lia). lia. }
  split; apply in_or_app; [left|right];
    apply (addr_in_view _ _ blocks n (Z.quot i n) j); assumption.
Qed.

Lemma verify_before_spec (DEBUG : bool) (s : state) :
  1 <= n ->
  disjointb scratch (rA ++ rB) = true ->
  exists s1,
    verify_before m n B ldb checksumB checksumB_ld vd vd_ld
                  chk1 chk1_ld chk2 chk2_ld stream1 DEBUG s = Some s1
    /\ agree_on (rA ++ rB) (dev s1) (dev s)
    /\ host s1 = host s
    /\ kernel_stream s1 = stream1
    /\ exists l, log s1 = log s ++ l.
Proof.
  intros Hn Hsep. unfold verify_before.
  set (P := fun x : state =>
              agree_on (rA ++ rB) (dev x) (dev s) /\ host x = host s
              /\ kernel_stream x = stream1 /\ exists l, log x = log s ++ l).
  destruct (for_step_inv P m n
              (fun i =>
                 (magma_dgemv_v1 MagmaTrans n n MAGMA_D_ONE (B + i) ldb vd vd_ld
                                 MAGMA_D_ZERO (chk1 + Z.quot i n) chk1_ld ;;
                  magma_dgemv_v1 MagmaTrans n n MAGMA_D_ONE (B + i) ldb (vd + 1) vd_ld
                                 MAGMA_D_ZERO (chk2 + Z.quot i n) chk2_ld)%cmd)
              Hn) with (fuel := Z.to_nat m) (i := 0)
              (s := magmablasSetKernelStream stream1 s)
    as [s1 [E [Hag [Hh [Hk [l Hl]]]]]].
  - intros i x Hi [Hag [Hh [Hk [l Hl]]]]. unfold P. simpl.
    split; [|split; [exact Hh|split; [exact Hk|]]].
    + intros a Ha. pose proof (disjointb_spec_r _ _ Hsep a Ha) as Hout.
      rewrite !cublasDgemv_frame; [apply Hag; exact Ha| |]; simpl;
        intros X; apply in_vec_addrs in X; destruct X as [j [Hj ->]];
        apply Hout; apply (block_row_in_scratch i j Hn Hi Hj).
    + rewrite Hl. rewrite <- !app_assoc. eexists. reflexivity.
  - lia.
  - unfold P. simpl. split; [intros a _; reflexivity|].
    split; [reflexivity|]. split; [reflexivity|]. eexists. reflexivity.
  - lia.
  - rewrite E. simpl. eexists. split; [reflexivity|].
    destruct DEBUG; simpl.
    + split; [exact Hag|]. split; [exact Hh|]. split; [reflexivity|].
      rewrite Hl, <- !app_assoc. eexists. reflexivity.
    + split; [exact Hag|]. split; [exact Hh|]. split; [reflexivity|].
      rewrite Hl, <- !app_assoc. eexists. reflexivity.
Qed.

(** C6 (as the code has it): with FT enabled the routine issues the solve on
    B (device) and then exactly one small solve with the same flags (right,
    lower, transposed, non-unit, alpha = 1) on the (m/n)*2 checksum rows
    (host), against the factor stored in the host buffer [work].  Each
    checksum row becomes the row solve of its old value.  When the lower
    triangle of [work] equals that of A, and the checksum rows are weighted
    sums of the rows of B (for any weights W), they are afterwards the same
    weighted sums of the rows of the solved B. *)
Theorem dtrsmFT_checksum_solve (W : Z -> Z -> Q) (DEBUG VERIFY : bool) (s : state) :
  1 <= n -> m <= ldb -> R <= checksumB_ld ->
  disjointb scratch (rA ++ rB) = true ->
  (forall t c, 0 <= c <= t -> t < n ->
     (host s (addr work work_ld t c) == dev s (addr A lda t c))%Q) ->
  (forall r c, 0 <= r < R -> 0 <= c < n ->
     (host s (addr checksumB checksumB_ld r c)
      == sumf m (fun i => W r i * dev s (addr B ldb i c)))%Q) ->
  exists s' pre,
    dtrsmFT m n A lda B ldb checksumB checksumB_ld vd vd_ld
            chk1 chk1_ld chk2 chk2_ld work work_ld
            stream1 stream2 stream3 true DEBUG VERIFY s = Some s'
    /\ log s'
       = log s ++ pre
         ++ [EvTrsm Device (if VERIFY then stream1 else kernel_stream s)
                    MagmaRight MagmaLower MagmaTrans MagmaNonUnit
                    m n 1%Q A lda B ldb;
             EvTrsm Host 0 MagmaRight MagmaLower MagmaTrans MagmaNonUnit
                    R n 1%Q work work_ld checksumB checksumB_ld]
    /\ forall r c, 0 <= r < R -> 0 <= c < n ->
         host s' (addr checksumB checksumB_ld r c)
         = (1 * trsm_row (fun t c' => host s (addr work work_ld t c')) n
                         (fun c' => host s (addr checksumB checksumB_ld r c')) c)%Q
         /\ (host s' (addr checksumB checksumB_ld r c)
             == sumf m (fun i => W r i * dev s' (addr B ldb i c)))%Q.
Proof.
  intros Hn Hldb Hldc Hsep Hwork Henc.
  assert (Hs1 : exists s1,
            (if true && VERIFY
             then verify_before m n B ldb checksumB checksumB_ld vd vd_ld
                                chk1 chk1_ld chk2 chk2_ld stream1 DEBUG s
             else Some s) = Some s1
            /\ agree_on (rA ++ rB) (dev s1) (dev s)
            /\ host s1 = host s
            /\ kernel_stream s1 = (if VERIFY then stream1 else kernel_stream s)
            /\ exists l, log s1 = log s ++ l).
  { destruct VERIFY; simpl.
    - apply verify_before_spec; assumption.
    - exists s. split; [reflexivity|]. split; [intros a _; reflexivity|].
      split; [reflexivity|]. split; [reflexivity|].
      exists []. rewrite app_nil_r. reflexivity. }
  destruct Hs1 as [s1 [E1 [Hag [Hh [Hk [pre Hl]]]]]].
  apply agree_on_app in Hag. destruct Hag as [HagA HagB].
  eexists. exists pre. unfold dtrsmFT. rewrite E1. simpl.
  split; [reflexivity|]. split.
  - cbn [log dev host kernel_stream]. rewrite Hl, Hk.
    cbn [log dev host kernel_stream]. rewrite <- !app_assoc. reflexivity.
  - intros r c Hr Hc. cbn [log dev host kernel_stream]. rewrite Hh.
    rewrite dtrsm_RLTN_get by assumption. split; [reflexivity|].
    rewrite (sumf_ext m
               (fun i => W r i * dtrsm_RLTN m n 1 A lda B ldb (dev s1) (addr B ldb i c))%Q
               (fun i => W r i * trsm_row (fun t c' => dev s (addr A lda t c')) n
                                          (fun c' => dev s (addr B ldb i c')) c)%Q).
    2:{ intros i Hi. rewrite dtrsm_RLTN_get by assumption.
        rewrite (trsm_row_compat
                   (fun t c' => dev s1 (addr A lda t c'))
                   (fun t c' => dev s (addr A lda t c')) n
                   (fun c' => dev s1 (addr B ldb i c'))
                   (fun c' => dev s (addr B ldb i c'))).
        - ring.
        - intros t c' H1 H2. rewrite HagA by (apply addr_in_view; lia). reflexivity.
        - intros t Ht. rewrite HagB by (apply addr_in_view; lia). reflexivity.
        - exact Hc. }
    rewrite <- (trsm_row_linear (fun t c' => dev s (addr A lda t c')) n m (W r)
                  (fun i c' => dev s (addr B ldb i c')) c).
    rewrite (trsm_row_compat
               (fun t c' => host s (addr work work_ld t c'))
               (fun t c' => dev s (addr A lda t c')) n
               (fun c' => host s (addr checksumB checksumB_ld r c'))
               (fun c' => sumf m (fun i => W r i * dev s (addr B ldb i c'))%Q)).
    + ring.
    + exact Hwork.
    + intros t Ht. apply Henc; assumption.
    + exact Hc.
Qed.

End DtrsmProps.

(** ** Examples on the 2 x 2 solve *)

Lemma dtrsmFT_checksum_solve_witness :
  exists s',
    trsm_example_run [2; 1; 9; 1]%Q true = Some s'
    /\ (host s' 10%Z == Encode_col (spec_weights 2) 2 (dev s') 10 2 0 0)%Q
    /\ (host s' 13%Z == Encode_col (spec_weights 2) 2 (dev s') 10 2 1 1)%Q.
Proof.
  destruct (dtrsmFT_checksum_solve 2 2 0 2 10 2 10 2 40 2 20 1 30 1 0 2 1 2 3
              (spec_weights 2) false true (trsm_example [2; 1; 9; 1]%Q))
    as [s' [pre [E [_ H]]]].
  - lia.
  - lia.
  - vm_compute. discriminate.
  - vm_compute. reflexivity.
  - intros t c H1 H2.
    assert (Hc : (t = 0 /\ c = 0) \/ (t = 1 /\ c = 0) \/ (t = 1 /\ c = 1)) by lia.
    destruct Hc as [[-> ->]|[[-> ->]|[-> ->]]]; vm_compute; reflexivity.
  - apply (grid_forall 2 2
             (fun r c => host (trsm_example [2; 1; 9; 1]%Q) (addr 10 2 r c))
             (fun r c => sumf 2 (fun i => spec_weights 2 r i
                                 * dev (trsm_example [2; 1; 9; 1]%Q) (addr 10 2 i c))%Q)).
    vm_compute. reflexivity.
  - exists s'. split; [exact E|]. split.
    + exact (proj2 (H 0 0 ltac:(vm_compute; split; [discriminate|reflexivity])
                          ltac:(vm_compute; split; [discriminate|reflexivity]))).
    + exact (proj2 (H 1 1 ltac:(vm_compute; split; [discriminate|reflexivity])
                          ltac:(vm_compute; split; [discriminate|reflexivity]))).
Defined.

(** C6, counterexample: the same call with the identity in [work].  The
    checksum block holds the checksums of B on entry; the data are solved
    against A = [2 0; 1 1] but the checksum rows against [work], so the
    stored checksum 6 of column 0 no longer matches the column sum 3 of the
    solved B. *)
Lemma dtrsmFT_solves_checksums_against_work :
  let s := trsm_example [1; 0; 0; 1]%Q in
  forallb (fun rc => Qeq_bool (host s (addr 10 2 (fst rc) (snd rc)))
                                 (Encode_col (spec_weights 2) 2 (dev s) 10 2
                                             (fst rc) (snd rc)))
             (grid 2 2) = true
  /\ ~ (host s (addr 0 2 0 0) == dev s (addr 0 2 0 0))%Q
  /\ exists s',
       trsm_example_run [1; 0; 0; 1]%Q false = Some s'
       /\ log s' = [EvTrsm Device 0 MagmaRight MagmaLower MagmaTrans MagmaNonUnit
                           2 2 1%Q 0 2 10 2;
                    EvTrsm Host 0 MagmaRight MagmaLower MagmaTrans MagmaNonUnit
                           2 2 1%Q 0 2 10 2]
       /\ (host s' 10%Z == 6)%Q
       /\ (Encode_col (spec_weights 2) 2 (dev s') 10 2 0 0 == 3)%Q.
Proof.
  vm_compute. split; [reflexivity|].
  split; [discriminate|]. eexists. split; [reflexivity|].
  vm_compute. repeat split; reflexivity.
Qed.

(** ** dpotrfFT *)

Lemma blas_daxpy_frame n alpha x incx y incy (mm : mem) a :
  ~ In a (vec_addrs y incy n) -> blas_daxpy n alpha x incx y incy mm a = mm a.
Proof.
  intros H. unfold blas_daxpy. apply write_cells_frame. rewrite map_map. exact H.
Qed.

Lemma blas_daxpy_get n alpha x incx y incy (mm : mem) t :
  incy <> 0 -> 0 <= t < n ->
  blas_daxpy n alpha x incx y incy mm (y + t * incy)
  = (mm (y + t * incy)%Z + alpha * mm (x + t * incx)%Z)%Q.
Proof.
  intros Hinc Ht. unfold blas_daxpy. apply write_cells_get.
  - apply in_map_iff. exists t. split; [reflexivity|apply in_range; exact Ht].
  - intros c Hc E. apply in_map_iff in Hc. destruct Hc as [t' [<- Ht']].
    simpl in *. assert (t' = t) by nia. subst. reflexivity.
Qed.



Lemma for_loop_max {S : Type} (n : Z) (body : Z -> S -> S) (s : S) :
  for_loop (Z.max 0 n) body s = for_loop n body s.
Proof. unfold for_loop. f_equal. lia. Qed.

Section DpotrfProps.

Import DpotrfFT.

Variable lapack_dpotrf : magma_uplo_t -> Z -> Z -> Z -> mem -> mem * Z.
Variable detect_host :
  Z -> Z -> Z -> Z -> Z -> Z -> Z -> (Z -> Q) -> Z -> (Z -> Q) -> Z -> mem -> mem.

Variables A n chksum chksum_ld : Z.

Local Abbreviation cell off t := (chksum + off + t * chksum_ld).
Local Abbreviation row_cells off := (vec_addrs (chksum + off) chksum_ld n).
Local Abbreviation rA := (view_addrs A n n n).

Lemma update_chksum1_at (i : Z) (s : state) :
  update_chksum1 A n n chksum chksum_ld i s
  = update_chksum_at 0 A n n chksum chksum_ld i s.
Proof.
  unfold update_chksum1, update_chksum_at. rewrite !Z.add_0_r. reflexivity.
Qed.

Lemma update_chksum2_at (i : Z) (s : state) :
  update_chksum2 A n n chksum chksum_ld i s
  = update_chksum_at 1 A n n chksum chksum_ld i s.
Proof. reflexivity. Qed.

(** One iteration of the loop body, with the addresses in row/column form. *)
Lemma update_chksum_at_step (off i : Z) (x : state) :
  0 <= i < n ->
  let q := (host x (cell off i) / host x (addr A n i i))%Q in
  let st := update_chksum_at off A n n chksum chksum_ld i x in
  host st = blas_daxpy (n - i - 1) ((-1) * q)%Q (addr A n (i + 1) i) 1
                       (cell off (i + 1)) chksum_ld
                       (upd (host x) (cell off i) q)
  /\ dev st = dev x
  /\ log st = log x ++ [EvChkScale i (chksum + i * chksum_ld + off)
                                   (host x (addr A n i i));
                        EvAxpy (n - i - 1) ((-1) * q)%Q (addr A n (i + 1) i) 1
                               (cell off (i + 1)) chksum_ld].
Proof.
  intros Hi q st. subst q st. unfold update_chksum_at, get.
  assert (E : (n <? i) || (n <? i) = false).
  { apply orb_false_iff. split; apply Z.ltb_ge; lia. }
  rewrite E. unfold when, skip. cbn [fst snd].
  replace (A + i * n + i + 1) with (addr A n (i + 1) i) by (unfold addr; lia).
  replace (A + i * n + i) with (addr A n i i) by (unfold addr; lia).
  unfold blasf77_daxpy, emit, on_host. cbn [dev host log kernel_stream].
  rewrite upd_same.
  replace (chksum + i * chksum_ld + off) with (cell off i) by lia.
  split; [reflexivity|]. split; [reflexivity|].
  rewrite <- app_assoc. reflexivity.
Qed.

Lemma cell_in_row (off t : Z) : 0 <= t < n -> In (cell off t) (row_cells off).
Proof. intros H. apply in_vec_addrs. exists t. auto. Qed.

Lemma cell_inj (off t t' : Z) :
  chksum_ld <> 0 -> cell off t = cell off t' -> t = t'.
Proof. intros H E. nia. Qed.

(** The loop over the columns performs, on the checksum row at offset
    [off], the row solve against the factor found in A. *)
Lemma update_loop_spec (off : Z) (s0 : state) :
  chksum_ld <> 0 ->
  disjointb (row_cells off) rA = true ->
  let st := for_loop n (update_chksum_at off A n n chksum chksum_ld) s0 in
  let L := fun r c => host s0 (addr A n r c) in
  let x0 := fun t => host s0 (cell off t) in
  (forall t, 0 <= t < n -> (host st (cell off t) == trsm_row L n x0 t)%Q)
  /\ (forall a, ~ In a (row_cells off) -> host st a = host s0 a)
  /\ dev st = dev s0
  /\ exists l, log st = log s0 ++ l /\ existsb is_potrf l = false.
Proof.
  intros Hld Hsep st L x0. subst st.
  assert (HA : forall r c, 0 <= r < n -> 0 <= c < n ->
                 ~ In (addr A n r c) (row_cells off)).
  { intros r c Hr Hc. apply (disjointb_spec_r _ _ Hsep).
    apply addr_in_view; assumption. }
  assert (Hind :
    (fun i x =>
       (forall t, 0 <= t < n ->
          (host x (cell off t) == for_loop i (trsm_step L n) x0 t)%Q)
       /\ (forall a, ~ In a (row_cells off) -> host x a = host s0 a)
       /\ dev x = dev s0
       /\ exists l, log x = log s0 ++ l /\ existsb is_potrf l = false)
      (Z.max 0 n) (for_loop n (update_chksum_at off A n n chksum chksum_ld) s0)).
  { apply for_loop_ind.
    - split; [intros t _; reflexivity|]. split; [reflexivity|].
      split; [reflexivity|]. exists []. rewrite app_nil_r. auto.
    - intros i x Hi [I1 [I2 [I3 [l [I4 I5]]]]].
      destruct (update_chksum_at_step off i x Hi) as [Eh [Ed El]].
      cbv zeta in Eh, El.
      split; [|split; [|split]].
      + intros t Ht. rewrite Eh, for_loop_succ by lia.
        unfold trsm_step at 1.
        destruct (t =? i) eqn:Eti.
        * apply Z.eqb_eq in Eti. subst t.
          rewrite blas_daxpy_frame.
          -- rewrite upd_same, (I1 i Hi), (I2 _ (HA i i Hi Hi)). reflexivity.
          -- intros X. apply in_vec_addrs in X. destruct X as [t' [Ht' X]].
             assert (i = i + 1 + t') by (apply (cell_inj off); [exact Hld|lia]).
             lia.
        * apply Z.eqb_neq in Eti.
          destruct ((i <? t) && (t <? n)) eqn:B.
          -- apply andb_true_iff in B. destruct B as [B1 B2].
             apply Z.ltb_lt in B1, B2.
             replace (cell off t) with (cell off (i + 1) + (t - i - 1) * chksum_ld)
               by lia.
             rewrite blas_daxpy_get by lia.
             replace (cell off (i + 1) + (t - i - 1) * chksum_ld) with (cell off t)
               by lia.
             replace (addr A n (i + 1) i + (t - i - 1) * 1) with (addr A n t i)
               by (unfold addr; lia).
             rewrite !upd_other.
             ++ rewrite (I1 t Ht), (I1 i Hi).
                rewrite (I2 _ (HA i i Hi Hi)), (I2 _ (HA t i Ht Hi)).
                unfold L. ring.
             ++ intros X. apply (HA t i Ht Hi). rewrite X. apply cell_in_row. exact Hi.
             ++ intros X. apply Eti. apply (cell_inj off); assumption.
          -- rewrite blas_daxpy_frame.
             ++ rewrite upd_other; [apply I1; exact Ht|].
                intros X. apply Eti. apply (cell_inj off); assumption.
             ++ intros X. apply in_vec_addrs in X. destruct X as [t' [Ht' X]].
                assert (t = i + 1 + t') by (apply (cell_inj off); [exact Hld|lia]).
                apply andb_false_iff in B.
                destruct B as [B|B]; apply Z.ltb_ge in B; lia.
      + intros a Ha. rewrite Eh. rewrite blas_daxpy_frame.
        * rewrite upd_other; [apply I2; exact Ha|].
          intros X. apply Ha. rewrite X. apply cell_in_row. exact Hi.
        * intros X. apply Ha. apply in_vec_addrs in X. destruct X as [t' [Ht' X]].
          replace a with (cell off (i + 1 + t')) by lia.
          apply cell_in_row. lia.
      + rewrite Ed. exact I3.
      + rewrite El, I4. eexists. rewrite <- app_assoc. split; [reflexivity|].
        rewrite existsb_app, I5. reflexivity. }
  cbv beta in Hind. rewrite for_loop_max in Hind. exact Hind.
Qed.

Lemma for_loop_ext {S : Type} (k : Z) (f g : Z -> S -> S) (s : S) :
  (forall i x, f i x = g i x) -> for_loop k f s = for_loop k g s.
Proof.
  intros H. unfold for_loop. induction (Z.to_nat k) as [|j IH]; [reflexivity|].
  cbn [for_upto]. rewrite IH. apply H.
Qed.

Lemma rows_disjoint (t t' : Z) :
  2 <= chksum_ld -> 0 <= t < n -> ~ In (cell 0 t) (row_cells 1) /\ ~ In (cell 1 t) (row_cells 0).
Proof.
  intros Hld Ht. split; intros X; apply in_vec_addrs in X;
    destruct X as [u [Hu X]];
    assert (Hc : t - u >= 1 \/ t - u <= -1 \/ t - u = 0) by lia;
    destruct Hc as [Hc|[Hc|Hc]]; nia.
Qed.

Lemma row_cells_sep (off : Z) :
  0 <= off < 2 ->
  disjointb (view_addrs chksum chksum_ld 2 n) rA = true ->
  disjointb (row_cells off) rA = true.
Proof.
  intros Hoff H. apply disjointb_intro. intros a Ha.
  apply (disjointb_spec _ _ H). apply in_vec_addrs in Ha.
  destruct Ha as [t [Ht ->]]. apply (addr_in_view chksum chksum_ld 2 n off t); lia.
Qed.

(** Both checksum rows after the checksum stage, from the state [sf] in
    which the factorization returned. *)
Lemma checksum_stage_rows (DEBUG : bool) (sf : state) :
  2 <= chksum_ld ->
  disjointb (view_addrs chksum chksum_ld 2 n) rA = true ->
  let c := checksum_stage A n n chksum chksum_ld DEBUG sf in
  (forall off t, 0 <= off < 2 -> 0 <= t < n ->
     (host (snd c) (cell off t)
      == trsm_row (fun r j => host sf (addr A n r j)) n
                  (fun t' => host sf (cell off t')) t)%Q)
  /\ exists l, log (snd c) = log sf ++ l /\ existsb is_potrf l = false.
Proof.
  intros Hld Hsep c. subst c. unfold checksum_stage. cbn [fst snd].
  unfold update_checksums, blasf77_dtrmv, magma_set_lapack_numthreads.
  cbn [fst snd].
  set (sa := emit (EvSetLapackThreads 64)
               (emit (EvTrmv n A n) (emit (EvTrmv n A n)
                  (emit (EvSetLapackThreads 8) sf)))).
  rewrite (for_loop_ext n (update_chksum1 A n n chksum chksum_ld)
             (update_chksum_at 0 A n n chksum chksum_ld) sa update_chksum1_at).
  rewrite (for_loop_ext n (update_chksum2 A n n chksum chksum_ld)
             (update_chksum_at 1 A n n chksum chksum_ld) _ update_chksum2_at).
  set (sb := for_loop n (update_chksum_at 0 A n n chksum chksum_ld) sa).
  set (sc := for_loop n (update_chksum_at 1 A n n chksum chksum_ld) sb).
  assert (Hld0 : chksum_ld <> 0) by lia.
  destruct (update_loop_spec 0 sa Hld0 (row_cells_sep 0 ltac:(lia) Hsep))
    as [B1 [B2 [_ [lb [B4 B5]]]]]. fold sb in B1, B2, B4.
  destruct (update_loop_spec 1 sb Hld0 (row_cells_sep 1 ltac:(lia) Hsep))
    as [C1 [C2 [_ [lc [C4 C5]]]]]. fold sc in C1, C2, C4.
  assert (Hhost : host (when DEBUG
            (print_line "recalcuated checksum on CPU after factorization:" ;;
             emit (EvPrintMatrix Host 0 1 1 n) ;;
             emit (EvPrintMatrix Host 0 1 1 n) ;;
             print_line "updated checksum on CPU after factorization:" ;;
             DsyrkFT.printMatrix_host chksum chksum_ld 2 n)%cmd sc) = host sc)
    by (destruct DEBUG; reflexivity).
  split.
  - intros off t Hoff Ht. rewrite Hhost.
    assert (Hcase : off = 0 \/ off = 1) by lia. destruct Hcase as [-> | ->].
    + rewrite (C2 _ (proj1 (rows_disjoint t t Hld Ht))). apply B1. exact Ht.
    + rewrite (C1 t Ht). apply trsm_row_compat; try assumption.
      * intros r j Hj Hr. rewrite B2; [reflexivity|].
        apply (disjointb_spec_r _ _ (row_cells_sep 0 ltac:(lia) Hsep)).
        apply addr_in_view; lia.
      * intros t' Ht'. rewrite (B2 _ (proj2 (rows_disjoint t' t' Hld Ht'))).
        reflexivity.
  - assert (Hsa : log sa = log sf ++ [EvSetLapackThreads 8; EvTrmv n A n;
                                      EvTrmv n A n; EvSetLapackThreads 64]).
    { unfold sa, emit. cbn [log]. rewrite <- !app_assoc. reflexivity. }
    destruct DEBUG; unfold when, skip, print_line, DsyrkFT.printMatrix_host, emit;
      cbn [log]; rewrite C4, B4, Hsa, <- !app_assoc;
      eexists; (split; [reflexivity|]);
      rewrite !existsb_app, B5, C5; reflexivity.
Qed.


(** Host memory on return is the final detection pass applied to the
    memory the checksum stage leaves. *)
Lemma dpotrfFT_host_final (lda v v_ld : Z) (DEBUG : bool) (s : state) :
  let f := factor_stage lapack_dpotrf A n s in
  let c := checksum_stage A lda n chksum chksum_ld DEBUG (fst f) in
  host (fst (dpotrfFT lapack_dpotrf detect_host A lda n chksum chksum_ld v v_ld
                      true DEBUG s))
  = detect_host A lda n n n chksum chksum_ld (fst (fst c)) 1 (snd (fst c)) 1
                (host (snd c)).
Proof. reflexivity. Qed.

End DpotrfProps.

(** ** Examples on the 2 x 2 factorization *)


Lemma detect_nothing_id x1 x2 x3 x4 x5 x6 x7 x8 x9 x10 x11 h :
  detect_nothing x1 x2 x3 x4 x5 x6 x7 x8 x9 x10 x11 h = h.
Proof. reflexivity. Qed.



(** ** Examples on the products *)



Lemma dsyrkFT_ignores_blas_parameters_witness :
  syrk_example_run MagmaLower MagmaNoTrans (-1) 1 true true
  = syrk_example_run MagmaUpper MagmaTrans 2 0 true true
  /\ (dev (syrk_example_run MagmaLower MagmaNoTrans (-1) 1 true true) (addr 10 2 1 0)
      == 6 - sumf 1 (fun l => dev syrk_example (addr 0 2 1 l)
                             * dev syrk_example (addr 0 2 0 l)))%Q.
Proof.
  destruct (dsyrkFT_ignores_blas_parameters 2 1 0 2 10 2 20 2 30 2 40 2 50 1 60 1
              (fun i => i) MagmaLower MagmaUpper MagmaNoTrans MagmaTrans
              (-1) 2 1 0 true false true syrk_example 1 0) as [H1 [_ H3]].
  - lia.
  - lia.
  - lia.
  - vm_compute. reflexivity.
  - vm_compute. reflexivity.
  - split; [exact H1|]. unfold syrk_example_run.
    eapply Qeq_trans; [exact H3|]. vm_compute. reflexivity.
Defined.



(** * Further properties of the modelled routines *)

(** ** The rank-k update of old_source_code/v2/dsyrkFT.h *)

Section DsyrkFTv2Props.

Import DsyrkFTv2.

Variable handle : magma_queue_t.
Variables n m A lda C ldc : Z.
Variables checksumA checksumA_ld checksumC checksumC_ld : Z.
Variables vd vd_ld chk chk_ld : Z.

Local Abbreviation rA := (view_addrs A lda n m).
Local Abbreviation rC := (view_addrs C ldc n n).
Local Abbreviation rV := (view_addrs vd vd_ld n 2).
Local Abbreviation rK := (view_addrs chk chk_ld 2 n).
Local Abbreviation rAc := (view_addrs checksumA checksumA_ld 2 m).
Local Abbreviation rCc := (view_addrs checksumC checksumC_ld 2 n).

Lemma dsyrkFTv2_dev (DEBUG : bool) (s : state) :
  dev (dsyrkFT handle n m A lda C ldc checksumA checksumA_ld
               checksumC checksumC_ld vd vd_ld chk chk_ld true DEBUG s)
  = cublasDgemm MagmaNoTrans MagmaTrans 2 n m (-1) checksumA checksumA_ld A lda 1
      checksumC checksumC_ld
      (cublasDgemm MagmaTrans MagmaNoTrans 2 n n 1 vd vd_ld C ldc 0 chk chk_ld
         (cublasDgemm MagmaNoTrans MagmaTrans n n m (-1) A lda A lda 1 C ldc
            (dev s))).
Proof. destruct DEBUG; reflexivity. Qed.

(** The three views after a call with FT enabled and separate buffers: the
    data, the recomputed checksums and the propagated checksums. *)
Lemma dsyrkFTv2_views (DEBUG : bool) (s : state) :
  let W := fun r i => dev s (addr vd vd_ld i r) in
  let s' := dsyrkFT handle n m A lda C ldc checksumA checksumA_ld
                    checksumC checksumC_ld vd vd_ld chk chk_ld true DEBUG s in
  n <= ldc -> 2 <= chk_ld -> 2 <= checksumC_ld ->
  disjointb rC (rA ++ rV ++ rK ++ rAc ++ rCc) = true ->
  disjointb rK (rV ++ rA ++ rAc ++ rCc) = true ->
  (forall i j, 0 <= i < n -> 0 <= j < n ->
     dev s' (addr C ldc i j)
     = gemm_entry MagmaNoTrans MagmaTrans m (-1) A lda A lda 1 C ldc (dev s) i j)
  /\ (forall c j, 0 <= c < 2 -> 0 <= j < n ->
        (dev s' (addr chk chk_ld c j) == Encode_col W n (dev s') C ldc c j)%Q)
  /\ (forall c j, 0 <= c < 2 -> 0 <= j < n ->
        dev s' (addr checksumC checksumC_ld c j)
        = gemm_entry MagmaNoTrans MagmaTrans m (-1) checksumA checksumA_ld
            A lda 1 checksumC checksumC_ld (dev s) c j).
Proof.
  intros W s' Hldc Hldk Hldcc Hsep1 Hsep2.
  apply disjointb_app_r in Hsep1. destruct Hsep1 as [S1A Hsep1].
  apply disjointb_app_r in Hsep1. destruct Hsep1 as [S1V Hsep1].
  apply disjointb_app_r in Hsep1. destruct Hsep1 as [S1K Hsep1].
  apply disjointb_app_r in Hsep1. destruct Hsep1 as [S1Ac S1Cc].
  apply disjointb_app_r in Hsep2. destruct Hsep2 as [S2V Hsep2].
  apply disjointb_app_r in Hsep2. destruct Hsep2 as [S2A Hsep2].
  apply disjointb_app_r in Hsep2. destruct Hsep2 as [S2Ac S2Cc].
  set (d0 := dev s).
  set (d1 := cublasDgemm MagmaNoTrans MagmaTrans n n m (-1) A lda A lda 1 C ldc d0).
  set (d2 := cublasDgemm MagmaTrans MagmaNoTrans 2 n n 1 vd vd_ld C ldc 0 chk chk_ld d1).
  assert (Hdev : dev s' = cublasDgemm MagmaNoTrans MagmaTrans 2 n m (-1)
                            checksumA checksumA_ld A lda 1 checksumC checksumC_ld d2)
    by (apply dsyrkFTv2_dev).
  assert (Hdata : forall i j', 0 <= i < n -> 0 <= j' < n ->
            dev s' (addr C ldc i j')
            = gemm_entry MagmaNoTrans MagmaTrans m (-1) A lda A lda 1 C ldc d0 i j').
  { intros i j' Hi Hj'.
    assert (Hin : In (addr C ldc i j') rC) by (apply addr_in_view; assumption).
    rewrite Hdev.
    rewrite cublasDgemm_frame by exact (disjointb_spec _ _ S1Cc _ Hin).
    unfold d2. rewrite cublasDgemm_frame by exact (disjointb_spec _ _ S1K _ Hin).
    unfold d1. apply cublasDgemm_get; assumption. }
  split; [exact Hdata|]. split.
  - intros c j Hc Hj.
    assert (Hk : dev s' (addr chk chk_ld c j)
                 = gemm_entry MagmaTrans MagmaNoTrans n 1 vd vd_ld C ldc 0
                              chk chk_ld d1 c j).
    { assert (Hin : In (addr chk chk_ld c j) rK) by (apply addr_in_view; assumption).
      rewrite Hdev.
      rewrite cublasDgemm_frame by exact (disjointb_spec _ _ S2Cc _ Hin).
      unfold d2. apply cublasDgemm_get; assumption. }
    assert (Hvd : forall i, 0 <= i < n -> d1 (addr vd vd_ld i c) = W c i).
    { intros i Hi. unfold d1, W.
      apply cublasDgemm_frame.
      apply (disjointb_spec_r _ _ S1V). apply addr_in_view; lia. }
    assert (Hd1 : forall i, 0 <= i < n ->
              d1 (addr C ldc i j) = dev s' (addr C ldc i j)).
    { intros i Hi. rewrite Hdata by assumption. unfold d1.
      apply cublasDgemm_get; assumption. }
    clearbody d1 d2 s'. clear Hdev.
    rewrite Hk. unfold gemm_entry, Encode_col, op_get. cbn [is_notrans].
    rewrite (sumf_ext n
               (fun l => d1 (addr vd vd_ld l c) * d1 (addr C ldc l j))%Q
               (fun i => W c i * dev s' (addr C ldc i j))%Q).
    + ring.
    + intros i Hi. rewrite Hvd, Hd1 by assumption. reflexivity.
  - intros c j Hc Hj.
    rewrite Hdev. rewrite cublasDgemm_get by assumption.
    apply gemm_entry_ext with (m := 2) (n := n); try assumption;
      (eapply agree_on_trans; apply cublasDgemm_agree; assumption).
Qed.

(** The propagated checksum, when [checksumA] holds the checksums of A. *)
Lemma dsyrkFTv2_propagated (W : Z -> Z -> Q) (d : mem) (c j : Z) :
  0 <= c < 2 -> 0 <= j < n ->
  col_encoded W MagmaNoTrans d checksumA checksumA_ld A lda 2 n m = true ->
  (gemm_entry MagmaNoTrans MagmaTrans m (-1) checksumA checksumA_ld
              A lda 1 checksumC checksumC_ld d c j
   == (-1) * sumf m (fun l => sumf n (fun i => W c i * d (addr A lda i l))
                              * d (addr A lda j l))
      + 1 * d (addr checksumC checksumC_ld c j))%Q.
Proof.
  intros Hc Hj HA. unfold gemm_entry, op_get. cbn [is_notrans].
  rewrite (sumf_ext m
             (fun l => d (addr checksumA checksumA_ld c l) * d (addr A lda j l))%Q
             (fun l => sumf n (fun i => W c i * d (addr A lda i l))
                       * d (addr A lda j l))%Q).
  - reflexivity.
  - intros l Hl.
    pose proof (col_encoded_spec _ _ _ _ _ _ _ _ _ _ HA c l Hc Hl) as E1.
    unfold Encode_col_op, op_get in E1. cbn [is_notrans] in E1.
    rewrite E1. reflexivity.
Qed.

Lemma dsyrkFTv2_checksum_views (DEBUG : bool) (s : state) (c j : Z) :
  let W := fun r i => dev s (addr vd vd_ld i r) in
  let s' := dsyrkFT handle n m A lda C ldc checksumA checksumA_ld
                    checksumC checksumC_ld vd vd_ld chk chk_ld true DEBUG s in
  n <= ldc -> 2 <= chk_ld -> 2 <= checksumC_ld ->
  0 <= c < 2 -> 0 <= j < n ->
  disjointb rC (rA ++ rV ++ rK ++ rAc ++ rCc) = true ->
  disjointb rK (rV ++ rA ++ rAc ++ rCc) = true ->
  col_encoded W MagmaNoTrans (dev s) checksumA checksumA_ld A lda 2 n m = true ->
  col_encoded W MagmaNoTrans (dev s) checksumC checksumC_ld C ldc 2 n n = true ->
  (dev s' (addr chk chk_ld c j) == Encode_col W n (dev s') C ldc c j)%Q
  /\ (dev s' (addr checksumC checksumC_ld c j) == Encode_col W n (dev s') C ldc c j)%Q
  /\ (dev s' (addr checksumC checksumC_ld c j) == dev s' (addr chk chk_ld c j))%Q.
Proof.
  intros W s' Hldc Hldk Hldcc Hc Hj Hsep1 Hsep2 HA HC.
  destruct (dsyrkFTv2_views DEBUG s Hldc Hldk Hldcc Hsep1 Hsep2)
    as [Hdata [Hchk Hcc]].
  fold W in Hchk. fold s' in Hdata, Hchk, Hcc.
  specialize (Hchk c j Hc Hj). specialize (Hcc c j Hc Hj).
  clearbody s'.
  assert (Hprop : (dev s' (addr checksumC checksumC_ld c j)
                   == Encode_col W n (dev s') C ldc c j)%Q).
  { rewrite Hcc, (dsyrkFTv2_propagated W (dev s) c j Hc Hj HA). unfold Encode_col.
    rewrite (sumf_ext n (fun i => W c i * dev s' (addr C ldc i j))%Q
               (fun i => W c i *
                  ((-1) * sumf m (fun l => dev s (addr A lda i l) * dev s (addr A lda j l))
                   + 1 * dev s (addr C ldc i j)))%Q).
    2:{ intros i Hi. rewrite Hdata by assumption. reflexivity. }
    rewrite <- (col_checksum_linear n m (W c) (fun i l => dev s (addr A lda i l))
                  (fun l => dev s (addr A lda j l)) (fun i => dev s (addr C ldc i j))).
    pose proof (col_encoded_spec _ _ _ _ _ _ _ _ _ _ HC c j Hc Hj) as E2.
    unfold Encode_col_op, op_get in E2. cbn [is_notrans] in E2.
    rewrite E2. reflexivity. }
  split; [exact Hchk|]. split; [exact Hprop|].
  rewrite Hchk, Hprop. reflexivity.
Qed.

(** X1.  [dsyrkFT] of old_source_code/v2/dsyrkFT.h with FT enabled: when the
    buffers are separate and [checksumA], [checksumC] hold on entry the
    checksums of A and C for the weights stored at [vd], then on return the
    recomputed checksums in [chk] and the propagated checksums in
    [checksumC] are both the checksums of the updated C, hence equal. *)
Theorem dsyrkFTv2_propagated_equals_recomputed (DEBUG : bool) (s : state) (c j : Z) :
  let W := fun r i => dev s (addr vd vd_ld i r) in
  let s' := dsyrkFT handle n m A lda C ldc checksumA checksumA_ld
                    checksumC checksumC_ld vd vd_ld chk chk_ld true DEBUG s in
  n <= ldc -> 2 <= chk_ld -> 2 <= checksumC_ld ->
  0 <= c < 2 -> 0 <= j < n ->
  disjointb rC (rA ++ rV ++ rK ++ rAc ++ rCc) = true ->
  disjointb rK (rV ++ rA ++ rAc ++ rCc) = true ->
  col_encoded W MagmaNoTrans (dev s) checksumA checksumA_ld A lda 2 n m = true ->
  col_encoded W MagmaNoTrans (dev s) checksumC checksumC_ld C ldc 2 n n = true ->
  (dev s' (addr chk chk_ld c j) == Encode_col W n (dev s') C ldc c j)%Q
  /\ (dev s' (addr checksumC checksumC_ld c j) == Encode_col W n (dev s') C ldc c j)%Q
  /\ (dev s' (addr checksumC checksumC_ld c j) == dev s' (addr chk chk_ld c j))%Q.
Proof. exact (dsyrkFTv2_checksum_views DEBUG s c j). Qed.

(** The views after a call on a C that carries one wrong entry. *)
Lemma dsyrkFTv2_error_views (DEBUG : bool) (s : state)
    (orig : Z -> Z -> Q) (r j : Z) (e : Q) (c j' : Z) :
  let W := fun r i => dev s (addr vd vd_ld i r) in
  let s' := dsyrkFT handle n m A lda C ldc checksumA checksumA_ld
                    checksumC checksumC_ld vd vd_ld chk chk_ld true DEBUG s in
  n <= ldc -> 2 <= chk_ld -> 2 <= checksumC_ld ->
  0 <= c < 2 -> 0 <= j' < n -> 0 <= r < n -> 0 <= j < n ->
  disjointb rC (rA ++ rV ++ rK ++ rAc ++ rCc) = true ->
  disjointb rK (rV ++ rA ++ rAc ++ rCc) = true ->
  col_encoded W MagmaNoTrans (dev s) checksumA checksumA_ld A lda 2 n m = true ->
  (forall i k, 0 <= i < n -> 0 <= k < n ->
     (dev s (addr C ldc i k)
      == orig i k + (if (i =? r) && (k =? j) then e else 0))%Q) ->
  (forall c' k, 0 <= c' < 2 -> 0 <= k < n ->
     (dev s (addr checksumC checksumC_ld c' k)
      == sumf n (fun i => W c' i * orig i k))%Q) ->
  (dev s' (addr chk chk_ld c j') - dev s' (addr checksumC checksumC_ld c j')
   == if j' =? j then W c r * e else 0)%Q
  /\ (forall i, 0 <= i < n ->
        (dev s' (addr C ldc i j')
         == orig i j'
            - sumf m (fun l => dev s (addr A lda i l) * dev s (addr A lda j' l))
            + (if (i =? r) && (j' =? j) then e else 0))%Q).
Proof.
  intros W s' Hldc Hldk Hldcc Hc Hj' Hr Hj Hsep1 Hsep2 HA Hcur Hstored.
  destruct (dsyrkFTv2_views DEBUG s Hldc Hldk Hldcc Hsep1 Hsep2)
    as [Hdata [Hchk Hcc]].
  fold W in Hchk. fold s' in Hdata, Hchk, Hcc.
  specialize (Hchk c j' Hc Hj'). specialize (Hcc c j' Hc Hj').
  clearbody s'.
  assert (Hnew : forall i, 0 <= i < n ->
            (dev s' (addr C ldc i j')
             == ((-1) * sumf m (fun l => dev s (addr A lda i l)
                                         * dev s (addr A lda j' l))
                 + 1 * orig i j')
                + (if (i =? r) && (j' =? j) then e else 0))%Q).
  { intros i Hi. rewrite Hdata by assumption.
    unfold gemm_entry, op_get. cbn [is_notrans].
    rewrite (Hcur i j' Hi Hj'). ring. }
  split.
  - rewrite Hchk, Hcc, (dsyrkFTv2_propagated W (dev s) c j' Hc Hj' HA).
    rewrite (Hstored c j' Hc Hj'). unfold Encode_col.
    rewrite (sumf_ext n (fun i => W c i * dev s' (addr C ldc i j'))%Q
               (fun i => W c i *
                  (((-1) * sumf m (fun l => dev s (addr A lda i l)
                                            * dev s (addr A lda j' l))
                    + 1 * orig i j')
                   + (if (i =? r) && (j' =? j) then e else 0)))%Q)
      by (intros i Hi; rewrite (Hnew i Hi); reflexivity).
    rewrite (sumf_perturbed n r (W c)
               (fun i => (-1) * sumf m (fun l => dev s (addr A lda i l)
                                                 * dev s (addr A lda j' l))
                         + 1 * orig i j')%Q (j' =? j) e Hr).
    rewrite <- (col_checksum_linear n m (W c) (fun i l => dev s (addr A lda i l))
                  (fun l => dev s (addr A lda j' l)) (fun i => orig i j')).
    destruct (j' =? j); ring.
  - intros i Hi. rewrite (Hnew i Hi). ring.
Qed.

(** X15.  A data error present on entry is carried through the update.
    Let C differ on entry from a matrix [orig] by [e] in the single entry
    (r, j), while [checksumC] holds the checksums of [orig] and [checksumA]
    those of A.  On return the data is orig - A A^T with the same error at
    (r, j), and the recomputed and the propagated checksums differ in
    column j only, by the weight of row r times e. *)
Theorem dsyrkFTv2_carries_data_error (DEBUG : bool) (s : state)
    (orig : Z -> Z -> Q) (r j : Z) (e : Q) (c j' : Z) :
  let W := fun r i => dev s (addr vd vd_ld i r) in
  let s' := dsyrkFT handle n m A lda C ldc checksumA checksumA_ld
                    checksumC checksumC_ld vd vd_ld chk chk_ld true DEBUG s in
  n <= ldc -> 2 <= chk_ld -> 2 <= checksumC_ld ->
  0 <= c < 2 -> 0 <= j' < n -> 0 <= r < n -> 0 <= j < n ->
  disjointb rC (rA ++ rV ++ rK ++ rAc ++ rCc) = true ->
  disjointb rK (rV ++ rA ++ rAc ++ rCc) = true ->
  col_encoded W MagmaNoTrans (dev s) checksumA checksumA_ld A lda 2 n m = true ->
  (forall i k, 0 <= i < n -> 0 <= k < n ->
     (dev s (addr C ldc i k)
      == orig i k + (if (i =? r) && (k =? j) then e else 0))%Q) ->
  (forall c' k, 0 <= c' < 2 -> 0 <= k < n ->
     (dev s (addr checksumC checksumC_ld c' k)
      == sumf n (fun i => W c' i * orig i k))%Q) ->
  (dev s' (addr chk chk_ld c j') - dev s' (addr checksumC checksumC_ld c j')
   == if j' =? j then W c r * e else 0)%Q
  /\ (forall i, 0 <= i < n ->
        (dev s' (addr C ldc i j')
         == orig i j'
            - sumf m (fun l => dev s (addr A lda i l) * dev s (addr A lda j' l))
            + (if (i =? r) && (j' =? j) then e else 0))%Q).
Proof. exact (dsyrkFTv2_error_views DEBUG s orig r j e c j'). Qed.

End DsyrkFTv2Props.

(** X1, witness: the 2 x 1 operand of [syrk_example]; the second checksum of
    column 0 of the updated C = [4 5; 4 4] is 1*4 + 2*4 = 12 in both buffers. *)
Lemma dsyrkFTv2_propagated_equals_recomputed_witness :
  (dev syrk_v2_example_run (addr 30 2 1 0) == dev syrk_v2_example_run (addr 50 2 1 0))%Q
  /\ (dev syrk_v2_example_run (addr 50 2 1 0) == 12)%Q.
Proof.
  destruct (dsyrkFTv2_propagated_equals_recomputed 0 2 1 0 2 10 2 20 2 30 2 40 2 50 2
              false syrk_example 1 0) as [H1 [_ H3]].
  - lia.
  - lia.
  - lia.
  - lia.
  - lia.
  - vm_compute. reflexivity.
  - vm_compute. reflexivity.
  - vm_compute. reflexivity.
  - vm_compute. reflexivity.
  - split; [exact H3|]. vm_compute. reflexivity.
Defined.

(** ** More on magma-1.6.2-enhanced/magmablas/dsyrkFT.cpp *)

Lemma cublasDgemv_get t m n alpha A lda x incx beta y incy (mm : mem) j :
  incy <> 0 -> 0 <= j < (if is_notrans t then m else n) ->
  cublasDgemv t m n alpha A lda x incx beta y incy mm (y + j * incy)
  = gemv_entry t m n alpha A lda x incx beta y incy mm j.
Proof.
  intros Hinc Hj. unfold cublasDgemv. apply write_cells_get.
  - apply in_map_iff. exists j. split; [reflexivity|apply in_range; exact Hj].
  - intros c Hc E. apply in_map_iff in Hc. destruct Hc as [j' [<- Hj']].
    simpl in *. assert (j' = j) by nia. subst. reflexivity.
Qed.

Lemma in_vec (p inc n t : Z) : 0 <= t < n -> In (p + t * inc) (vec_addrs p inc n).
Proof. intros H. apply in_vec_addrs. exists t. split; [exact H|reflexivity]. Qed.

Section DsyrkFTMore.

Import DsyrkFT.

Variables n m : Z.
Variables A lda C ldc : Z.
Variables checksumA checksumA_ld checksumC checksumC_ld : Z.
Variables vd vd_ld chk1 chk1_ld chk2 chk2_ld : Z.
Variable streams : Z -> magma_queue_t.

Local Abbreviation call uplo trans alpha beta FT DEBUG VERIFY :=
  (dsyrkFT uplo trans n m alpha A lda beta C ldc
           checksumA checksumA_ld checksumC checksumC_ld
           vd vd_ld chk1 chk1_ld chk2 chk2_ld FT DEBUG VERIFY streams).

Local Abbreviation rA := (view_addrs A lda n m).
Local Abbreviation rC := (view_addrs C ldc n n).
Local Abbreviation rAc := (view_addrs checksumA checksumA_ld 2 m).
Local Abbreviation rCc := (view_addrs checksumC checksumC_ld 2 n).
Local Abbreviation v1 := (vec_addrs chk1 chk1_ld m).
Local Abbreviation v2 := (vec_addrs chk2 chk2_ld m).

(** X3.  With FT enabled, separate buffers and [checksumA], [checksumC]
    holding the checksums of A and C for some weights [W] on entry, the
    shadow [checksumC] holds on return the checksums of the updated C for the
    same weights, whether or not the verification of A has run; the
    process-wide kernel stream is left at [streams[4]]. *)
Theorem dsyrkFT_propagates_checksum (W : Z -> Z -> Q) uplo trans alpha beta
    (DEBUG VERIFY : bool) (s : state) (c j : Z) :
  let s' := call uplo trans alpha beta true DEBUG VERIFY s in
  n <= ldc -> 2 <= checksumC_ld -> 0 <= c < 2 -> 0 <= j < n ->
  disjointb (v1 ++ v2) (rA ++ rC ++ rAc ++ rCc) = true ->
  disjointb rC (rA ++ rAc ++ rCc) = true ->
  col_encoded W MagmaNoTrans (dev s) checksumA checksumA_ld A lda 2 n m = true ->
  col_encoded W MagmaNoTrans (dev s) checksumC checksumC_ld C ldc 2 n n = true ->
  (dev s' (addr checksumC checksumC_ld c j) == Encode_col W n (dev s') C ldc c j)%Q
  /\ kernel_stream s' = streams 4.
Proof.
  intros s' Hldc Hldcc Hc Hj Hscr Hsep HA HC.
  split; [|unfold s'; destruct VERIFY, DEBUG; reflexivity].
  apply disjointb_app_r in Hsep. destruct Hsep as [SA Hsep].
  apply disjointb_app_r in Hsep. destruct Hsep as [SAc SCc].
  set (d0 := dev s).
  set (d1 := if VERIFY
             then cublasDgemv MagmaTrans n m 1 A lda (vd + 1) vd_ld 0 chk2 chk2_ld
                    (cublasDgemv MagmaTrans n m 1 A lda vd vd_ld 0 chk1 chk1_ld d0)
             else d0).
  set (d2 := cublasDgemm MagmaNoTrans MagmaTrans n n m (1 * (-1))%Q
                         A lda A lda 1 C ldc d1).
  assert (Hdev : dev s' = cublasDgemm MagmaNoTrans MagmaTrans 2 n m (1 * (-1))%Q
                            checksumA checksumA_ld A lda 1 checksumC checksumC_ld d2).
  { unfold s'. rewrite dsyrkFT_dev. reflexivity. }
  assert (Hd1 : agree_on (rA ++ rC ++ rAc ++ rCc) d1 d0).
  { unfold d1. destruct VERIFY; [|intros a _; reflexivity].
    intros a Ha.
    assert (N : ~ In a (v1 ++ v2)) by exact (disjointb_spec_r _ _ Hscr a Ha).
    rewrite cublasDgemv_frame
      by (cbn [is_notrans]; intros F; apply N; apply in_or_app; right; exact F).
    apply cublasDgemv_frame.
    cbn [is_notrans]. intros F. apply N. apply in_or_app. left. exact F. }
  assert (HdA : agree_on rA d1 d0)
    by (intros a Ha; apply Hd1; apply in_or_app; left; exact Ha).
  assert (HdC : agree_on rC d1 d0)
    by (intros a Ha; apply Hd1; apply in_or_app; right; apply in_or_app; left;
        exact Ha).
  assert (HdAc : agree_on rAc d1 d0)
    by (intros a Ha; apply Hd1; do 2 (apply in_or_app; right);
        apply in_or_app; left; exact Ha).
  assert (HdCc : agree_on rCc d1 d0)
    by (intros a Ha; apply Hd1; do 3 (apply in_or_app; right); exact Ha).
  assert (Hdata : forall i j', 0 <= i < n -> 0 <= j' < n ->
            dev s' (addr C ldc i j')
            = gemm_entry MagmaNoTrans MagmaTrans m (1 * (-1))%Q A lda A lda 1 C ldc
                d0 i j').
  { intros i j' Hi Hj'.
    assert (Hin : In (addr C ldc i j') rC) by (apply addr_in_view; assumption).
    rewrite Hdev.
    rewrite cublasDgemm_frame by exact (disjointb_spec _ _ SCc _ Hin).
    unfold d2. rewrite cublasDgemm_get by assumption.
    apply gemm_entry_ext with (m := n) (n := n); assumption. }
  assert (Hcc : dev s' (addr checksumC checksumC_ld c j)
                = gemm_entry MagmaNoTrans MagmaTrans m (1 * (-1))%Q
                    checksumA checksumA_ld A lda 1 checksumC checksumC_ld d0 c j).
  { rewrite Hdev. rewrite cublasDgemm_get by assumption.
    apply gemm_entry_ext with (m := 2) (n := n); try assumption;
      (eapply agree_on_trans; [apply cublasDgemm_agree; assumption|assumption]). }
  clearbody d1 d2 s'. clear Hdev. subst d0.
  rewrite Hcc. unfold Encode_col.
  rewrite (sumf_ext n (fun i => W c i * dev s' (addr C ldc i j))%Q
             (fun i => W c i *
                ((1 * (-1)) * sumf m (fun l => dev s (addr A lda i l)
                                              * dev s (addr A lda j l))
                 + 1 * dev s (addr C ldc i j)))%Q).
  2:{ intros i Hi. rewrite Hdata by assumption. reflexivity. }
  rewrite <- (col_checksum_linear n m (W c) (fun i l => dev s (addr A lda i l))
                (fun l => dev s (addr A lda j l)) (fun i => dev s (addr C ldc i j))).
  unfold gemm_entry, op_get. cbn [is_notrans].
  rewrite (sumf_ext m
             (fun l => dev s (addr checksumA checksumA_ld c l)
                       * dev s (addr A lda j l))%Q
             (fun l => sumf n (fun i => W c i * dev s (addr A lda i l))
                       * dev s (addr A lda j l))%Q).
  2:{ intros l Hl.
      pose proof (col_encoded_spec _ _ _ _ _ _ _ _ _ _ HA c l Hc Hl) as E1.
      unfold Encode_col_op, op_get in E1. cbn [is_notrans] in E1.
      rewrite E1. reflexivity. }
  pose proof (col_encoded_spec _ _ _ _ _ _ _ _ _ _ HC c j Hc Hj) as E2.
  unfold Encode_col_op, op_get in E2. cbn [is_notrans] in E2.
  rewrite E2. reflexivity.
Qed.

(** X4.  With FT disabled the VERIFY and DEBUG flags have no effect: the call
    synchronizes streams 1 and 4, selects stream 1 and issues the one
    product on C; every cell outside the n x n view of C, and the host
    memory, are unchanged, and the kernel stream is left at [streams[1]]. *)
Theorem dsyrkFT_ft_disabled uplo trans alpha beta (DEBUG VERIFY : bool)
    (s : state) (a : Z) :
  ~ In a rC ->
  let s' := call uplo trans alpha beta false DEBUG VERIFY s in
  log s' = log s ++ [EvStreamSync (streams 1); EvStreamSync (streams 4);
                     EvSetKernelStream (streams 1);
                     EvGemm Device (streams 1) MagmaNoTrans MagmaTrans n n m (-1)%Q
                            A lda A lda 1%Q C ldc]
  /\ dev s' a = dev s a
  /\ host s' = host s
  /\ kernel_stream s' = streams 1.
Proof.
  intros Ha s'. unfold s'. split; [|split; [|split]].
  - destruct VERIFY, DEBUG; cbn; rewrite <- !app_assoc; reflexivity.
  - rewrite dsyrkFT_dev. cbn [andb]. cbv zeta. apply cublasDgemm_frame. exact Ha.
  - destruct VERIFY, DEBUG; reflexivity.
  - destruct VERIFY, DEBUG; reflexivity.
Qed.

(** X5.  With FT and VERIFY enabled the scratch vectors [chk1] and [chk2]
    hold on return the column sums of A as it was on entry, weighted by the
    vectors at [vd] and [vd + 1] (stride [vd_ld]); when [checksumA] held the
    checksums of A for these weights they equal its two rows. *)
Theorem dsyrkFT_verify_recomputes_checksums uplo trans alpha beta (DEBUG : bool)
    (s : state) (l : Z) :
  let s' := call uplo trans alpha beta true DEBUG true s in
  let W := fun r i => dev s (addr vd vd_ld r i) in
  chk1_ld <> 0 -> chk2_ld <> 0 -> 0 <= l < m ->
  disjointb v1 (v2 ++ rA ++ vec_addrs (vd + 1) vd_ld n ++ rC ++ rCc) = true ->
  disjointb v2 (rC ++ rCc) = true ->
  (dev s' (chk1 + l * chk1_ld)%Z == Encode_col W n (dev s) A lda 0 l)%Q
  /\ (dev s' (chk2 + l * chk2_ld)%Z == Encode_col W n (dev s) A lda 1 l)%Q
  /\ (col_encoded W MagmaNoTrans (dev s) checksumA checksumA_ld A lda 2 n m = true ->
      (dev s' (chk1 + l * chk1_ld)%Z == dev s (addr checksumA checksumA_ld 0 l))%Q
      /\ (dev s' (chk2 + l * chk2_ld)%Z == dev s (addr checksumA checksumA_ld 1 l))%Q).
Proof.
  intros s' W H1 H2 Hl Hs1 Hs2.
  apply disjointb_app_r in Hs1. destruct Hs1 as [S12 Hs1].
  apply disjointb_app_r in Hs1. destruct Hs1 as [S1A Hs1].
  apply disjointb_app_r in Hs1. destruct Hs1 as [S1V Hs1].
  apply disjointb_app_r in Hs1. destruct Hs1 as [S1C S1Cc].
  apply disjointb_app_r in Hs2. destruct Hs2 as [S2C S2Cc].
  set (g1 := cublasDgemv MagmaTrans n m 1 A lda vd vd_ld 0 chk1 chk1_ld (dev s)).
  set (g2 := cublasDgemv MagmaTrans n m 1 A lda (vd + 1) vd_ld 0 chk2 chk2_ld g1).
  assert (Hdev : dev s'
                 = cublasDgemm MagmaNoTrans MagmaTrans 2 n m (1 * (-1))%Q
                     checksumA checksumA_ld A lda 1 checksumC checksumC_ld
                     (cublasDgemm MagmaNoTrans MagmaTrans n n m (1 * (-1))%Q
                                  A lda A lda 1 C ldc g2)).
  { unfold s'. rewrite dsyrkFT_dev. reflexivity. }
  assert (In1 : In (chk1 + l * chk1_ld) v1) by (apply in_vec; exact Hl).
  assert (In2 : In (chk2 + l * chk2_ld) v2) by (apply in_vec; exact Hl).
  assert (E1 : (dev s' (chk1 + l * chk1_ld)%Z == Encode_col W n (dev s) A lda 0 l)%Q).
  { rewrite Hdev.
    rewrite cublasDgemm_frame by exact (disjointb_spec _ _ S1Cc _ In1).
    rewrite cublasDgemm_frame by exact (disjointb_spec _ _ S1C _ In1).
    unfold g2. rewrite cublasDgemv_frame by exact (disjointb_spec _ _ S12 _ In1).
    unfold g1. rewrite cublasDgemv_get by (cbn [is_notrans]; assumption).
    unfold gemv_entry, Encode_col, op_get, W. cbn [is_notrans].
    rewrite (sumf_ext n
               (fun i => dev s (addr A lda i l) * dev s (vd + i * vd_ld)%Z)%Q
               (fun i => dev s (addr vd vd_ld 0 i) * dev s (addr A lda i l))%Q).
    - ring.
    - intros i Hi. unfold addr at 2.
      replace (vd + 0 + i * vd_ld) with (vd + i * vd_ld) by lia. ring. }
  assert (E2 : (dev s' (chk2 + l * chk2_ld)%Z == Encode_col W n (dev s) A lda 1 l)%Q).
  { rewrite Hdev.
    rewrite cublasDgemm_frame by exact (disjointb_spec _ _ S2Cc _ In2).
    rewrite cublasDgemm_frame by exact (disjointb_spec _ _ S2C _ In2).
    unfold g2. rewrite cublasDgemv_get by (cbn [is_notrans]; assumption).
    unfold gemv_entry, Encode_col, op_get, W. cbn [is_notrans].
    rewrite (sumf_ext n
               (fun i => g1 (addr A lda i l) * g1 (vd + 1 + i * vd_ld)%Z)%Q
               (fun i => dev s (addr vd vd_ld 1 i) * dev s (addr A lda i l))%Q).
    - ring.
    - intros i Hi. unfold g1.
      rewrite cublasDgemv_frame
        by (apply (disjointb_spec_r _ _ S1A); apply addr_in_view; lia).
      rewrite cublasDgemv_frame
        by (apply (disjointb_spec_r _ _ S1V); apply in_vec; exact Hi).
      unfold addr at 2. ring. }
  split; [exact E1|]. split; [exact E2|].
  intros HA.
  pose proof (col_encoded_spec _ _ _ _ _ _ _ _ _ _ HA 0 l ltac:(lia) Hl) as F1.
  pose proof (col_encoded_spec _ _ _ _ _ _ _ _ _ _ HA 1 l ltac:(lia) Hl) as F2.
  unfold Encode_col_op, op_get in F1, F2. cbn [is_notrans] in F1, F2.
  split.
  - rewrite E1, F1. reflexivity.
  - rewrite E2, F2. reflexivity.
Qed.

End DsyrkFTMore.

(** X3, witness: on [syrk_example] the second checksum of column 0 of the
    updated C = [4 5; 4 4] is 12, and the kernel stream is left at 4. *)
Lemma dsyrkFT_propagates_checksum_witness :
  (dev (syrk_example_run MagmaLower MagmaNoTrans (-1) 1 true true) (addr 30 2 1 0)
   == 12)%Q
  /\ kernel_stream (syrk_example_run MagmaLower MagmaNoTrans (-1) 1 true true) = 4.
Proof.
  destruct (dsyrkFT_propagates_checksum 2 1 0 2 10 2 20 2 30 2 40 2 50 1 60 1
              (fun i => i) (fun r i => dev syrk_example (addr 40 2 r i))
              MagmaLower MagmaNoTrans (-1) 1 false true syrk_example 1 0)
    as [H1 H2].
  - lia.
  - lia.
  - lia.
  - lia.
  - vm_compute. reflexivity.
  - vm_compute. reflexivity.
  - vm_compute. reflexivity.
  - vm_compute. reflexivity.
  - split; [|exact H2]. unfold syrk_example_run.
    eapply Qeq_trans; [exact H1|]. vm_compute. reflexivity.
Defined.

(** X4, witness: on [syrk_example] with FT disabled the checksum cell 30 keeps
    its value 11. *)
Lemma dsyrkFT_ft_disabled_witness :
  dev (syrk_example_run MagmaLower MagmaNoTrans (-1) 1 false true) 30
  = dev syrk_example 30
  /\ kernel_stream (syrk_example_run MagmaLower MagmaNoTrans (-1) 1 false true) = 1.
Proof.
  destruct (dsyrkFT_ft_disabled 2 1 0 2 10 2 20 2 30 2 40 2 50 1 60 1
              (fun i => i) MagmaLower MagmaNoTrans (-1) 1 false true
              syrk_example 30) as [_ [H2 [_ H4]]].
  - vm_compute. intuition discriminate.
  - split; [exact H2|exact H4].
Defined.

(** X5, witness: on [syrk_example], A = (1, 2)^T gives the recomputed
    checksums 3 and 5, the two rows of [checksumA]. *)
Lemma dsyrkFT_verify_recomputes_checksums_witness :
  (dev (syrk_example_run MagmaLower MagmaNoTrans (-1) 1 true true) 50%Z
   == dev syrk_example (addr 20 2 0 0))%Q
  /\ (dev (syrk_example_run MagmaLower MagmaNoTrans (-1) 1 true true) 60%Z
      == dev syrk_example (addr 20 2 1 0))%Q.
Proof.
  destruct (dsyrkFT_verify_recomputes_checksums 2 1 0 2 10 2 20 2 30 2 40 2
              50 1 60 1 (fun i => i) MagmaLower MagmaNoTrans (-1) 1 false
              syrk_example 0) as [_ [_ H]].
  - lia.
  - lia.
  - lia.
  - vm_compute. reflexivity.
  - vm_compute. reflexivity.
  - apply H. vm_compute. reflexivity.
Defined.

(** ** The row solve inverts the product with the transposed factor *)

Lemma sumf_split_at (n k : Z) (g : Z -> Q) :
  0 <= k < n ->
  (sumf n g == g k + sumf n (fun c => if c =? k then 0 else g c))%Q.
Proof.
  intros Hk.
  rewrite (sumf_ext n g (fun c => (if c =? k then g c else 0)
                                  + (if c =? k then 0 else g c))%Q)
    by (intros c _; destruct (c =? k); ring).
  rewrite sumf_plus.
  rewrite (sumf_single n k (fun c => if c =? k then g c else 0)%Q Hk).
  - rewrite Z.eqb_refl. reflexivity.
  - intros i _ Hne. apply Z.eqb_neq in Hne. rewrite Hne. reflexivity.
Qed.

Lemma trsm_row_inverts (L : Z -> Z -> Q) (n : Z) (y : Z -> Q) :
  (forall t, 0 <= t < n -> ~ (L t t == 0)%Q) ->
  forall t, 0 <= t < n -> (trsm_row L n (lower_mult L n y) t == y t)%Q.
Proof.
  intros Hd t Ht. unfold trsm_row.
  pose (P := fun (k : Z) (x : Z -> Q) =>
    forall t, 0 <= t < n ->
      (x t == if t <? k then y t
              else sumf n (fun c => if (k <=? c) && (c <=? t)
                                    then y c * L t c else 0))%Q).
  assert (G : P (Z.max 0 n) (for_loop n (trsm_step L n) (lower_mult L n y))).
  { apply for_loop_ind.
    - intros u Hu. destruct (u <? 0) eqn:E; [apply Z.ltb_lt in E; lia|].
      unfold lower_mult. apply sumf_ext. intros c Hc.
      replace (0 <=? c) with true by (symmetry; apply Z.leb_le; lia).
      reflexivity.
    - intros k x Hk HP u Hu. unfold trsm_step.
      assert (Ek : (x k == y k * L k k)%Q).
      { rewrite (HP k Hk). rewrite Z.ltb_irrefl.
        rewrite (sumf_single n k
                   (fun c => if (k <=? c) && (c <=? k) then y c * L k c else 0)%Q Hk).
        - rewrite Z.leb_refl. reflexivity.
        - intros i Hi Hne.
          destruct ((k <=? i) && (i <=? k)) eqn:B; [|reflexivity].
          apply andb_true_iff in B. destruct B as [B1 B2].
          apply Z.leb_le in B1, B2. lia. }
      destruct (u =? k) eqn:E1.
      + apply Z.eqb_eq in E1. subst u.
        replace (k <? k + 1) with true by (symmetry; apply Z.ltb_lt; lia).
        rewrite Ek. field. apply Hd. exact Hk.
      + apply Z.eqb_neq in E1.
        destruct ((k <? u) && (u <? n)) eqn:B.
        * apply andb_true_iff in B. destruct B as [B1 B2]. apply Z.ltb_lt in B1, B2.
          replace (u <? k + 1) with false by (symmetry; apply Z.ltb_ge; lia).
          rewrite (HP u Hu), Ek.
          replace (u <? k) with false by (symmetry; apply Z.ltb_ge; lia).
          rewrite (sumf_split_at n k) by exact Hk.
          rewrite Z.leb_refl.
          replace (k <=? u) with true by (symmetry; apply Z.leb_le; lia).
          cbn [andb].
          rewrite (sumf_ext n
                     (fun c => if c =? k then 0
                               else if (k <=? c) && (c <=? u) then y c * L u c else 0)%Q
                     (fun c => if (k + 1 <=? c) && (c <=? u) then y c * L u c else 0)%Q).
          -- field. apply Hd. exact Hk.
          -- intros c Hc. destruct (c =? k) eqn:E2.
             ++ apply Z.eqb_eq in E2. subst c.
                replace (k + 1 <=? k) with false by (symmetry; apply Z.leb_gt; lia).
                reflexivity.
             ++ apply Z.eqb_neq in E2.
                destruct (k <=? c) eqn:E3, (k + 1 <=? c) eqn:E4; try reflexivity.
                ** apply Z.leb_le in E3. apply Z.leb_gt in E4. lia.
                ** apply Z.leb_gt in E3. apply Z.leb_le in E4. lia.
        * assert (u < k).
          { destruct (Z_lt_le_dec u k) as [|Hge]; [assumption|].
            exfalso. assert (k < u) by lia.
            assert (T : (k <? u) && (u <? n) = true)
              by (apply andb_true_iff; split; apply Z.ltb_lt; lia).
            congruence. }
          rewrite (HP u Hu).
          replace (u <? k) with true by (symmetry; apply Z.ltb_lt; lia).
          replace (u <? k + 1) with true by (symmetry; apply Z.ltb_lt; lia).
          reflexivity. }
  specialize (G t Ht).
  replace (t <? Z.max 0 n) with true in G by (symmetry; apply Z.ltb_lt; lia).
  exact G.
Qed.

Lemma trsm_row_solves (L : Z -> Z -> Q) (n : Z) (b : Z -> Q) :
  (forall t, 0 <= t < n -> ~ (L t t == 0)%Q) ->
  forall t, 0 <= t < n -> (lower_mult L n (trsm_row L n b) t == b t)%Q.
Proof.
  intros Hd t Ht. unfold trsm_row, lower_mult.
  pose (P := fun (k : Z) (x : Z -> Q) =>
    forall t, 0 <= t < n ->
      (b t == sumf n (fun c => if (c <? k) && (c <=? t) then x c * L t c else 0)
              + (if k <=? t then x t else 0))%Q).
  assert (G : P (Z.max 0 n) (for_loop n (trsm_step L n) b)).
  { apply for_loop_ind.
    - intros u Hu.
      replace (0 <=? u) with true by (symmetry; apply Z.leb_le; lia).
      rewrite (sumf_ext n (fun c => if (c <? 0) && (c <=? u) then b c * L u c else 0)%Q
                 (fun _ => 0 * 0)%Q).
      + rewrite sumf_scal. ring.
      + intros c Hc.
        replace (c <? 0) with false by (symmetry; apply Z.ltb_ge; lia).
        cbn [andb]. ring.
    - intros k x Hk HP u Hu. rewrite (HP u Hu).
      rewrite (sumf_split_at n k
                 (fun c => if (c <? k + 1) && (c <=? u)
                           then trsm_step L n k x c * L u c else 0)%Q Hk).
      replace (k <? k + 1) with true by (symmetry; apply Z.ltb_lt; lia).
      cbn [andb].
      rewrite (sumf_ext n
                 (fun c => if c =? k then 0
                           else if (c <? k + 1) && (c <=? u)
                                then trsm_step L n k x c * L u c else 0)%Q
                 (fun c => if (c <? k) && (c <=? u) then x c * L u c else 0)%Q).
      2:{ intros c Hc. destruct (c =? k) eqn:E2.
          - apply Z.eqb_eq in E2. subst c. rewrite Z.ltb_irrefl. reflexivity.
          - apply Z.eqb_neq in E2.
            destruct (c <? k) eqn:E3.
            + apply Z.ltb_lt in E3.
              replace (c <? k + 1) with true by (symmetry; apply Z.ltb_lt; lia).
              cbn [andb]. destruct (c <=? u); [|reflexivity].
              unfold trsm_step.
              replace (c =? k) with false by (symmetry; apply Z.eqb_neq; lia).
              replace (k <? c) with false by (symmetry; apply Z.ltb_ge; lia).
              reflexivity.
            + apply Z.ltb_ge in E3.
              replace (c <? k + 1) with false by (symmetry; apply Z.ltb_ge; lia).
              reflexivity. }
      unfold trsm_step. rewrite Z.eqb_refl.
      destruct (Z.compare_spec u k) as [E|E|E].
      + subst u. rewrite Z.leb_refl. rewrite Z.eqb_refl.
        replace (k + 1 <=? k) with false by (symmetry; apply Z.leb_gt; lia).
        field. apply Hd. exact Hk.
      + replace (k <=? u) with false by (symmetry; apply Z.leb_gt; lia).
        replace (k + 1 <=? u) with false by (symmetry; apply Z.leb_gt; lia).
        ring.
      + replace (k <=? u) with true by (symmetry; apply Z.leb_le; lia).
        replace (k + 1 <=? u) with true by (symmetry; apply Z.leb_le; lia).
        replace (u =? k) with false by (symmetry; apply Z.eqb_neq; lia).
        replace (k <? u) with true by (symmetry; apply Z.ltb_lt; lia).
        replace (u <? n) with true by (symmetry; apply Z.ltb_lt; lia).
        cbn [andb]. field. apply Hd. exact Hk. }
  specialize (G t Ht).
  replace (Z.max 0 n <=? t) with false in G by (symmetry; apply Z.leb_gt; lia).
  rewrite G.
  rewrite (sumf_ext n
             (fun c => if (c <? Z.max 0 n) && (c <=? t)
                       then for_loop n (trsm_step L n) b c * L t c else 0)%Q
             (fun c => if c <=? t
                       then for_loop n (trsm_step L n) b c * L t c else 0)%Q).
  - ring.
  - intros c Hc.
    replace (c <? Z.max 0 n) with true by (symmetry; apply Z.ltb_lt; lia).
    reflexivity.
Qed.

(** ** More on dtrsmFT *)

Lemma grid_no_rows (rows cols : Z) : rows <= 0 -> grid rows cols = [].
Proof.
  intros H. unfold grid, range.
  replace (Z.to_nat rows) with 0%nat by lia. cbn [seq map].
  induction (map Z.of_nat (seq 0 (Z.to_nat cols))) as [|j l IH];
    [reflexivity|exact IH].
Qed.

Lemma dtrsm_RLTN_no_rows m n alpha A lda B ldb (mm : mem) :
  m <= 0 -> dtrsm_RLTN m n alpha A lda B ldb mm = mm.
Proof. intros H. unfold dtrsm_RLTN. rewrite grid_no_rows by exact H. reflexivity. Qed.

Section DtrsmFTMore.

Import DtrsmFT.

Variables m n A lda B ldb checksumB checksumB_ld : Z.
Variables vd vd_ld chk1 chk1_ld chk2 chk2_ld work work_ld : Z.
Variables stream1 stream2 stream3 : magma_queue_t.

Local Abbreviation call FT DEBUG VERIFY :=
  (dtrsmFT m n A lda B ldb checksumB checksumB_ld vd vd_ld
           chk1 chk1_ld chk2 chk2_ld work work_ld
           stream1 stream2 stream3 FT DEBUG VERIFY).

Local Abbreviation blocks := (Z.quot (m - 1) n + 1).
Local Abbreviation scratch :=
  (view_addrs chk1 chk1_ld blocks n ++ view_addrs chk2 chk2_ld blocks n).
Local Abbreviation rA := (view_addrs A lda n n).
Local Abbreviation rB := (view_addrs B ldb m n).

Local Abbreviation solve_on q :=
  (EvTrsm Device q MagmaRight MagmaLower MagmaTrans MagmaNonUnit
          m n 1%Q A lda B ldb).

(** X6.  With FT disabled the routine is the one solve on B, on the kernel
    stream current at the call: VERIFY and DEBUG have no effect, no loop is
    entered (so the call returns for every m and n), the host memory and
    every device cell outside the m x n view of B are unchanged. *)
Theorem dtrsmFT_ft_disabled (DEBUG VERIFY : bool) (s : state) (a : Z) :
  ~ In a rB ->
  exists s',
    call false DEBUG VERIFY s = Some s'
    /\ log s' = log s ++ [solve_on (kernel_stream s)]
    /\ dev s' = dtrsm_RLTN m n 1 A lda B ldb (dev s)
    /\ dev s' a = dev s a
    /\ host s' = host s
    /\ kernel_stream s' = kernel_stream s.
Proof.
  intros Ha. eexists. split; [reflexivity|].
  cbn [log dev host kernel_stream].
  split; [reflexivity|]. split; [reflexivity|].
  split; [apply dtrsm_RLTN_frame; exact Ha|]. split; reflexivity.
Qed.

(** The state in which the solve on B starts. *)
Lemma dtrsmFT_before_solve (FT DEBUG VERIFY : bool) (s : state) :
  1 <= n ->
  disjointb scratch (rA ++ rB) = true ->
  exists s1,
    (if FT && VERIFY
     then verify_before m n B ldb checksumB checksumB_ld vd vd_ld
                        chk1 chk1_ld chk2 chk2_ld stream1 DEBUG s
     else Some s) = Some s1
    /\ agree_on (rA ++ rB) (dev s1) (dev s)
    /\ host s1 = host s.
Proof.
  intros Hn Hsep. destruct (FT && VERIFY).
  - destruct (verify_before_spec m n A lda B ldb checksumB checksumB_ld vd vd_ld
                chk1 chk1_ld chk2 chk2_ld stream1 DEBUG s Hn Hsep)
      as [s1 [E [Hag [Hh _]]]].
    exists s1. auto.
  - exists s. split; [reflexivity|]. split; [intros a _; reflexivity|reflexivity].
Qed.

(** X7.  Whatever the flags, when the scratch buffers are separate from A
    and B and the diagonal of A has no zero, the routine returns and row i
    of B then solves the system against the lower triangle of A:
    (B' L^T)[i,t] = B[i,t]. *)
Theorem dtrsmFT_solves_system (FT DEBUG VERIFY : bool) (s : state) (i t : Z) :
  1 <= n -> m <= ldb -> 0 <= i < m -> 0 <= t < n ->
  disjointb scratch (rA ++ rB) = true ->
  (forall u, 0 <= u < n -> ~ (dev s (addr A lda u u) == 0)%Q) ->
  exists s',
    call FT DEBUG VERIFY s = Some s'
    /\ (lower_mult (fun r c => dev s (addr A lda r c)) n
                   (fun c => dev s' (addr B ldb i c)) t
        == dev s (addr B ldb i t))%Q.
Proof.
  intros Hn Hldb Hi Ht Hsep Hdiag.
  destruct (dtrsmFT_before_solve FT DEBUG VERIFY s Hn Hsep) as [s1 [E1 [Hag _]]].
  apply agree_on_app in Hag. destruct Hag as [HagA HagB].
  assert (Hrun : exists s', call FT DEBUG VERIFY s = Some s'
                   /\ dev s' = dtrsm_RLTN m n 1 A lda B ldb (dev s1)).
  { unfold dtrsmFT. rewrite E1. destruct FT; eexists; split; reflexivity. }
  destruct Hrun as [s' [E Hdev]].
  exists s'. split; [exact E|].
  unfold lower_mult.
  rewrite (sumf_ext n
             (fun c => if c <=? t
                       then dev s' (addr B ldb i c) * dev s (addr A lda t c) else 0)%Q
             (fun c => if c <=? t
                       then trsm_row (fun r c' => dev s (addr A lda r c')) n
                                     (fun c' => dev s (addr B ldb i c')) c
                            * dev s (addr A lda t c)
                       else 0)%Q).
  - apply (trsm_row_solves (fun r c => dev s (addr A lda r c)) n
             (fun c => dev s (addr B ldb i c)) Hdiag t Ht).
  - intros c Hc. destruct (c <=? t); [|reflexivity].
    rewrite Hdev. rewrite dtrsm_RLTN_get by assumption.
    rewrite (trsm_row_compat
               (fun r c' => dev s1 (addr A lda r c'))
               (fun r c' => dev s (addr A lda r c')) n
               (fun c' => dev s1 (addr B ldb i c'))
               (fun c' => dev s (addr B ldb i c'))).
    + ring.
    + intros r c' H1 H2. rewrite HagA by (apply addr_in_view; lia). reflexivity.
    + intros u Hu. rewrite HagB by (apply addr_in_view; lia). reflexivity.
    + exact Hc.
Qed.

(** X8.  With FT enabled and fewer rows than columns (0 <= m < n) the solve
    on the checksums is issued with (m / n) * 2 = 0 rows: the routine
    returns with the host memory, hence every stored checksum, as it was,
    although the solve on B has been issued. *)
Theorem dtrsmFT_short_block_keeps_checksums (DEBUG VERIFY : bool) (s : state) :
  0 <= m < n ->
  exists s',
    call true DEBUG VERIFY s = Some s'
    /\ host s' = host s
    /\ In (solve_on (if VERIFY then stream1 else kernel_stream s)) (log s')
    /\ In (EvTrsm Host 0 MagmaRight MagmaLower MagmaTrans MagmaNonUnit
                  0 n 1%Q work work_ld checksumB checksumB_ld) (log s').
Proof.
  intros Hm.
  assert (Hq : Z.quot m n = 0) by (apply Z.quot_small; lia).
  assert (Hs1 : exists s1,
            (if true && VERIFY
             then verify_before m n B ldb checksumB checksumB_ld vd vd_ld
                                chk1 chk1_ld chk2 chk2_ld stream1 DEBUG s
             else Some s) = Some s1
            /\ host s1 = host s
            /\ kernel_stream s1 = if VERIFY then stream1 else kernel_stream s).
  { destruct VERIFY; cbn [andb]; [|exists s; split; [|split]; reflexivity].
    unfold verify_before.
    destruct (for_step_inv
                (fun x => host x = host s /\ kernel_stream x = stream1) m n
                (fun i =>
                   (magma_dgemv_v1 MagmaTrans n n MAGMA_D_ONE (B + i) ldb vd vd_ld
                                   MAGMA_D_ZERO (chk1 + Z.quot i n) chk1_ld ;;
                    magma_dgemv_v1 MagmaTrans n n MAGMA_D_ONE (B + i) ldb (vd + 1)
                                   vd_ld MAGMA_D_ZERO (chk2 + Z.quot i n) chk2_ld)%cmd)
                ltac:(lia)) with (fuel := Z.to_nat m) (i := 0)
                (s := magmablasSetKernelStream stream1 s) as [s1 [E [Hh Hk]]].
    - intros i x _ Hx. exact Hx.
    - lia.
    - split; reflexivity.
    - lia.
    - rewrite E. cbn [obind]. eexists. split; [reflexivity|].
      destruct DEBUG; (split; [exact Hh|reflexivity]). }
  destruct Hs1 as [s1 [E1 [Hh Hk]]].
  eexists. unfold dtrsmFT. rewrite E1. cbn [obind magma_dtrsm_v1 blas_dtrsm].
  cbv zeta. unfold blasf77_dtrsm. cbn [blas_dtrsm host dev log kernel_stream].
  split; [reflexivity|]. cbn [host dev log kernel_stream].
  rewrite Hq, Hk. cbn [Z.mul].
  split; [rewrite dtrsm_RLTN_no_rows by lia; exact Hh|].
  split.
  - apply in_or_app. left. apply in_or_app. right. left. reflexivity.
  - apply in_or_app. right. left. reflexivity.
Qed.

End DtrsmFTMore.

(** X6, witness: the 2 x 2 solve with FT disabled; the weight cell 40 keeps
    its value. *)
Lemma dtrsmFT_ft_disabled_witness :
  exists s',
    DtrsmFT.dtrsmFT 2 2 0 2 10 2 10 2 40 2 20 1 30 1 0 2 1 2 3 false false true
                    (trsm_example [2; 1; 0; 1]%Q) = Some s'
    /\ dev s' 40 = dev (trsm_example [2; 1; 0; 1]%Q) 40
    /\ host s' = host (trsm_example [2; 1; 0; 1]%Q).
Proof.
  destruct (dtrsmFT_ft_disabled 2 2 0 2 10 2 10 2 40 2 20 1 30 1 0 2 1 2 3
              false true (trsm_example [2; 1; 0; 1]%Q) 40)
    as [s' [E [_ [_ [Hd [Hh _]]]]]].
  - vm_compute. intuition discriminate.
  - exists s'. split; [exact E|]. split; [exact Hd|exact Hh].
Defined.

(** X7, witness: the 2 x 2 solve of [trsm_example]; row 1 of the solved B
    times L^T gives back B[1,1] = 5. *)
Lemma dtrsmFT_solves_system_witness :
  exists s',
    trsm_example_run [2; 1; 0; 1]%Q true = Some s'
    /\ (lower_mult (fun r c => dev (trsm_example [2; 1; 0; 1]%Q) (addr 0 2 r c)) 2
                   (fun c => dev s' (addr 10 2 1 c)) 1
        == 5)%Q.
Proof.
  destruct (dtrsmFT_solves_system 2 2 0 2 10 2 10 2 40 2 20 1 30 1 0 2 1 2 3
              true false true (trsm_example [2; 1; 0; 1]%Q) 1 1)
    as [s' [E H]].
  - lia.
  - lia.
  - lia.
  - lia.
  - vm_compute. reflexivity.
  - intros u Hu. assert (Hc : u = 0 \/ u = 1) by lia.
    destruct Hc as [-> | ->]; vm_compute; discriminate.
  - exists s'. split; [exact E|].
    eapply Qeq_trans; [exact H|]. vm_compute. reflexivity.
Defined.

(** X8, witness: one row of B against the 2 x 2 factor. *)
Lemma dtrsmFT_short_block_keeps_checksums_witness :
  exists s',
    DtrsmFT.dtrsmFT 1 2 0 2 10 2 10 2 40 2 20 1 30 1 0 2 1 2 3 true false true
                    (trsm_example [2; 1; 0; 1]%Q) = Some s'
    /\ host s' = host (trsm_example [2; 1; 0; 1]%Q).
Proof.
  destruct (dtrsmFT_short_block_keeps_checksums 1 2 0 2 10 2 10 2 40 2 20 1 30 1
              0 2 1 2 3 false true (trsm_example [2; 1; 0; 1]%Q))
    as [s' [E [Hh _]]].
  - lia.
  - exists s'. split; [exact E|exact Hh].
Defined.

(** ** More on dpotrfFT *)

(** The weighted column sums of L L^T are the weighted column sums of L,
    multiplied by L^T. *)
Lemma weighted_gram_is_lower_mult (L : Z -> Z -> Q) (n : Z) (w : Z -> Q) (u : Z) :
  (sumf n (fun i => w i * sumf n (fun c => (if c <=? i then L i c else 0)
                                           * (if c <=? u then L u c else 0)))
   == lower_mult L n
        (fun c => sumf n (fun i => if c <=? i then L i c * w i else 0)) u)%Q.
Proof.
  unfold lower_mult.
  rewrite (sumf_ext n
             (fun i => w i * sumf n (fun c => (if c <=? i then L i c else 0)
                                              * (if c <=? u then L u c else 0)))%Q
             (fun i => sumf n (fun c => w i * (if c <=? i then L i c else 0)
                                        * (if c <=? u then L u c else 0)))%Q).
  2:{ intros i _. rewrite <- sumf_scal. apply sumf_ext. intros c _. ring. }
  rewrite (sumf_swap n n
             (fun i c => w i * (if c <=? i then L i c else 0)
                         * (if c <=? u then L u c else 0))%Q).
  apply sumf_ext. intros c _.
  rewrite sumf_scal_r.
  destruct (c <=? u); [|ring].
  rewrite (sumf_ext n (fun i => w i * (if c <=? i then L i c else 0))%Q
             (fun i => if c <=? i then L i c * w i else 0)%Q).
  - reflexivity.
  - intros i _. destruct (c <=? i); ring.
Qed.

Section DpotrfFTMore.

Import DpotrfFT.

Variable lapack_dpotrf : magma_uplo_t -> Z -> Z -> Z -> mem -> mem * Z.
Variable detect_host :
  Z -> Z -> Z -> Z -> Z -> Z -> Z -> (Z -> Q) -> Z -> (Z -> Q) -> Z -> mem -> mem.

Variables A n chksum chksum_ld : Z.

Local Abbreviation rA := (view_addrs A n n n).

(** X9.  Fault-free run, for lda = n.  Let L be the lower triangle found in A
    when the factorization returns, with no zero on its diagonal.  When the
    two checksum rows then hold the column sums of L L^T weighted by
    (1,...,1) and (1,...,n), the sweep leaves in them the column sums of L
    for the same weights, which are the vectors [chk1] and [chk2]
    recomputed by the two [dtrmv] calls: [ErrorDetectAndCorrectHost] is
    entered with updated and recomputed checksums equal. *)
Theorem dpotrfFT_updated_equals_recomputed (v v_ld : Z) (DEBUG : bool)
    (s : state) :
  let f := factor_stage lapack_dpotrf A n s in
  let r := dpotrfFT lapack_dpotrf detect_host A n n chksum chksum_ld v v_ld
                    true DEBUG s in
  let L := fun i j => host (fst f) (addr A n i j) in
  let gram := fun i u =>
    sumf n (fun c => (if c <=? i then L i c else 0)
                     * (if c <=? u then L u c else 0))%Q in
  2 <= chksum_ld ->
  disjointb (view_addrs chksum chksum_ld 2 n) rA = true ->
  (forall u, 0 <= u < n -> ~ (L u u == 0)%Q) ->
  (forall u, 0 <= u < n ->
     (host (fst f) (addr chksum chksum_ld 0 u)
      == sumf n (fun i => 1 * gram i u))%Q) ->
  (forall u, 0 <= u < n ->
     (host (fst f) (addr chksum chksum_ld 1 u)
      == sumf n (fun i => inject_Z (i + 1) * gram i u))%Q) ->
  exists (chk1 chk2 : Z -> Q) (h : mem),
    host (fst r) = detect_host A n n n n chksum chksum_ld chk1 1 chk2 1 h
    /\ forall t, 0 <= t < n ->
         (h (addr chksum chksum_ld 0 t) == chk1 t)%Q
         /\ (h (addr chksum chksum_ld 1 t) == chk2 t)%Q
         /\ (chk1 t == sumf n (fun i => if t <=? i then L i t * 1 else 0))%Q
         /\ (chk2 t == sumf n (fun i => if t <=? i
                                        then L i t * inject_Z (i + 1) else 0))%Q.
Proof.
  intros f r L gram Hld Hsep Hdiag H1 H2.
  set (c := checksum_stage A n n chksum chksum_ld DEBUG (fst f)).
  exists (fst (fst c)), (snd (fst c)), (host (snd c)).
  split; [reflexivity|].
  intros t Ht.
  destruct (checksum_stage_rows A n chksum chksum_ld DEBUG (fst f) Hld Hsep)
    as [Hrows _]. fold c in Hrows.
  assert (Hrow : forall off (w : Z -> Q), 0 <= off < 2 ->
            (forall u, 0 <= u < n ->
               (host (fst f) (addr chksum chksum_ld off u)
                == sumf n (fun i => w i * gram i u))%Q) ->
            (host (snd c) (addr chksum chksum_ld off t)
             == sumf n (fun i => if t <=? i then L i t * w i else 0))%Q).
  { intros off w Hoff Hw.
    unfold addr. rewrite (Hrows off t Hoff Ht).
    rewrite (trsm_row_compat
               (fun r0 j => host (fst f) (addr A n r0 j)) L n
               (fun t' => host (fst f) (chksum + off + t' * chksum_ld)%Z)
               (lower_mult L n
                  (fun c0 => sumf n (fun i => if c0 <=? i then L i c0 * w i else 0)%Q))).
    - apply (trsm_row_inverts L n
               (fun c0 => sumf n (fun i => if c0 <=? i then L i c0 * w i else 0)%Q)
               Hdiag t Ht).
    - intros; reflexivity.
    - intros u Hu. rewrite <- weighted_gram_is_lower_mult.
      apply (Hw u Hu).
    - exact Ht. }
  assert (Hin : (0 <=? t) && (t <? n) = true)
    by (apply andb_true_iff; split; [apply Z.leb_le|apply Z.ltb_lt]; lia).
  assert (E1 : fst (fst c) t
               = sumf n (fun i => if t <=? i then (L i t * 1)%Q else 0%Q)).
  { unfold c, checksum_stage, blasf77_dtrmv, dtrmv_LTN. cbn [fst snd].
    rewrite Hin. reflexivity. }
  assert (E2 : snd (fst c) t
               = sumf n (fun i => if t <=? i then (L i t * inject_Z (i + 1))%Q
                                  else 0%Q)).
  { unfold c, checksum_stage, blasf77_dtrmv, dtrmv_LTN. cbn [fst snd].
    rewrite Hin. reflexivity. }
  rewrite E1, E2.
  split; [apply (Hrow 0 (fun _ => 1%Q)); [lia|exact H1]|].
  split; [apply (Hrow 1 (fun i => inject_Z (i + 1))); [lia|exact H2]|].
  split; reflexivity.
Qed.

End DpotrfFTMore.

(** X9, witness: A = [4 2; 2 5] = L L^T with L = [2 0; 1 2]; the sweep turns
    the checksums (6, 7) and (8, 12) of A into the checksums (3, 2) and
    (4, 4) of L, which are the recomputed ones. *)
Lemma dpotrfFT_updated_equals_recomputed_witness :
  exists (chk1 chk2 : Z -> Q) (h : mem),
    host (fst potrf_example_run) = detect_nothing 0 2 2 2 2 10 2 chk1 1 chk2 1 h
    /\ (h (addr 10 2 0 0) == chk1 0%Z)%Q /\ (chk1 0%Z == 3)%Q
    /\ (h (addr 10 2 1 1) == chk2 1%Z)%Q /\ (chk2 1%Z == 4)%Q.
Proof.
  destruct (dpotrfFT_updated_equals_recomputed potrf_exact detect_nothing
              0 2 10 2 20 2 false potrf_example) as [chk1 [chk2 [h [E H]]]].
  - lia.
  - vm_compute. reflexivity.
  - intros u Hu. assert (Hc : u = 0 \/ u = 1) by lia.
    destruct Hc as [-> | ->]; vm_compute; discriminate.
  - intros u Hu. assert (Hc : u = 0 \/ u = 1) by lia.
    destruct Hc as [-> | ->]; vm_compute; reflexivity.
  - intros u Hu. assert (Hc : u = 0 \/ u = 1) by lia.
    destruct Hc as [-> | ->]; vm_compute; reflexivity.
  - exists chk1, chk2, h. split; [exact E|].
    destruct (H 0 ltac:(lia)) as [a0 [_ [c0 _]]].
    destruct (H 1 ltac:(lia)) as [_ [b1 [_ d1]]].
    split; [exact a0|]. split; [eapply Qeq_trans; [exact c0|vm_compute; reflexivity]|].
    split; [exact b1|]. eapply Qeq_trans; [exact d1|vm_compute; reflexivity].
Defined.

Section DpotrfFTSweep.

Import DpotrfFT.

Variable lapack_dpotrf : magma_uplo_t -> Z -> Z -> Z -> mem -> mem * Z.
Variable detect_host :
  Z -> Z -> Z -> Z -> Z -> Z -> Z -> (Z -> Q) -> Z -> (Z -> Q) -> Z -> mem -> mem.

Variables A lda n chksum chksum_ld : Z.






End DpotrfFTSweep.


(** ** More on the detection and correction kernel *)

Lemma apply_patches_frame (l : list (Z * Q)) (mm : mem) (a : Z) :
  ~ In a (map fst l) -> Detect.apply_patches l mm a = mm a.
Proof.
  revert mm. induction l as [|p l IH]; intros mm H; [reflexivity|].
  unfold Detect.apply_patches. cbn [fold_left].
  fold (Detect.apply_patches l (Detect.apply_patch mm p)).
  rewrite IH by (intros X; apply H; right; exact X).
  unfold Detect.apply_patch. apply upd_other.
  intros E. apply H. left. symmetry. exact E.
Qed.

Section DetectMore.

Import Detect.

Variables C ldc chksumC1 incC1 chksumC2 incC2 chkC1 incC1_2 chkC2 incC2_2 : Z.

Local Abbreviation thread :=
  (detectAndCorrectForSyrk C ldc chksumC1 incC1 chksumC2 incC2
                           chkC1 incC1_2 chkC2 incC2_2).
Local Abbreviation D1 := (d1 chksumC1 incC1 chkC1 incC1_2).
Local Abbreviation D2 := (d2 chksumC2 incC2 chkC2 incC2_2).
Local Abbreviation is_flagged := (flagged chksumC1 incC1 chkC1 incC1_2).
Local Abbreviation patch_of :=
  (column_patch C ldc chksumC1 incC1 chksumC2 incC2 chkC1 incC1_2 chkC2 incC2_2).
Local Abbreviation cells :=
  (checksum_cells chksumC1 incC1 chksumC2 incC2 chkC1 incC1_2 chkC2 incC2_2).

(** X11.  The kernel does not check the row it locates.  When the first
    checksums of a column disagree by more than 0.1 while the second ones
    agree, the located row is round(0) - 1 = -1: the thread stores at
    address C - 1 + col * ldc, which is no entry (i, col), i >= 0, of the
    column, and adds to that cell the difference of the first checksums
    (both operations rounded to binary64). *)
Theorem detect_equal_second_checksums_store_at_row_minus_one
    (col : Z) (s : state) :
  is_flagged (dev s) col = true ->
  (D2 (dev s) col == 0)%Q ->
  let s' := thread col s in
  let a := C - 1 + col * ldc in
  let delta := fl64 (dev s (chksumC1 + col * incC1)%Z
                     - dev s (chkC1 + col * incC1_2)%Z) in
  patches (log s') = patches (log s) ++ [(a, delta)]
  /\ dev s' = upd (dev s) a (fl64 (dev s a + delta))
  /\ (forall i, 0 <= i -> a <> addr C ldc i col).
Proof.
  intros Hf Hd s' a delta.
  assert (Hrow : located_row chksumC1 incC1 chksumC2 incC2 chkC1 incC1_2
                             chkC2 incC2_2 (dev s) col = -1).
  { unfold located_row.
    assert (Hq : (Qabs (D2 (dev s) col) / Qabs (D1 (dev s) col) == 0)%Q).
    { rewrite (Qabs_wd _ _ Hd). unfold Qdiv. change (Qabs 0) with 0%Q. ring. }
    rewrite (fl64_compat _ _ Hq). reflexivity. }
  assert (Hp : patch_of (dev s) col = (a, delta)).
  { unfold column_patch. rewrite Hrow. unfold a, delta.
    replace (C + -1 + col * ldc) with (C - 1 + col * ldc) by lia. reflexivity. }
  unfold s'.
  rewrite (thread_spec C ldc chksumC1 incC1 chksumC2 incC2
             chkC1 incC1_2 chkC2 incC2_2 col s).
  rewrite Hf, Hp. cbn [dev log fst snd].
  split; [rewrite patches_app; reflexivity|].
  split; [reflexivity|].
  intros i Hi. unfold a, addr. lia.
Qed.

(** X12.  The kernel leaves the checksums it compares as they are, so its
    verdict is the same on a second launch: when no correction lands on a
    checksum cell, launching it twice applies every correction twice. *)
Theorem detect_relaunch_repeats_corrections (n : Z) (s : state) :
  (forall col, 0 <= col < n -> is_flagged (dev s) col = true ->
               ~ In (fst (patch_of (dev s) col)) (cells n)) ->
  let fired := map (patch_of (dev s)) (filter (is_flagged (dev s)) (range n)) in
  let s2 := launch_1d n thread (launch_1d n thread s) in
  patches (log s2) = patches (log s) ++ fired ++ fired
  /\ dev s2 = apply_patches (fired ++ fired) (dev s).
Proof.
  intros H fired s2.
  destruct (launch_patches_flagged C ldc chksumC1 incC1 chksumC2 incC2
              chkC1 incC1_2 chkC2 incC2_2 n s H) as [P1 [E1 _]].
  set (s1 := launch_1d n thread s) in *. fold fired in P1, E1.
  assert (Hag : agree_on (cells n) (dev s1) (dev s)).
  { intros a Ha. rewrite E1. apply apply_patches_frame.
    intros X. apply in_map_iff in X. destruct X as [p [Ep Hp]].
    unfold fired in Hp. apply in_map_iff in Hp. destruct Hp as [col [Ec Hc]].
    apply filter_In in Hc. destruct Hc as [Hr Hfl]. apply in_range in Hr.
    subst p a. exact (H col Hr Hfl Ha). }
  assert (Hsame : map (patch_of (dev s1)) (filter (is_flagged (dev s1)) (range n))
                  = fired).
  { unfold fired.
    rewrite (filter_ext_in (is_flagged (dev s1)) (is_flagged (dev s)) (range n)).
    - apply map_ext_in. intros col Hc. apply filter_In in Hc.
      destruct Hc as [Hr _]. apply in_range in Hr.
      destruct (quantities_agree C ldc chksumC1 incC1 chksumC2 incC2
                  chkC1 incC1_2 chkC2 incC2_2 n col (dev s1) (dev s) Hr Hag)
        as [_ [Ep _]]. exact Ep.
    - intros col Hr. apply in_range in Hr.
      destruct (quantities_agree C ldc chksumC1 incC1 chksumC2 incC2
                  chkC1 incC1_2 chkC2 incC2_2 n col (dev s1) (dev s) Hr Hag)
        as [Ef _]. exact Ef. }
  assert (H' : forall col, 0 <= col < n -> is_flagged (dev s1) col = true ->
                 ~ In (fst (patch_of (dev s1) col)) (cells n)).
  { intros col Hr Hfl.
    destruct (quantities_agree C ldc chksumC1 incC1 chksumC2 incC2
                chkC1 incC1_2 chkC2 incC2_2 n col (dev s1) (dev s) Hr Hag)
      as [Ef [Ep _]].
    rewrite Ep. apply H; [exact Hr|]. rewrite <- Ef. exact Hfl. }
  destruct (launch_patches_flagged C ldc chksumC1 incC1 chksumC2 incC2
              chkC1 incC1_2 chkC2 incC2_2 n s1 H') as [P2 [E2 _]].
  fold s2 in P2, E2. rewrite Hsame in P2, E2.
  split.
  - rewrite P2, P1, <- app_assoc. reflexivity.
  - rewrite E2, E1. unfold apply_patches. rewrite fold_left_app. reflexivity.
Qed.

End DetectMore.

(** X11, witness: on [first_checksum_fault_dev] the thread of column 1
    stores at address 3, the last row of column 0, and turns that correct
    entry 0 into -1. *)
Lemma detect_equal_second_checksums_store_at_row_minus_one_witness :
  let s := initial first_checksum_fault_dev (fun _ => 0%Q) in
  let s' := Detect.detectAndCorrectForSyrk 0 4 100 1 110 1 120 1 130 1 1 s in
  Detect.patches (log s') = [(3, (1 - 2)%Q)]
  /\ (dev s 3%Z == 0)%Q /\ (dev s' 3%Z == -1)%Q.
Proof.
  intros s s'.
  destruct (detect_equal_second_checksums_store_at_row_minus_one
              0 4 100 1 110 1 120 1 130 1 1 s) as [Hp [Hd _]].
  - vm_compute. reflexivity.
  - vm_compute. reflexivity.
  - fold s' in Hp, Hd. split; [rewrite Hp; vm_compute; reflexivity|].
    split; [vm_compute; reflexivity|].
    rewrite Hd. vm_compute. reflexivity.
Defined.

(** X12, witness: two launches on the scenario with two corrupted columns;
    the entry at address 6, corrupted from 0 to 5, ends at -5. *)
Lemma detect_relaunch_repeats_corrections_witness :
  Detect.patches (log (scenario_relaunch 5 2))
  = [(6, (-5)%Q); (12, (-2)%Q); (6, (-5)%Q); (12, (-2)%Q)]
  /\ (dev (scenario_relaunch 5 2) 6%Z == -5)%Q.
Proof.
  destruct (detect_relaunch_repeats_corrections 0 4 100 1 110 1 120 1 130 1 4
              (initial (scenario_dev 5 2) (fun _ => 0%Q))) as [Hp Hd].
  - intros col Hcol _.
    assert (Hc : col = 0 \/ col = 1 \/ col = 2 \/ col = 3) by lia.
    destruct Hc as [->|[->|[->| ->]]]; vm_compute; intuition discriminate.
  - cbv zeta in Hp, Hd. unfold scenario_relaunch, scenario_launch. split.
    + rewrite Hp. vm_compute. reflexivity.
    + rewrite Hd. vm_compute. reflexivity.
Defined.

(** ** More on abft_dgemm *)

Lemma view_no_rows (p ld rows cols a : Z) :
  rows <= 0 -> ~ In a (view_addrs p ld rows cols).
Proof.
  intros H X. apply in_view_addrs in X. destruct X as [i [j [Hi _]]]. lia.
Qed.

Section AbftDgemmMore.

Import AbftDgemm.

Variables checker_colchk checker_rowchk : checker_t.

Variables transA transB : magma_trans_t.
Variables m n k : Z.
Variables alpha beta : Q.
Variables dA ldda dB lddb dC lddc nb : Z.
Variables dA_colchk ldda_colchk dA_rowchk ldda_rowchk : Z.
Variables dA_colchk_r ldda_colchk_r dA_rowchk_r ldda_rowchk_r : Z.
Variables dB_colchk lddb_colchk dB_rowchk lddb_rowchk : Z.
Variables dB_colchk_r lddb_colchk_r dB_rowchk_r lddb_rowchk_r : Z.
Variables dC_colchk lddc_colchk dC_rowchk lddc_rowchk : Z.
Variables dC_colchk_r lddc_colchk_r dC_rowchk_r lddc_rowchk_r : Z.
Variables chk_v ld_chk_v : Z.
Variables stream1 stream2 : magma_queue_t.

Local Abbreviation run FT DEBUG CHECK_BEFORE CHECK_AFTER :=
  (abft_dgemm checker_colchk checker_rowchk transA transB m n k alpha
    dA ldda dB lddb beta dC lddc nb
    dA_colchk ldda_colchk dA_rowchk ldda_rowchk
    dA_colchk_r ldda_colchk_r dA_rowchk_r ldda_rowchk_r
    dB_colchk lddb_colchk dB_rowchk lddb_rowchk
    dB_colchk_r lddb_colchk_r dB_rowchk_r lddb_rowchk_r
    dC_colchk lddc_colchk dC_rowchk lddc_rowchk
    dC_colchk_r lddc_colchk_r dC_rowchk_r lddc_rowchk_r
    chk_v ld_chk_v FT DEBUG CHECK_BEFORE CHECK_AFTER stream1 stream2).

Local Abbreviation before DEBUG CHECK_BEFORE :=
  (when CHECK_BEFORE
     (check_before checker_colchk checker_rowchk transA transB m n k
        dA ldda dB lddb dC lddc nb
        dA_colchk ldda_colchk dA_rowchk ldda_rowchk
        dA_colchk_r ldda_colchk_r dA_rowchk_r ldda_rowchk_r
        dB_colchk lddb_colchk dB_rowchk lddb_rowchk
        dB_colchk_r lddb_colchk_r dB_rowchk_r lddb_rowchk_r
        dC_colchk lddc_colchk dC_rowchk lddc_rowchk
        dC_colchk_r lddc_colchk_r dC_rowchk_r lddc_rowchk_r
        chk_v ld_chk_v DEBUG stream1)).

Local Abbreviation protected_product :=
  (magma_dgemm transA transB m n k alpha dA ldda dB lddb beta dC lddc stream1 ;;
   update_checksums transA transB m n k alpha dA ldda dB lddb beta nb
     dA_colchk ldda_colchk dA_rowchk ldda_rowchk
     dB_colchk lddb_colchk dB_rowchk lddb_rowchk
     dC_colchk lddc_colchk dC_rowchk lddc_rowchk stream2)%cmd.

Local Abbreviation chkA := (if is_notrans transA then dA_colchk else dA_rowchk).
Local Abbreviation ldchkA := (if is_notrans transA then ldda_colchk else ldda_rowchk).
Local Abbreviation rC := (view_addrs dC lddc m n).
Local Abbreviation rCr := (view_addrs dC_rowchk lddc_rowchk m (Z.quot n nb * 2)).

(** X13.  A product with fewer rows than one block (0 <= m < nb): the
    number of column-checksum rows is (m / nb) * 2 = 0, so the product on the
    column checksums is issued with no rows.  When the verification passes
    leave a cell as it is, every cell outside the data view of C and its
    row-checksum shadow keeps its value: the column-checksum shadow of C is
    not updated although C is. *)
Theorem abft_dgemm_short_operand_keeps_colchk
    (DEBUG CHECK_BEFORE CHECK_AFTER : bool) (s : state) (a : Z) :
  let s1 := before DEBUG CHECK_BEFORE s in
  let s4 := protected_product s1 in
  let s' := run true DEBUG CHECK_BEFORE CHECK_AFTER s in
  0 <= m < nb ->
  ~ In a rC -> ~ In a rCr ->
  dev s1 a = dev s a -> dev s' a = dev s4 a ->
  dev s' a = dev s a
  /\ In (EvGemm Device stream2 transA transB 0 n k alpha chkA ldchkA dB lddb
                beta dC_colchk lddc_colchk) (log s').
Proof.
  intros s1 s4 s' Hm HaC HaCr H1 H4.
  assert (Hq : Z.quot m nb = 0) by (apply Z.quot_small; lia).
  split.
  - rewrite H4. unfold s4.
    rewrite (protected_product_dev transA transB m n k alpha beta
               dA ldda dB lddb dC lddc nb
               dA_colchk ldda_colchk dA_rowchk ldda_rowchk
               dB_colchk lddb_colchk dB_rowchk lddb_rowchk
               dC_colchk lddc_colchk dC_rowchk lddc_rowchk stream1 stream2 s1).
    rewrite cublasDgemm_frame by exact HaCr.
    rewrite cublasDgemm_frame by (rewrite Hq; apply view_no_rows; lia).
    rewrite cublasDgemm_frame by exact HaC.
    exact H1.
  - destruct (run_ft_log checker_colchk checker_rowchk transA transB m n k
                alpha beta dA ldda dB lddb dC lddc nb
                dA_colchk ldda_colchk dA_rowchk ldda_rowchk
                dA_colchk_r ldda_colchk_r dA_rowchk_r ldda_rowchk_r
                dB_colchk lddb_colchk dB_rowchk lddb_rowchk
                dB_colchk_r lddb_colchk_r dB_rowchk_r lddb_rowchk_r
                dC_colchk lddc_colchk dC_rowchk lddc_rowchk
                dC_colchk_r lddc_colchk_r dC_rowchk_r lddc_rowchk_r
                chk_v ld_chk_v stream1 stream2 DEBUG CHECK_BEFORE CHECK_AFTER s)
      as [post Hl].
    unfold s'. rewrite Hl. rewrite Hq. cbn [Z.mul].
    apply in_or_app. right. right. left. reflexivity.
Qed.

End AbftDgemmMore.

(** X13, witness: with one row, C[0,0] goes from 1 to 2*1*3 + 1 = 7 while the
    column checksum at 70 keeps its value 4. *)
Lemma abft_dgemm_short_operand_keeps_colchk_witness :
  dev gemm_short_run 70 = gemm_example_dev 70
  /\ (dev gemm_short_run 20%Z == 7)%Q.
Proof.
  destruct (abft_dgemm_short_operand_keeps_colchk recompute_colchk recompute_rowchk
    MagmaNoTrans MagmaNoTrans 1 2 1 2%Q 1%Q 0 2 10 1 20 2 2
    30 2 40 2 130 2 140 2
    60 2 50 1 160 2 150 2
    70 2 80 2 170 2 180 2
    200 2 1 2 false true true (initial gemm_example_dev (fun _ => 0%Q)) 70)
    as [Hd _].
  - lia.
  - vm_compute. intuition discriminate.
  - vm_compute. intuition discriminate.
  - vm_compute. reflexivity.
  - vm_compute. reflexivity.
  - split; [exact Hd|]. vm_compute. reflexivity.
Defined.

(** The stepped loop with an invariant that follows the loop variable. *)
Lemma for_step_ind (P : Z -> state -> Prop) (m n : Z) (body : Z -> cmd) :
  1 <= n ->
  (forall i s, 0 <= i < m -> P i s -> P (i + n) (body i s)) ->
  forall fuel i s, 0 <= i -> P i s -> (Z.to_nat (m - i) <= fuel)%nat ->
    exists s' i', DtrsmFT.for_step fuel i m n body s = Some s' /\ P i' s' /\ m <= i'.
Proof.
  intros Hn Hbody. induction fuel as [|fuel IH]; intros i s Hi HP Hf.
  - simpl. destruct (i <? m) eqn:E; [apply Z.ltb_lt in E; lia|].
    apply Z.ltb_ge in E. exists s, i. auto.
  - simpl. destruct (i <? m) eqn:E.
    + apply Z.ltb_lt in E. apply IH; [lia|apply Hbody; [lia|exact HP]|lia].
    + apply Z.ltb_ge in E. exists s, i. auto.
Qed.

Section DtrsmVerify.

Import DtrsmFT.

Variables m n A lda B ldb checksumB checksumB_ld : Z.
Variables vd vd_ld chk1 chk1_ld chk2 chk2_ld work work_ld : Z.
Variables stream1 stream2 stream3 : magma_queue_t.

Local Abbreviation blocks := (Z.quot (m - 1) n + 1).
Local Abbreviation s1v := (view_addrs chk1 chk1_ld blocks n).
Local Abbreviation s2v := (view_addrs chk2 chk2_ld blocks n).
Local Abbreviation rBfull := (view_addrs B ldb (blocks * n) n).
Local Abbreviation rV := (vec_addrs vd vd_ld n ++ vec_addrs (vd + 1) vd_ld n).

(** The weighted column sums of the block of [n] rows starting at row
    [b * n], for the weight vector at [w]. *)
Local Abbreviation block_sum mm w b j :=
  (sumf n (fun l => mm (w + l * vd_ld)%Z * mm (addr B ldb (b * n + l) j))%Q).

Lemma verify_before_recomputes_block_checksums (DEBUG : bool) (s : state)
    (b j : Z) :
  1 <= n -> blocks <= chk1_ld -> blocks <= chk2_ld ->
  0 <= b -> b * n < m -> 0 <= j < n ->
  disjointb (s1v ++ s2v) (rBfull ++ rV) = true ->
  disjointb s1v s2v = true ->
  exists s1,
    verify_before m n B ldb checksumB checksumB_ld vd vd_ld
                  chk1 chk1_ld chk2 chk2_ld stream1 DEBUG s = Some s1
    /\ (dev s1 (addr chk1 chk1_ld b j) == block_sum (dev s) vd b j)%Q
    /\ (dev s1 (addr chk2 chk2_ld b j) == block_sum (dev s) (vd + 1) b j)%Q.
Proof.
  intros Hn Hld1 Hld2 Hb Hbm Hj Hsep H12.
  assert (Hblocks : forall q, 0 <= q -> q * n < m -> 0 <= q < blocks).
  { intros q Hq Hqm. split; [lia|].
    assert (q <= Z.quot (m - 1) n); [|lia].
    apply Z.quot_le_lower_bound; lia. }
  unfold verify_before.
  set (body := fun i =>
         (magma_dgemv_v1 MagmaTrans n n MAGMA_D_ONE (B + i) ldb vd vd_ld
                         MAGMA_D_ZERO (chk1 + Z.quot i n) chk1_ld ;;
          magma_dgemv_v1 MagmaTrans n n MAGMA_D_ONE (B + i) ldb (vd + 1) vd_ld
                         MAGMA_D_ZERO (chk2 + Z.quot i n) chk2_ld)%cmd).
  set (P := fun (i : Z) (x : state) =>
         (exists q, 0 <= q /\ i = q * n)
         /\ agree_on (rBfull ++ rV) (dev x) (dev s)
         /\ forall b' j', 0 <= b' -> b' * n < i -> b' * n < m -> 0 <= j' < n ->
              (dev x (addr chk1 chk1_ld b' j') == block_sum (dev s) vd b' j')%Q
              /\ (dev x (addr chk2 chk2_ld b' j')
                  == block_sum (dev s) (vd + 1) b' j')%Q).
  destruct (for_step_ind P m n body Hn) with (fuel := Z.to_nat m) (i := 0)
              (s := magmablasSetKernelStream stream1 s)
    as [s1 [i' [E [[_ [_ HP]] Hi']]]].
  - intros i x Hi [[q [Hq Eq]] [Hag Hdone]]. subst i.
    assert (Hquot : Z.quot (q * n) n = q) by (apply Z.quot_mul; lia).
    assert (Hqb : 0 <= q < blocks) by (apply Hblocks; lia).
    assert (Hc1 : chk1_ld <> 0) by (clear - Hqb Hld1; lia).
    assert (Hc2 : chk2_ld <> 0) by (clear - Hqb Hld2; lia).
    unfold P, body, magma_dgemv_v1, on_dev, emit. cbn [dev log host kernel_stream].
    rewrite Hquot.
    set (g1 := cublasDgemv MagmaTrans n n MAGMA_D_ONE (B + q * n) ldb vd vd_ld
                           MAGMA_D_ZERO (chk1 + q) chk1_ld (dev x)).
    set (g2 := cublasDgemv MagmaTrans n n MAGMA_D_ONE (B + q * n) ldb (vd + 1) vd_ld
                           MAGMA_D_ZERO (chk2 + q) chk2_ld g1).
    assert (In1 : forall t, 0 <= t < n ->
              In ((chk1 + q) + t * chk1_ld) s1v).
    { intros t Ht. apply (addr_in_view chk1 chk1_ld blocks n q t); assumption. }
    assert (In2 : forall t, 0 <= t < n ->
              In ((chk2 + q) + t * chk2_ld) s2v).
    { intros t Ht. apply (addr_in_view chk2 chk2_ld blocks n q t); assumption. }
    assert (F1 : forall a, ~ In a s1v -> g1 a = dev x a).
    { intros a Ha. unfold g1. apply cublasDgemv_frame. cbn [is_notrans].
      intros X. apply in_vec_addrs in X. destruct X as [t [Ht ->]].
      apply Ha. apply In1. exact Ht. }
    assert (F2 : forall a, ~ In a s2v -> g2 a = g1 a).
    { intros a Ha. unfold g2. apply cublasDgemv_frame. cbn [is_notrans].
      intros X. apply in_vec_addrs in X. destruct X as [t [Ht ->]].
      apply Ha. apply In2. exact Ht. }
    assert (Hout : forall a, In a (rBfull ++ rV) -> ~ In a s1v /\ ~ In a s2v).
    { intros a Ha. pose proof (disjointb_spec_r _ _ Hsep a Ha) as N.
      split; intros X; apply N; apply in_or_app; [left|right]; exact X. }
    assert (Hag1 : agree_on (rBfull ++ rV) g1 (dev s)).
    { intros a Ha. rewrite F1 by (apply Hout; exact Ha). apply Hag. exact Ha. }
    assert (Hrow : forall l, 0 <= l < n -> 0 <= q * n + l < blocks * n) by nia.
    assert (Hsum : forall (mm : mem) w j',
              agree_on (rBfull ++ rV) mm (dev s) ->
              (w = vd \/ w = vd + 1) -> 0 <= j' < n ->
              (gemv_entry MagmaTrans n n MAGMA_D_ONE (B + q * n) ldb w vd_ld
                          MAGMA_D_ZERO (if w =? vd then chk1 + q else chk2 + q)
                          (if w =? vd then chk1_ld else chk2_ld) mm j'
               == block_sum (dev s) w q j')%Q).
    { intros mm w j' Hm Hw Hj'. unfold gemv_entry, op_get, MAGMA_D_ONE, MAGMA_D_ZERO.
      cbn [is_notrans].
      rewrite (sumf_ext n
                 (fun l => mm (addr (B + q * n) ldb l j') * mm (w + l * vd_ld)%Z)%Q
                 (fun l => dev s (w + l * vd_ld)%Z
                           * dev s (addr B ldb (q * n + l) j'))%Q).
      - ring.
      - intros l Hl.
        replace (addr (B + q * n) ldb l j') with (addr B ldb (q * n + l) j')
          by (unfold addr; lia).
        rewrite (Hm (addr B ldb (q * n + l) j'))
          by (apply in_or_app; left; apply addr_in_view; [apply Hrow|]; assumption).
        rewrite (Hm (w + l * vd_ld))
          by (apply in_or_app; right; destruct Hw as [-> | ->];
              apply in_or_app; [left|right]; apply in_vec; exact Hl).
        ring. }
    split; [exists (q + 1); split; [lia|ring]|].
    split.
    + intros a Ha. rewrite F2 by (apply Hout; exact Ha). apply Hag1. exact Ha.
    + intros b' j' Hb' Hlt Hltm Hj'.
      assert (Hb'b : 0 <= b' < blocks) by (apply Hblocks; assumption).
      assert (Hcase : b' = q \/ b' < q) by nia.
      destruct Hcase as [-> | Hlt'].
      * split.
        -- rewrite F2
             by (apply (disjointb_spec _ _ H12); apply addr_in_view; assumption).
           unfold g1. unfold addr.
           rewrite (cublasDgemv_get MagmaTrans n n MAGMA_D_ONE (B + q * n) ldb vd vd_ld
                      MAGMA_D_ZERO (chk1 + q) chk1_ld (dev x) j' Hc1 Hj').
           pose proof (Hsum (dev x) vd j' Hag (or_introl eq_refl) Hj') as X.
           rewrite Z.eqb_refl in X. exact X.
        -- unfold g2. unfold addr.
           rewrite (cublasDgemv_get MagmaTrans n n MAGMA_D_ONE (B + q * n) ldb
                      (vd + 1) vd_ld MAGMA_D_ZERO (chk2 + q) chk2_ld g1 j' Hc2 Hj').
           pose proof (Hsum g1 (vd + 1) j' Hag1 (or_intror eq_refl) Hj') as X.
           replace (vd + 1 =? vd) with false in X
             by (symmetry; apply Z.eqb_neq; lia).
           exact X.
      * destruct (Hdone b' j' Hb' ltac:(nia) Hltm Hj') as [D1 D2].
        assert (N1 : forall t, 0 <= t < n ->
                  addr chk1 chk1_ld b' j' <> chk1 + q + t * chk1_ld).
        { intros t Ht X.
          destruct (addr_inj chk1 chk1_ld blocks b' j' q t Hld1 Hb'b Hqb X). lia. }
        assert (N2 : forall t, 0 <= t < n ->
                  addr chk2 chk2_ld b' j' <> chk2 + q + t * chk2_ld).
        { intros t Ht X.
          destruct (addr_inj chk2 chk2_ld blocks b' j' q t Hld2 Hb'b Hqb X). lia. }
        split.
        -- rewrite F2
             by (apply (disjointb_spec _ _ H12); apply addr_in_view; assumption).
           unfold g1. rewrite cublasDgemv_frame; [exact D1|].
           cbn [is_notrans]. intros X. apply in_vec_addrs in X.
           destruct X as [t [Ht X]]. exact (N1 t Ht X).
        -- unfold g2. rewrite cublasDgemv_frame.
           ++ rewrite F1; [exact D2|].
              apply (disjointb_spec_r _ _ H12). apply addr_in_view; assumption.
           ++ cbn [is_notrans]. intros X. apply in_vec_addrs in X.
              destruct X as [t [Ht X]]. exact (N2 t Ht X).
  - lia.
  - split; [exists 0; split; [lia|ring]|].
    split; [intros a _; reflexivity|]. intros; lia.
  - lia.
  - rewrite E. cbn [obind]. eexists. split; [reflexivity|].
    destruct (HP b j Hb ltac:(lia) Hbm Hj) as [D1 D2].
    destruct DEBUG; (split; [exact D1|exact D2]).
Qed.

(** X14.  With FT and VERIFY enabled, n >= 1 and separate buffers, the call
    returns and the scratch matrices [chk1] and [chk2] (one row per block of
    n rows of B, leading dimensions covering the number of blocks) hold the
    column sums of each block of B as it was on entry, weighted by the
    strided vectors at [vd] and [vd + 1]; the solve that follows does not
    disturb them. *)
Theorem dtrsmFT_verify_recomputes_block_checksums (DEBUG : bool) (s : state)
    (b j : Z) :
  1 <= n -> blocks <= chk1_ld -> blocks <= chk2_ld ->
  0 <= b -> b * n < m -> 0 <= j < n ->
  disjointb (s1v ++ s2v) (rBfull ++ rV) = true ->
  disjointb s1v s2v = true ->
  exists s',
    dtrsmFT m n A lda B ldb checksumB checksumB_ld vd vd_ld
            chk1 chk1_ld chk2 chk2_ld work work_ld
            stream1 stream2 stream3 true DEBUG true s = Some s'
    /\ (dev s' (addr chk1 chk1_ld b j) == block_sum (dev s) vd b j)%Q
    /\ (dev s' (addr chk2 chk2_ld b j) == block_sum (dev s) (vd + 1) b j)%Q.
Proof.
  intros Hn Hld1 Hld2 Hb Hbm Hj Hsep H12.
  destruct (verify_before_recomputes_block_checksums DEBUG s b j
              Hn Hld1 Hld2 Hb Hbm Hj Hsep H12) as [s1 [E1 [D1 D2]]].
  assert (Hbb : 0 <= b < blocks).
  { split; [lia|]. assert (b <= Z.quot (m - 1) n); [|lia].
    apply Z.quot_le_lower_bound; lia. }
  assert (Hcover : m <= blocks * n).
  { pose proof (Z.quot_rem' (m - 1) n) as Q.
    pose proof (Z.rem_bound_pos (m - 1) n ltac:(nia) ltac:(lia)) as Rb. nia. }
  assert (Hout : forall a, In a (s1v ++ s2v) -> ~ In a (view_addrs B ldb m n)).
  { intros a Ha X. apply (disjointb_spec _ _ Hsep a Ha).
    apply in_or_app. left. apply in_view_addrs in X.
    destruct X as [i [j' [Hi [Hj' ->]]]]. apply addr_in_view; lia. }
  eexists. unfold dtrsmFT. cbn [andb]. rewrite E1.
  cbn [obind magma_dtrsm_v1 blas_dtrsm]. cbv zeta. unfold blasf77_dtrsm.
  cbn [blas_dtrsm host dev log kernel_stream].
  split; [reflexivity|]. cbn [host dev log kernel_stream].
  split.
  - rewrite dtrsm_RLTN_frame; [exact D1|].
    apply Hout. apply in_or_app. left. apply addr_in_view; assumption.
  - rewrite dtrsm_RLTN_frame; [exact D2|].
    apply Hout. apply in_or_app. right. apply addr_in_view; assumption.
Qed.

End DtrsmVerify.

(** X14, witness: the single block of [trsm_example], B = [2 3; 4 5]: the
    recomputed checksums of column 1 are 3 + 5 = 8 and 3 + 2*5 = 13. *)
Lemma dtrsmFT_verify_recomputes_block_checksums_witness :
  exists s',
    trsm_example_run [2; 1; 0; 1]%Q true = Some s'
    /\ (dev s' (addr 20 1 0 1) == 8)%Q /\ (dev s' (addr 30 1 0 1) == 13)%Q.
Proof.
  destruct (dtrsmFT_verify_recomputes_block_checksums 2 2 0 2 10 2 10 2 40 2
              20 1 30 1 0 2 1 2 3 false (trsm_example [2; 1; 0; 1]%Q) 0 1)
    as [s' [E [H1 H2]]].
  - lia.
  - vm_compute. discriminate.
  - vm_compute. discriminate.
  - lia.
  - lia.
  - lia.
  - vm_compute. reflexivity.
  - vm_compute. reflexivity.
  - exists s'. split; [exact E|]. split.
    + eapply Qeq_trans; [exact H1|]. vm_compute. reflexivity.
    + eapply Qeq_trans; [exact H2|]. vm_compute. reflexivity.
Defined.

(** X15, witness: the error 3 at entry (1,0) shows after the update as the
    discrepancy 2 * 3 = 6 of the second checksum of column 0, and as no
    discrepancy in column 1. *)
Lemma dsyrkFTv2_carries_data_error_witness :
  (dev syrk_v2_corrupted_run (addr 50 2 1 0)
   - dev syrk_v2_corrupted_run (addr 30 2 1 0) == 6)%Q.
Proof.
  destruct (dsyrkFTv2_carries_data_error 0 2 1 0 2 10 2 20 2 30 2 40 2 50 2
              false syrk_corrupted_example
              (fun i k => dev syrk_example (addr 10 2 i k)) 1 0 3 1 0) as [H _].
  - lia.
  - lia.
  - lia.
  - lia.
  - lia.
  - lia.
  - lia.
  - vm_compute. reflexivity.
  - vm_compute. reflexivity.
  - vm_compute. reflexivity.
  - intros i k Hi Hk.
    assert (Hc : (i = 0 \/ i = 1) /\ (k = 0 \/ k = 1)) by lia.
    destruct Hc as [[-> | ->] [-> | ->]]; vm_compute; reflexivity.
  - intros c' k Hc' Hk.
    assert (Hc : (c' = 0 \/ c' = 1) /\ (k = 0 \/ k = 1)) by lia.
    destruct Hc as [[-> | ->] [-> | ->]]; vm_compute; reflexivity.
  - unfold syrk_v2_corrupted_run.
    eapply Qeq_trans; [exact H|]. vm_compute. reflexivity.
Defined.

Section DpotrfFTFrame.

Import DpotrfFT.

Variable lapack_dpotrf : magma_uplo_t -> Z -> Z -> Z -> mem -> mem * Z.
Variable detect_host :
  Z -> Z -> Z -> Z -> Z -> Z -> Z -> (Z -> Q) -> Z -> (Z -> Q) -> Z -> mem -> mem.

Variables A n chksum chksum_ld : Z.

Local Abbreviation rA := (view_addrs A n n n).
Local Abbreviation rChk := (view_addrs chksum chksum_ld 2 n).

(** The checksum stage writes checksum cells only. *)
Lemma checksum_stage_frame (DEBUG : bool) (sf : state) (a : Z) :
  2 <= chksum_ld ->
  disjointb rChk rA = true ->
  ~ In a rChk ->
  host (snd (checksum_stage A n n chksum chksum_ld DEBUG sf)) a = host sf a
  /\ dev (snd (checksum_stage A n n chksum chksum_ld DEBUG sf)) = dev sf.
Proof.
  intros Hld Hsep Ha. unfold checksum_stage. cbn [fst snd].
  unfold update_checksums, blasf77_dtrmv, magma_set_lapack_numthreads.
  cbn [fst snd].
  set (sa := emit (EvSetLapackThreads 64)
               (emit (EvTrmv n A n) (emit (EvTrmv n A n)
                  (emit (EvSetLapackThreads 8) sf)))).
  rewrite (for_loop_ext n (update_chksum1 A n n chksum chksum_ld)
             (update_chksum_at 0 A n n chksum chksum_ld) sa
             (update_chksum1_at A n chksum chksum_ld)).
  rewrite (for_loop_ext n (update_chksum2 A n n chksum chksum_ld)
             (update_chksum_at 1 A n n chksum chksum_ld) _
             (update_chksum2_at A n chksum chksum_ld)).
  set (sb := for_loop n (update_chksum_at 0 A n n chksum chksum_ld) sa).
  set (sc := for_loop n (update_chksum_at 1 A n n chksum chksum_ld) sb).
  assert (Hld0 : chksum_ld <> 0) by lia.
  destruct (update_loop_spec A n chksum chksum_ld 0 sa Hld0
              (row_cells_sep A n chksum chksum_ld 0 ltac:(lia) Hsep))
    as [_ [B2 [B3 _]]]. fold sb in B2, B3.
  destruct (update_loop_spec A n chksum chksum_ld 1 sb Hld0
              (row_cells_sep A n chksum chksum_ld 1 ltac:(lia) Hsep))
    as [_ [C2 [C3 _]]]. fold sc in C2, C3.
  assert (Hrow : forall off, 0 <= off < 2 ->
            ~ In a (vec_addrs (chksum + off) chksum_ld n)).
  { intros off Hoff X. apply Ha. apply in_vec_addrs in X.
    destruct X as [t [Ht ->]].
    apply (addr_in_view chksum chksum_ld 2 n off t); lia. }
  assert (Hdbg : forall x,
            host (when DEBUG
              (print_line "recalcuated checksum on CPU after factorization:" ;;
               emit (EvPrintMatrix Host 0 1 1 n) ;;
               emit (EvPrintMatrix Host 0 1 1 n) ;;
               print_line "updated checksum on CPU after factorization:" ;;
               DsyrkFT.printMatrix_host chksum chksum_ld 2 n)%cmd x) = host x
            /\ dev (when DEBUG
              (print_line "recalcuated checksum on CPU after factorization:" ;;
               emit (EvPrintMatrix Host 0 1 1 n) ;;
               emit (EvPrintMatrix Host 0 1 1 n) ;;
               print_line "updated checksum on CPU after factorization:" ;;
               DsyrkFT.printMatrix_host chksum chksum_ld 2 n)%cmd x) = dev x)
    by (intros x; destruct DEBUG; split; reflexivity).
  destruct (Hdbg sc) as [Eh Ed]. rewrite Eh, Ed.
  split.
  - rewrite (C2 a (Hrow 1 ltac:(lia))), (B2 a (Hrow 0 ltac:(lia))). reflexivity.
  - rewrite C3, B3. reflexivity.
Qed.

(** X17.  The protection leaves the factorization as it is (lda = n): when
    the checksum rows are separate from A and the final detection pass finds
    nothing to correct in a cell outside the checksum rows, that cell holds
    after the protected call what the factorization alone leaves in it; the
    device memory is never touched. *)
Theorem dpotrfFT_protection_leaves_factor (v v_ld : Z) (DEBUG : bool)
    (s : state) (a : Z) :
  let c := checksum_stage A n n chksum chksum_ld DEBUG
             (fst (factor_stage lapack_dpotrf A n s)) in
  let on := dpotrfFT lapack_dpotrf detect_host A n n chksum chksum_ld v v_ld
                     true DEBUG s in
  let off := dpotrfFT lapack_dpotrf detect_host A n n chksum chksum_ld v v_ld
                      false DEBUG s in
  2 <= chksum_ld ->
  disjointb rChk rA = true ->
  ~ In a rChk ->
  host (fst on) a = host (snd c) a ->
  host (fst on) a = host (fst off) a
  /\ host (fst off) a = fst (lapack_dpotrf MagmaLower n A n (host s)) a
  /\ dev (fst on) = dev s
  /\ snd on = snd off.
Proof.
  intros c on off Hld Hsep Ha Hq.
  destruct (checksum_stage_frame DEBUG (fst (factor_stage lapack_dpotrf A n s)) a
              Hld Hsep Ha) as [Fh Fd].
  fold c in Fh, Fd.
  split; [rewrite Hq, Fh; reflexivity|].
  split; [reflexivity|].
  split; [|reflexivity].
  unfold on, dpotrfFT, ErrorDetectAndCorrectHost, emit, on_host.
  cbn [fst snd dev]. fold c. rewrite Fd. reflexivity.
Qed.

End DpotrfFTFrame.

(** X17, witness: on [potrf_example] the factor entry L[1,1] at address 3 is
    2 with and without FT. *)
Lemma dpotrfFT_protection_leaves_factor_witness :
  host (fst potrf_example_run) 3
  = host (fst (DpotrfFT.dpotrfFT potrf_exact detect_nothing 0 2 2 10 2 20 2
                 false false potrf_example)) 3
  /\ (host (fst potrf_example_run) 3%Z == 2)%Q.
Proof.
  destruct (dpotrfFT_protection_leaves_factor potrf_exact detect_nothing
              0 2 10 2 20 2 false potrf_example 3) as [H _].
  - lia.
  - vm_compute. reflexivity.
  - vm_compute. intuition discriminate.
  - rewrite dpotrfFT_host_final, detect_nothing_id. reflexivity.
  - unfold potrf_example_run. split; [exact H|]. rewrite H.
    vm_compute. reflexivity.
Defined.

(** X18.  The bounds test of [get] compares with [>]: the row index i = ld
    and the column index j = n, both one past the last valid index, pass it.
    For i = ld the value returned, silently and with the state unchanged, is
    the first entry of the next column; whatever the indices, [get] returns
    the cell at matrix + j * ld + i and changes no memory. *)
Theorem get_accepts_index_one_past_the_end (matrix ld n j : Z) (s : state) :
  j <= n ->
  DpotrfFT.get matrix ld n ld j s = (host s (addr matrix ld 0 (j + 1)), s)
  /\ forall i j', fst (DpotrfFT.get matrix ld n i j' s) = host s (matrix + j' * ld + i)
                  /\ host (snd (DpotrfFT.get matrix ld n i j' s)) = host s
                  /\ dev (snd (DpotrfFT.get matrix ld n i j' s)) = dev s.
Proof.
  intros Hj. split.
  - unfold DpotrfFT.get.
    assert (E : (ld <? ld) || (n <? j) = false).
    { rewrite Z.ltb_irrefl. cbn [orb]. apply Z.ltb_ge. exact Hj. }
    rewrite E. unfold when, skip.
    replace (matrix + j * ld + ld) with (addr matrix ld 0 (j + 1))
      by (unfold addr; lia).
    reflexivity.
  - intros i j'. unfold DpotrfFT.get. cbn [fst snd].
    destruct ((ld <? i) || (n <? j')); repeat split; reflexivity.
Qed.

(** X18, witness: row index 2 of column 0 of the 2 x 2 matrix of
    [potrf_example] reads entry (0,1). *)
Lemma get_accepts_index_one_past_the_end_witness :
  DpotrfFT.get 0 2 2 2 0 potrf_example
  = (host potrf_example (addr 0 2 0 1), potrf_example).
Proof.
  destruct (get_accepts_index_one_past_the_end 0 2 2 0 potrf_example) as [H _].
  - lia.
  - exact H.
Defined.
